(** * ProjectScripts: distributed scoring/assembly and assignment-based
      group aggregation

    A shallow embedding of the algorithmic core of the repository:

    - [diamond_blastp_mpi.py]: the contiguous workload split
      ([counts_d], [displs_d], [task_slices_d]);
    - [AllvsAllMPIsimilaritySearch.py]: [make_batches], [compute_block],
      the round-robin block computation, the assembly on rank 0 and the
      symmetrisation of the matrix;
    - [hungarianalgorithmRun.py]: [to_dir_dict], [_avg_two],
      [merge_symmetric], [build_cost_matrix], [solve_hungarian] and the
      collection loop of [main];
    - [processHungarianAlgoOutput.py]: the per-file similarity and the
      final species matrix.

    Python floats are modelled by [float]: a canonical rational ([Qc]) or
    the not-a-number value.  Rounding is not modelled: arithmetic is exact.
    External libraries (SciPy's solver, RDKit's bulk similarity) are taken
    as section variables. *)

From Stdlib Require Import QArith Qcanon.
From stdpp Require Import base numbers list sorting gmap strings fin_maps.

Ltac Zify.zify_post_hook ::= Z.to_euclidean_division_equations.

(** ** Python floats *)

Inductive float : Type :=
  | NaN : float
  | Fin : Qc → float.

Global Instance float_eq_dec : EqDecision float.
Proof. solve_decision. Defined.

Global Instance float_inhabited : Inhabited float := populate NaN.

(** [pd.isna] / [np.isnan] / [math.isnan] *)
Definition isna (x : float) : bool :=
  match x with NaN => true | Fin _ => false end.

Definition fadd (x y : float) : float :=
  match x, y with
  | Fin a, Fin b => Fin (a + b)%Qc
  | _, _ => NaN
  end.

Definition fmul (x y : float) : float :=
  match x, y with
  | Fin a, Fin b => Fin (a * b)%Qc
  | _, _ => NaN
  end.

(** Division; a zero divisor gives [inf] or [nan] in NumPy, for which the
    model has the one undefined value. *)
Definition fdiv (x y : float) : float :=
  match x, y with
  | Fin a, Fin b => if bool_decide (b = 0%Qc) then NaN else Fin (a / b)%Qc
  | _, _ => NaN
  end.

Global Instance Qc_inhabited : Inhabited Qc := populate 0%Qc.

(** The sum of a list of numbers. *)
Definition Qc_sum (vals : list Qc) : Qc := foldr Qcplus 0%Qc vals.

Definition half : Qc := Q2Qc (1 # 2).
Definition two : Qc := Q2Qc 2.
Definition hundred : Qc := Q2Qc 100.

(** ** Python ranges and slices (non-negative bounds, positive step) *)

(** [range(start, stop, step)].  A zero step raises [ValueError] in Python;
    every caller below is stated for a positive step. *)
Definition py_range (start stop step : nat) : list nat :=
  map (λ k, start + k * step) (seq 0 ((stop - start + step - 1) / step)).

Section slices.
Context {A : Type}.

(** [l[s:e]] *)
Definition py_slice (l : list A) (s e : nat) : list A :=
  take (e - s) (drop s l).

(** [l[start::step]] *)
Definition py_stride (l : list A) (start step : nat) : list A :=
  omap (λ k, l !! k) (py_range start (length l) step).

(** [enumerate(l)] *)
Definition enumerate (l : list A) : list (nat * A) := zip (seq 0 (length l)) l.

End slices.

(** ** TaskPartitioner *)

Module TaskPartitioner.

(** [diamond_blastp_mpi.py], step 5 of phase 1: the workload
    distribution computed on rank 0. *)
Definition counts_d (N_diamond SIZE : nat) : list nat :=
  let avg_d := N_diamond / SIZE in
  let rem_d := N_diamond mod SIZE in
  map (λ i, if decide (i < rem_d) then avg_d + 1 else avg_d) (seq 0 SIZE).

Definition displs_d (counts : list nat) (SIZE : nat) : list nat :=
  map (λ i, sum_list (take i counts)) (seq 0 SIZE).

Definition task_slices_d {A} (all_diamond_tasks : list A) (SIZE : nat)
  : list (list A) :=
  let counts := counts_d (length all_diamond_tasks) SIZE in
  let displs := displs_d counts SIZE in
  map (λ i, let start := displs !!! i in
            let end_ := displs !!! i + counts !!! i in
            py_slice all_diamond_tasks start end_) (seq 0 SIZE).

(** [AllvsAllMPIsimilaritySearch.py]: the round-robin assignment
    [my_row_batches = row_batches[rank::size]], and the slices of all the
    ranks. *)
Definition my_row_batches {A} (row_batches : list A) (rank size : nat) : list A :=
  py_stride row_batches rank size.

Definition all_row_batches {A} (row_batches : list A) (size : nat) : list (list A) :=
  map (λ rank, my_row_batches row_batches rank size) (seq 0 size).

(** The number of units the policy gives to worker [i]: [base + 1] for the
    first [remainder] workers, [base] for the others. *)
Definition share (N W i : nat) : nat :=
  N / W + (if decide (i < N mod W) then 1 else 0).

End TaskPartitioner.

(** ** Dense matrices (NumPy arrays of floats) *)

Abbreviation matrix := (list (list float)).

(** [np.full((n, m), np.nan)] *)
Definition full_nan (n m : nat) : matrix := replicate n (replicate m NaN).

(** [M[i, j]]; the callers only index inside the shape. *)
Definition mget (M : matrix) (i j : nat) : float := (M !!! i) !!! j.

(** [M[i, j] = v] *)
Definition mset (M : matrix) (i j : nat) (v : float) : matrix :=
  <[i := <[j := v]> (M !!! i)]> M.

(** [M.shape == (n, m)] *)
Definition has_shape (n m : nat) (M : matrix) : Prop :=
  length M = n ∧ Forall (λ row, length row = m) M.

Global Instance has_shape_dec n m M : Decision (has_shape n m M).
Proof. unfold has_shape. apply _. Defined.

(** Fancy indexing with a pair of index arrays: [M[(rows, cols)]] and
    [M[(rows, cols)] = vals]. *)
Definition gather_at (M : matrix) (idx : list (nat * nat)) : list float :=
  map (λ ij : nat * nat, mget M ij.1 ij.2) idx.

Definition scatter_at (M : matrix) (idx : list (nat * nat)) (vals : list float)
  : matrix :=
  foldl (λ (M' : matrix) (iv : nat * nat * float), mset M' iv.1.1 iv.1.2 iv.2) M (zip idx vals).

(** Boolean-mask indexing: [v[mask]] and [dst[mask] = vals]. *)
Fixpoint compress {A} (mask : list bool) (v : list A) : list A :=
  match mask, v with
  | true :: mask', x :: v' => x :: compress mask' v'
  | false :: mask', _ :: v' => compress mask' v'
  | _, _ => []
  end.

Fixpoint put_mask {A} (dst : list A) (mask : list bool) (vals : list A) : list A :=
  match dst, mask with
  | d :: dst', true :: mask' =>
      match vals with
      | x :: vals' => x :: put_mask dst' mask' vals'
      | [] => d :: put_mask dst' mask' []
      end
  | d :: dst', false :: mask' => d :: put_mask dst' mask' vals
  | _, _ => dst
  end.

(** [np.hstack(parts)] for two-dimensional parts with equal row counts. *)
Definition hstack (parts : list matrix) : matrix :=
  match parts with
  | [] => []
  | p :: ps => foldl (zip_with app) p ps
  end.

(** [np.triu_indices(n, 1)]: the cells strictly above the diagonal, row by
    row. *)
Definition triu_indices (n : nat) : list (nat * nat) :=
  i ← seq 0 n; (λ j, (i, j)) <$> seq (S i) (n - S i).

Definition swap_idx (ij : nat * nat) : nat * nat := (ij.2, ij.1).

(** ** All-vs-all Tanimoto ([AllvsAllMPIsimilaritySearch.py]) *)

Module Tanimoto.

(** [make_batches(n, batch_size)] *)
Definition make_batches (n batch_size : nat) : list (nat * nat) :=
  map (λ i, (i, min (i + batch_size) n)) (py_range 0 n batch_size).

(** The batch of [make_batches(n, bs)] that holds index [i]. *)
Definition batch_of (n bs i : nat) : nat * nat :=
  (i / bs * bs, min (i / bs * bs + bs) n).

Section scoring.
(** Fingerprint objects; the Python value [None] is [None]. *)
Variable FP : Type.
(** [DataStructs.BulkTanimotoSimilarity]: one similarity per target. *)
Variable BulkTanimotoSimilarity : option FP → list (option FP) → list float.

(** [[j for j, ok in enumerate(tvalid) if ok]] *)
Definition valid_indices (tvalid : list bool) : list nat :=
  omap (λ jo : nat * bool, if jo.2 then Some jo.1 else None) (enumerate tvalid).

(** The similarities of one valid query against the valid targets. *)
Definition sims_valid_of (qfp : option FP) (tfps_valid : list (option FP))
  : list float :=
  match tfps_valid with
  | [] => []
  | _ => BulkTanimotoSimilarity qfp tfps_valid
  end.

(** The body of the loop over the queries: one row of the block. *)
Definition block_row (tfps : list (option FP)) (t_idx_valid : list nat)
    (tfps_valid : list (option FP)) (qfp : option FP) (ok_q : bool) : list float :=
  if negb ok_q then replicate (length tfps) NaN
  else
    let sims_valid := sims_valid_of qfp tfps_valid in
    foldl (λ (row : list float) (kj : nat * nat), <[kj.2 := sims_valid !!! kj.1]> row)
          (replicate (length tfps) NaN) (enumerate t_idx_valid).

Definition compute_block (qfps : list (option FP)) (qvalid : list bool)
    (tfps : list (option FP)) (tvalid : list bool) : matrix :=
  let t_idx_valid := valid_indices tvalid in
  let tfps_valid := map (λ j, tfps !!! j) t_idx_valid in
  map (λ qo : option FP * bool, block_row tfps t_idx_valid tfps_valid qo.1 qo.2)
      (zip qfps qvalid).

(** The state every rank shares after the broadcasts of [main]. *)
Record run := {
  fps : list (option FP);
  row_batch : nat;
  col_batch : nat;
}.

Definition n_of (r : run) : nat := length (fps r).
Definition valid (r : run) : list bool := map (λ fp, bool_decide (is_Some fp)) (fps r).
Definition row_batches (r : run) := make_batches (n_of r) (row_batch r).
Definition col_batches (r : run) := make_batches (n_of r) (col_batch r).

(** The body of the loop over [my_row_batches]: the full-width block of one
    row batch. *)
Definition full_row_block (r : run) (b : nat * nat) : matrix :=
  let qfps := py_slice (fps r) b.1 b.2 in
  let qvalid := py_slice (valid r) b.1 b.2 in
  let row_block_parts :=
    map (λ c : nat * nat, compute_block qfps qvalid
                (py_slice (fps r) c.1 c.2) (py_slice (valid r) c.1 c.2))
        (col_batches r) in
  hstack row_block_parts.

(** Row [i] of the global matrix as its own row batch computes it. *)
Definition global_row (r : run) (i : nat) : list float :=
  let b := batch_of (n_of r) (row_batch r) i in
  full_row_block r b !!! (i - b.1).

(** [my_blocks] of one rank. *)
Definition my_blocks (r : run) (rank size : nat) : list (nat * matrix) :=
  map (λ b : nat * nat, (b.1, full_row_block r b))
      (TaskPartitioner.my_row_batches (row_batches r) rank size).

(** [comm.gather(my_blocks, root=0)]: the blocks of every rank, in rank
    order. *)
Definition gathered (r : run) (size : nat) : list (list (nat * matrix)) :=
  map (λ rank, my_blocks r rank size) (seq 0 size).

(** [M[rs:re, :] = block] with [re = rs + block.shape[0]].  [None] stands
    for every case in which the block does not have the shape of the
    addressed rows (NumPy then raises or broadcasts). *)
Definition place (n : nat) (M : matrix) (rs : nat) (block : matrix)
  : option matrix :=
  if decide (rs + length block ≤ length M ∧ has_shape (length block) n block)
  then Some (take rs M ++ block ++ drop (rs + length block) M)
  else None.

(** The assembly loop of rank 0, up to the symmetrisation. *)
Definition assemble (r : run) (size : nat) : option matrix :=
  let n := n_of r in
  foldl (λ (M : option matrix) (rb : nat * matrix), M ≫= λ M', place n M' rb.1 rb.2)
        (Some (full_nan n n)) (concat (gathered r size)).

End scoring.

(** The symmetrisation of rank 0 on the pair of triangles. *)
Definition both_mask (upper lower : list float) : list bool :=
  zip_with (λ u l, negb (isna u) && negb (isna l)) upper lower.
Definition only_u_mask (upper lower : list float) : list bool :=
  zip_with (λ u l, negb (isna u) && isna l) upper lower.
Definition only_l_mask (upper lower : list float) : list bool :=
  zip_with (λ u l, isna u && negb (isna l)) upper lower.

Definition sym_u_of (upper lower : list float) : list float :=
  let both := both_mask upper lower in
  let only_l := only_l_mask upper lower in
  let sym_u := upper in
  let sym_u := put_mask sym_u both
    (map (λ x, fdiv x (Fin two))
         (zip_with fadd (compress both upper) (compress both lower))) in
  put_mask sym_u only_l (compress only_l lower).

Definition sym_l_of (upper lower : list float) : list float :=
  let both := both_mask upper lower in
  let only_u := only_u_mask upper lower in
  let sym_u := put_mask upper both
    (map (λ x, fdiv x (Fin two))
         (zip_with fadd (compress both upper) (compress both lower))) in
  let sym_l := lower in
  let sym_l := put_mask sym_l both (compress both sym_u) in
  put_mask sym_l only_u (compress only_u upper).

(** The symmetrisation policy for one pair of mirrored cells: the mean when
    both are defined, the defined one when exactly one is, undefined when
    neither is. *)
Definition sym_cell (u l : float) : float :=
  match u, l with
  | Fin a, Fin b => Fin ((a + b) / two)%Qc
  | Fin a, NaN => Fin a
  | NaN, Fin b => Fin b
  | NaN, NaN => NaN
  end.

Definition symmetrize (valid : list bool) (M : matrix) : matrix :=
  let n := length M in
  let iu := triu_indices n in
  let il := swap_idx <$> iu in
  let upper := gather_at M iu in
  let lower := gather_at M il in
  let sym_u := sym_u_of upper lower in
  let sym_l := sym_l_of upper lower in
  let M := scatter_at M iu sym_u in
  let M := scatter_at M il sym_l in
  foldl (λ (M' : matrix) (i : nat),
           mset M' i i (if (valid !!! i : bool) then Fin 1%Qc else NaN)) M (seq 0 n).

End Tanimoto.

(** A small run used to exercise the assembly: fingerprints are numbers,
    the second compound has no fingerprint, and the stand-in for the bulk
    similarity scores the pair [(a, b)] as [10 a + b]. *)
Definition sample_bulk (q : option nat) (ts : list (option nat)) : list float :=
  map (λ t, match q, t with
            | Some a, Some b => Fin (Qc_of_Z (Z.of_nat (a * 10 + b)))
            | _, _ => NaN
            end) ts.

Definition sample_run : Tanimoto.run nat :=
  {| Tanimoto.fps := [Some 1; None; Some 3; Some 4; Some 5];
     Tanimoto.row_batch := 2;
     Tanimoto.col_batch := 3 |}.

(** ** Symmetric merge and assignment ([hungarianalgorithmRun.py]) *)

Module Hungarian.

(** A row of an alignment table as [read_outfmt6] leaves it: [length],
    [evalue] and [bitscore] are numbers (rows where one of them is not are
    dropped there), [pident] may be NaN.  The values of the dictionaries of
    [to_dir_dict] have the same six fields. *)
Record hit := {
  qseqid : string;
  sseqid : string;
  pident : float;
  length_ : Qc;
  evalue : Qc;
  bitscore : Qc;
}.

(** A record of [merge_symmetric]: a copy of the chosen directional record
    with the four added fields. *)
Record merged_rec := {
  chosen_hit : hit;
  score : Qc;
  pident_a2b : float;
  pident_b2a : float;
  avg_pident : float;
}.

Abbreviation pair_key := (string * string)%type.

(** The body of the loop of [to_dir_dict] for one row [r]. *)
Definition dir_step (flip : bool) (emax : option Qc) (Lmin : option Z)
    (D : gmap pair_key hit) (r : hit) : gmap pair_key hit :=
  if match Lmin with
     | Some L => bool_decide (length_ r < Qc_of_Z L)%Qc
     | None => false
     end then D
  else if match emax with
          | Some e => bool_decide (e < evalue r)%Qc
          | None => false
          end then D
  else
    let A := if flip then sseqid r else qseqid r in
    let B := if flip then qseqid r else sseqid r in
    let key := (A, B) in
    let new := {| qseqid := A; sseqid := B; bitscore := bitscore r;
                  pident := pident r; length_ := length_ r;
                  evalue := evalue r |} in
    match D !! key with
    | None => <[key := new]> D
    | Some prev =>
        if bool_decide (bitscore prev < bitscore r)%Qc then <[key := new]> D
        else D
    end.

(** [to_dir_dict(df, flip, emax, Lmin)] *)
Definition to_dir_dict (df : list hit) (flip : bool)
    (emax : option Qc) (Lmin : option Z) : gmap pair_key hit :=
  foldl (dir_step flip emax Lmin) ∅ df.

(** The record [to_dir_dict] stores under the flipped key. *)
Definition flip_hit (r : hit) : hit :=
  {| qseqid := sseqid r; sseqid := qseqid r; bitscore := bitscore r;
     pident := pident r; length_ := length_ r; evalue := evalue r |}.

(** [_avg_two(a, b)] *)
Definition _avg_two (a b : float) : float :=
  let a_ok := negb (isna a) in
  let b_ok := negb (isna b) in
  if a_ok && b_ok then fmul (Fin half) (fadd a b)
  else if a_ok then a
  else if b_ok then b
  else NaN.

(** Python's [max(x, y)] and [min(x, y)]: the first argument unless the
    second is strictly better. *)
Definition py_max (x y : Qc) : Qc := if bool_decide (x < y)%Qc then y else x.
Definition py_min (x y : Qc) : Qc := if bool_decide (y < x)%Qc then y else x.

(** The body of the loop of [merge_symmetric] for one key. *)
Definition merge_pair (how : string) (o1 o2 : option hit) : option merged_rec :=
  match o1, o2 with
  | Some v1, Some v2 =>
      let '(chosen, score) :=
        if bool_decide (how = "max"%string) then
          (if bool_decide (bitscore v2 ≤ bitscore v1)%Qc then v1 else v2,
           py_max (bitscore v1) (bitscore v2))
        else if bool_decide (how = "min"%string) then
          (if bool_decide (bitscore v1 ≤ bitscore v2)%Qc then v1 else v2,
           py_min (bitscore v1) (bitscore v2))
        else
          (if bool_decide (bitscore v2 ≤ bitscore v1)%Qc then v1 else v2,
           (half * (bitscore v1 + bitscore v2))%Qc) in
      Some {| chosen_hit := chosen; score := score;
              pident_a2b := pident v1; pident_b2a := pident v2;
              avg_pident := _avg_two (pident v1) (pident v2) |}
  | Some v1, None =>
      Some {| chosen_hit := v1; score := bitscore v1;
              pident_a2b := pident v1; pident_b2a := NaN;
              avg_pident := _avg_two (pident v1) NaN |}
  | None, Some v2 =>
      Some {| chosen_hit := v2; score := bitscore v2;
              pident_a2b := NaN; pident_b2a := pident v2;
              avg_pident := _avg_two NaN (pident v2) |}
  | None, None => None
  end.

(** [merge_symmetric(a2b, b2a, how)]: one record per key of either side. *)
Definition merge_symmetric (a2b b2a : gmap pair_key hit) (how : string)
  : gmap pair_key merged_rec :=
  merge (merge_pair how) a2b b2a.

(** [sorted(...)] on identifiers. *)
Definition sorted_ids (ids : gset string) : list string :=
  merge_sort (λ s1 s2 : string, String.leb s1 s2) (elements ids).

(** [{q: i for i, q in enumerate(queries)}] *)
Definition index_dict (ids : list string) : gmap string nat :=
  foldl (λ (d : gmap string nat) (iq : nat * string), <[iq.2 := iq.1]> d)
        ∅ (enumerate ids).

Record cost_problem := {
  queries : list string;
  targets : list string;
  score_matrix : list (list Qc);
  cost : list (list Qc);
  cell : gmap (nat * nat) merged_rec;
  max_score : Qc;
}.

(** The state of the loop of [build_cost_matrix]. *)
Record fill_state := {
  fs_score : list (list Qc);
  fs_cell : gmap (nat * nat) merged_rec;
  fs_max : Qc;
}.

Definition fill_step (qi ti : gmap string nat) (st : fill_state)
    (kr : pair_key * merged_rec) : fill_state :=
  let i := qi !!! kr.1.1 in
  let j := ti !!! kr.1.2 in
  let s := score kr.2 in
  let '(sc, ce) :=
    if bool_decide ((fs_score st !!! i) !!! j < s)%Qc
    then (<[i := <[j := s]> (fs_score st !!! i)]> (fs_score st),
          <[(i, j) := kr.2]> (fs_cell st))
    else (fs_score st, fs_cell st) in
  {| fs_score := sc; fs_cell := ce;
     fs_max := if bool_decide (fs_max st < s)%Qc then s else fs_max st |}.

(** [build_cost_matrix(merged)] *)
Definition build_cost_matrix (merged : gmap pair_key merged_rec) : cost_problem :=
  let queries := sorted_ids (set_map (λ k : pair_key, k.1) (dom merged)) in
  let targets := sorted_ids (set_map (λ k : pair_key, k.2) (dom merged)) in
  let qi := index_dict queries in
  let ti := index_dict targets in
  let n := length queries in
  let m := length targets in
  let st := foldl (fill_step qi ti)
              {| fs_score := replicate n (replicate m 0%Qc);
                 fs_cell := ∅; fs_max := 0%Qc |}
              (map_to_list merged) in
  {| queries := queries; targets := targets;
     score_matrix := fs_score st;
     cost := map (λ i, map (λ j, (fs_max st - (fs_score st !!! i) !!! j)%Qc)
                           (seq 0 m)) (seq 0 n);
     cell := fs_cell st;
     max_score := fs_max st |}.

(** The transposition in [solve_hungarian]: the list of the columns of
    [cost], as [zip] with unpacked rows gives them. *)
Definition zip_star (cost : list (list Qc)) : list (list Qc) :=
  match cost with
  | [] => []
  | row0 :: _ =>
      let w := foldr (λ row acc, min (length row) acc) (length row0) cost in
      map (λ j, map (λ row : list Qc, row !!! j) cost) (seq 0 w)
  end.

Section solver.
(** [scipy.optimize.linear_sum_assignment]: the row indices and the column
    indices of a minimum-cost assignment. *)
Variable linear_sum_assignment : list (list Qc) → list nat * list nat.

(** The matrix [solve_hungarian] hands to the solver. *)
Definition solver_input (cost : list (list Qc)) : list (list Qc) :=
  let n := length cost in
  let m := match cost with [] => 0 | row0 :: _ => length row0 end in
  if bool_decide (m < n) then zip_star cost else cost.

(** [solve_hungarian(cost, transpose_if_needed=True)] *)
Definition solve_hungarian (cost : list (list Qc)) (transpose_if_needed : bool)
  : list nat * list nat * bool :=
  let n := length cost in
  let m := match cost with [] => 0 | row0 :: _ => length row0 end in
  if transpose_if_needed && bool_decide (m < n) then
    let tcost := zip_star cost in
    let '(col_ind, row_ind) := linear_sum_assignment tcost in
    (row_ind, col_ind, true)
  else
    let '(row_ind, col_ind) := linear_sum_assignment cost in
    (row_ind, col_ind, false).

(** The loop of [main] that collects the chosen real pairs: the cell
    looked up for each solver pair, with the record found there. *)
Definition collect_chosen (n m : nat) (cell : gmap (nat * nat) merged_rec)
    (r c : list nat) (transposed : bool) : list (nat * nat * merged_rec) :=
  omap (λ ij : nat * nat,
          let '(ii, jj) := if transposed then (ij.2, ij.1) else (ij.1, ij.2) in
          if bool_decide (ii < n) && bool_decide (jj < m)
          then (λ rec, (ii, jj, rec)) <$> cell !! (ii, jj)
          else None)
       (zip r c).

(** [main] from the merged records to the list of chosen pairs. *)
Definition chosen_of_merged (merged : gmap pair_key merged_rec)
  : list (nat * nat * merged_rec) :=
  let p := build_cost_matrix merged in
  let '(r, c, transposed) := solve_hungarian (cost p) true in
  collect_chosen (length (queries p)) (length (targets p)) (cell p) r c transposed.

(** [main] from the two (collapsed) tables. *)
Definition main (A B : list hit) (how : string) (emax : option Qc) (Lmin : option Z)
  : list (nat * nat * merged_rec) :=
  let dA := to_dir_dict A false emax Lmin in
  let dB := to_dir_dict B true emax Lmin in
  chosen_of_merged (merge_symmetric dA dB how).

End solver.

End Hungarian.

(** ** A reference assignment solver

    The solver is external to the repository.  To run [main] on concrete
    inputs we use an exhaustive minimum-cost search with the output
    convention of SciPy: row indices in increasing order, and, for a matrix
    with more rows than columns, every column matched to a distinct row. *)

Module ReferenceSolver.

(** All ways to pick [n] distinct columns out of [cols], in order. *)
Fixpoint injections (n : nat) (cols : list nat) : list (list nat) :=
  match n with
  | 0 => [[]]
  | S n' => c ← cols; (λ rest, c :: rest) <$> injections n' (filter (λ c', c' ≠ c) cols)
  end.

Definition total_cost (cost : list (list Qc)) (cols : list nat) : Qc :=
  foldr (λ (ic : nat * nat) (acc : Qc), ((cost !!! ic.1) !!! ic.2 + acc)%Qc) 0%Qc
        (enumerate cols).

(** The first candidate of least total cost. *)
Definition argmin_cost (cost : list (list Qc)) (cands : list (list nat)) : list nat :=
  match cands with
  | [] => []
  | c0 :: cs =>
      foldl (λ best c,
               if bool_decide (total_cost cost c < total_cost cost best)%Qc
               then c else best) c0 cs
  end.

Definition solve_wide (cost : list (list Qc)) : list nat :=
  let n := length cost in
  let m := match cost with [] => 0 | row0 :: _ => length row0 end in
  argmin_cost cost (injections n (seq 0 m)).

Definition linear_sum_assignment (cost : list (list Qc)) : list nat * list nat :=
  let n := length cost in
  let m := match cost with [] => 0 | row0 :: _ => length row0 end in
  if bool_decide (n ≤ m) then (seq 0 n, solve_wide cost)
  else
    let rows_of_cols := solve_wide (Hungarian.zip_star cost) in
    let pairs :=
      omap (λ i, (λ kr : nat * nat, (i, kr.1)) <$> list_find (λ r, r = i) rows_of_cols)
           (seq 0 n) in
    (pairs.*1, pairs.*2).

End ReferenceSolver.

(** ** Sample merged records: three queries, two targets *)

Definition sample_hit (q t : string) (s : Z) : Hungarian.hit :=
  {| Hungarian.qseqid := q; Hungarian.sseqid := t;
     Hungarian.pident := Fin (Qc_of_Z 90); Hungarian.length_ := Qc_of_Z 100;
     Hungarian.evalue := 0%Qc; Hungarian.bitscore := Qc_of_Z s |}.

(** [q1-t0] and [q2-t1] score 10, [q0-t1] scores 1. *)
Definition sample_a2b : list Hungarian.hit :=
  [ sample_hit "q1" "t0" 10; sample_hit "q2" "t1" 10; sample_hit "q0" "t1" 1 ].

Definition sample_merged : gmap (string * string) Hungarian.merged_rec :=
  Hungarian.merge_symmetric
    (Hungarian.to_dir_dict sample_a2b false None None) ∅ "avg".

(** ** Species similarity ([processHungarianAlgoOutput.py]) *)

Module GroupAggregator.

(** The defined values of a column. *)
Definition finite_values (col : list float) : list Qc :=
  omap (λ x, match x with Fin q => Some q | NaN => None end) col.

Definition Qc_min (x y : Qc) : Qc := if bool_decide (y < x)%Qc then y else x.

(** [Series.sum()] and [Series.min()] of pandas: undefined entries are
    skipped; the sum of nothing is [0], the minimum of nothing is NaN. *)
Definition series_sum (col : list float) : float := Fin (Qc_sum (finite_values col)).

Definition series_min (col : list float) : float :=
  match finite_values col with
  | [] => NaN
  | q :: qs => Fin (foldl Qc_min q qs)
  end.

(** One assignment file of the data directory whose name reads
    [a_vs_b...]: the two species and the column [avg_pident] of its table
    ([None] when the table has no such column). *)
Record hungarian_csv := {
  species_a : string;
  species_b : string;
  avg_pident_col : option (list float);
}.

(** The value computed for one file of two different species. *)
Definition speciesSimilarity (min_matches : Z) (col : list float) : float :=
  let observed := Z.of_nat (length col) in
  if bool_decide (observed < min_matches)%Z then
    let missing := (min_matches - observed)%Z in
    fdiv (fadd (series_sum col) (fmul (Fin (Qc_of_Z missing)) (series_min col)))
         (Fin (Qc_of_Z min_matches))
  else
    fdiv (series_sum col) (Fin (Qc_of_Z min_matches)).

Abbreviation results_dict := (gmap string (gmap string float)).

(** [results.setdefault(a, {})[b] = v] *)
Definition set_result (results : results_dict) (a b : string) (v : float)
  : results_dict :=
  <[a := <[b := v]> (default ∅ (results !! a))]> results.

(** [results[a][b]], NaN when there is no such entry. *)
Definition result_at (results : results_dict) (a b : string) : float :=
  default NaN (results !! a ≫= λ row, row !! b).

(** The body of the loop over the files. *)
Definition process_file (seq_count : gmap string Z) (results : results_dict)
    (f : hungarian_csv) : results_dict :=
  let a := species_a f in
  let b := species_b f in
  if bool_decide (a = b) then set_result results a b (Fin hundred)
  else
    match seq_count !! a, seq_count !! b with
    | Some na, Some nb =>
        let min_matches := Z.min na nb in
        match avg_pident_col f with
        | None => results
        | Some col => set_result results a b (speciesSimilarity min_matches col)
        end
    | _, _ => results
    end.

Definition all_results (seq_count : gmap string Z) (files : list hungarian_csv)
  : results_dict :=
  foldl (process_file seq_count) ∅ files.

(** A labelled table of floats (a pandas [DataFrame]). *)
Record frame := {
  index : gset string;
  columns : gset string;
  values : string → string → float;
}.

(** The cell at two labels; NaN for a label the table does not have, as
    after a reindexing. *)
Definition loc (d : frame) (r c : string) : float :=
  if bool_decide (r ∈ index d ∧ c ∈ columns d) then values d r c else NaN.

(** [pd.DataFrame.from_dict(results, orient="index")] *)
Definition from_dict (results : results_dict) : frame :=
  {| index := dom results;
     columns := ⋃ ((λ kv : string * gmap string float, dom kv.2) <$> map_to_list results);
     values := result_at results |}.

(** [d.T] *)
Definition transpose (d : frame) : frame :=
  {| index := columns d; columns := index d; values := λ r c, values d c r |}.

(** [d.combine_first(e)] *)
Definition combine_first (d e : frame) : frame :=
  {| index := index d ∪ index e;
     columns := columns d ∪ columns e;
     values := λ r c, if isna (loc d r c) then loc e r c else loc d r c |}.

(** [for sp in d.index: d.loc[sp, sp] = 100.0] *)
Definition set_diagonal (d : frame) : frame :=
  {| index := index d;
     columns := columns d ∪ index d;
     values := λ r c, if bool_decide (r = c ∧ r ∈ index d) then Fin hundred
                      else loc d r c |}.

(** The matrix written to [species_similarity_matrix.csv]. *)
Definition similarity_matrix (results : results_dict) : frame :=
  let m := from_dict results in
  set_diagonal (combine_first m (transpose m)).

Definition script (seq_count : gmap string Z) (files : list hungarian_csv) : frame :=
  similarity_matrix (all_results seq_count files).

End GroupAggregator.

(** ** Sample inputs of the aggregation *)

Definition csv_of (a b : string) (pidents : list Z) : GroupAggregator.hungarian_csv :=
  {| GroupAggregator.species_a := a; GroupAggregator.species_b := b;
     GroupAggregator.avg_pident_col := Some ((λ z, Fin (Qc_of_Z z)) <$> pidents) |}.

(** Three sequences in species [A], two in species [B]. *)
Definition sample_counts : gmap string Z := {[ "A"%string := 3%Z; "B"%string := 2%Z ]}.

(** Two species of two sequences each. *)
Definition even_counts : gmap string Z := {[ "A"%string := 2%Z; "B"%string := 2%Z ]}.

(** Results with one orientation of the pair [A], [B] only. *)
Definition one_sided_results : gmap string (gmap string float) :=
  {[ "A"%string := {[ "B"%string := Fin (Qc_of_Z 80) ]} ]}.

From Stdlib Require Import Lqa Ascii.

(** ** More of [AllvsAllMPIsimilaritySearch.py] *)

(** A three by three matrix with undefined cells, and the validity flags of
    its entities. *)
Definition sample_matrix : matrix :=
  [ [Fin (Q2Qc (1 # 2)); NaN; Fin (Q2Qc (1 # 4))];
    [Fin (Q2Qc (3 # 10)); NaN; NaN];
    [Fin (Q2Qc (3 # 4)); NaN; Fin 0%Qc] ].

Definition sample_valid : list bool := [true; false; true].

Module TanimotoOutput.

(** The rows of the optional pairs file written by rank 0: for every [i],
    the cells [(i, k)] right of the diagonal that are defined and reach the
    threshold, left to right; a row of [M] that is undefined right of the
    diagonal is skipped.  A row of the file is kept as the two indices and
    the similarity (the names and the formatting are left out). *)
Definition pairs_of_row (M : matrix) (thresh : Qc) (i : nat)
  : list (nat * nat * float) :=
  let row := drop (i + 1) (M !!! i) in
  if forallb isna row then []
  else
    omap (λ ks : nat * float,
            match ks.2 with
            | Fin s => if bool_decide (thresh ≤ s)%Qc then Some (i, ks.1, ks.2)
                       else None
            | NaN => None
            end)
         (zip (seq (i + 1) (length row)) row).

Definition pairs_rows (M : matrix) (n : nat) (thresh : Qc)
  : list (nat * nat * float) :=
  i ← seq 0 n; pairs_of_row M thresh i.

End TanimotoOutput.

(** The similarity of the entities [i] and [j] of a run, for a scorer [sim]
    of two fingerprints: undefined as soon as one of the two has no
    fingerprint. *)
Definition all_pairs_cell {FP} (sim : option FP → option FP → float)
    (r : Tanimoto.run FP) (i j : nat) : float :=
  if (Tanimoto.valid FP r !!! i) && (Tanimoto.valid FP r !!! j)
  then sim (Tanimoto.fps FP r !!! i) (Tanimoto.fps FP r !!! j)
  else NaN.

(** The stand-in scorer of [sample_bulk] on two fingerprints. *)
Definition sample_sim (q t : option nat) : float :=
  match q, t with
  | Some a, Some b => Fin (Qc_of_Z (Z.of_nat (a * 10 + b)))
  | _, _ => NaN
  end.

(** ** More of [hungarianalgorithmRun.py] *)

Module HungarianFacts.

(** The two threshold tests at the head of the loop of [to_dir_dict]: the
    row is kept. *)
Definition passes (emax : option Qc) (Lmin : option Z) (r : Hungarian.hit) : bool :=
  negb (match Lmin with
        | Some L => bool_decide (Hungarian.length_ r < Qc_of_Z L)%Qc
        | None => false
        end) &&
  negb (match emax with
        | Some e => bool_decide (e < Hungarian.evalue r)%Qc
        | None => false
        end).

(** The key under which [to_dir_dict] files a row, and the record it
    stores. *)
Definition dir_key (flip : bool) (r : Hungarian.hit) : string * string :=
  if flip then (Hungarian.sseqid r, Hungarian.qseqid r)
  else (Hungarian.qseqid r, Hungarian.sseqid r).

Definition dir_value (flip : bool) (r : Hungarian.hit) : Hungarian.hit :=
  if flip then Hungarian.flip_hit r
  else {| Hungarian.qseqid := Hungarian.qseqid r;
          Hungarian.sseqid := Hungarian.sseqid r;
          Hungarian.bitscore := Hungarian.bitscore r;
          Hungarian.pident := Hungarian.pident r;
          Hungarian.length_ := Hungarian.length_ r;
          Hungarian.evalue := Hungarian.evalue r |}.

(** The cell of the score matrix a merged record is filed under in the loop
    of [build_cost_matrix], and the score read at a cell. *)
Definition cell_index (qi ti : gmap string nat)
    (kr : (string * string) * Hungarian.merged_rec) : nat * nat :=
  (qi !!! kr.1.1, ti !!! kr.1.2).

Definition score_at (sc : list (list Qc)) (ij : nat * nat) : Qc :=
  (sc !!! ij.1) !!! ij.2.

(** The score matrix of a fill state has [n] rows of [m] entries. *)
Definition fill_shape (n m : nat) (st : Hungarian.fill_state) : Prop :=
  length (Hungarian.fs_score st) = n ∧
  Forall (λ row, length row = m) (Hungarian.fs_score st).

(** The record [build_cost_matrix] keeps for a pair: the merged record of
    the pair when its score is positive, nothing otherwise. *)
Definition stored (o : option Hungarian.merged_rec) : option Hungarian.merged_rec :=
  rec ← o; if decide (0 < Hungarian.score rec)%Qc then Some rec else None.

(** What [to_dir_dict] holds for a key after the rows [df]: nothing when
    no row of the key passes the thresholds, and otherwise the first passing
    row of the key among those of greatest bitscore. *)
Definition best_entry (flip : bool) (emax : option Qc) (Lmin : option Z)
    (df : list Hungarian.hit) (k : string * string) (o : option Hungarian.hit)
  : Prop :=
  match o with
  | None => ∀ r, r ∈ df → passes emax Lmin r = true → dir_key flip r ≠ k
  | Some rec =>
      ∃ l1 r l2, df = l1 ++ r :: l2 ∧
        passes emax Lmin r = true ∧ dir_key flip r = k ∧ rec = dir_value flip r ∧
        (∀ r', r' ∈ l1 → passes emax Lmin r' = true → dir_key flip r' = k →
               (Hungarian.bitscore r' < Hungarian.bitscore r)%Qc) ∧
        (∀ r', r' ∈ l2 → passes emax Lmin r' = true → dir_key flip r' = k →
               (Hungarian.bitscore r' ≤ Hungarian.bitscore r)%Qc)
  end.

End HungarianFacts.

(** ** Collapsing a table ([collapse_max_bitscore]) *)

Module HungarianTables.

(** The group key of a row: its two identifiers. *)
Definition hit_key (r : Hungarian.hit) : string * string :=
  (Hungarian.qseqid r, Hungarian.sseqid r).

(** [groupby([qseqid, sseqid])[bitscore].idxmax()] for the group [k]: the
    first row of the group among those of greatest bitscore. *)
Definition idxmax_step (k : string * string) (best : option Hungarian.hit)
    (r : Hungarian.hit) : option Hungarian.hit :=
  if bool_decide (hit_key r = k) then
    match best with
    | None => Some r
    | Some b =>
        if bool_decide (Hungarian.bitscore b < Hungarian.bitscore r)%Qc
        then Some r else Some b
    end
  else best.

Definition idxmax (df : list Hungarian.hit) (k : string * string)
  : option Hungarian.hit :=
  foldl (idxmax_step k) None df.

(** The order of the group keys: by the first identifier, then by the
    second. *)
Definition pair_leb (k1 k2 : string * string) : bool :=
  match String.compare k1.1 k2.1 with
  | Lt => true
  | Gt => false
  | Eq => String.leb k1.2 k2.2
  end.

(** The groups, in the order [groupby] lists them. *)
Definition group_keys (df : list Hungarian.hit) : list (string * string) :=
  merge_sort (λ k1 k2, pair_leb k1 k2) (remove_dups (hit_key <$> df)).

(** [collapse_max_bitscore(df)] *)
Definition collapse_max_bitscore (df : list Hungarian.hit) : list Hungarian.hit :=
  match df with
  | [] => df
  | _ => omap (idxmax df) (group_keys df)
  end.

(** The key of the input table a key of [to_dir_dict] comes from. *)
Definition unflip (flip : bool) (k : string * string) : string * string :=
  if flip then (k.2, k.1) else k.

End HungarianTables.

(** ** The values the assignment files contribute *)

Module AggregatorFacts.




End AggregatorFacts.

(** ** Species names ([diamond_blastp_mpi.py]) *)

Module DiamondTasks.

(** [s.split(' ')]: the pieces between single spaces; an empty string has
    the one empty piece, and two spaces in a row enclose an empty piece. *)
Fixpoint split_space (s : string) : list string :=
  match s with
  | EmptyString => [EmptyString]
  | String c s' =>
      if Ascii.eqb c " "%char then EmptyString :: split_space s'
      else match split_space s' with
           | w :: ws => String c w :: ws
           | [] => [String c EmptyString]
           end
  end.

(** [" ".join(ws)] *)
Fixpoint join_space (ws : list string) : string :=
  match ws with
  | [] => EmptyString
  | [w] => w
  | w :: ws' => w +:+ String " "%char (join_space ws')
  end.

(** The function applied to every cell: [" ".join(x.split(' ')[:2])]. *)
Definition first_two_words (x : string) : string :=
  join_space (take 2 (split_space x)).

(** [Species(data, ColumnID)], for the column of that name when the table
    has one, already converted to strings, and the number of rows of the
    table. *)
Definition Species (column : option (list string)) (nrows : nat)
  : list (option string) :=
  match column with
  | Some col => (λ x, Some (first_two_words x)) <$> col
  | None => replicate nrows None
  end.

(** No space occurs in [w]. *)
Fixpoint space_free (w : string) : bool :=
  match w with
  | EmptyString => true
  | String c w' => negb (Ascii.eqb c " "%char) && space_free w'
  end.

End DiamondTasks.

(** Two hits of [q1] on [t0] and one of [q2] on [t0]; the second hit of
    [q1] scores more but is too short for a minimal length of 30. *)
Definition sample_hit_long : Hungarian.hit :=
  {| Hungarian.qseqid := "q1"; Hungarian.sseqid := "t0";
     Hungarian.pident := Fin (Qc_of_Z 90); Hungarian.length_ := Qc_of_Z 100;
     Hungarian.evalue := 0%Qc; Hungarian.bitscore := Qc_of_Z 50 |}.

Definition sample_hit_short : Hungarian.hit :=
  {| Hungarian.qseqid := "q1"; Hungarian.sseqid := "t0";
     Hungarian.pident := Fin (Qc_of_Z 95); Hungarian.length_ := Qc_of_Z 20;
     Hungarian.evalue := 0%Qc; Hungarian.bitscore := Qc_of_Z 80 |}.

Definition sample_hit_other : Hungarian.hit :=
  {| Hungarian.qseqid := "q2"; Hungarian.sseqid := "t0";
     Hungarian.pident := NaN; Hungarian.length_ := Qc_of_Z 60;
     Hungarian.evalue := 0%Qc; Hungarian.bitscore := Qc_of_Z 40 |}.

Definition sample_table : list Hungarian.hit :=
  [sample_hit_long; sample_hit_short; sample_hit_other].

(** A cost matrix of three rows and two columns. *)
Definition sample_cost : list (list Qc) :=
  [ [Qc_of_Z 1; Qc_of_Z 2]; [Qc_of_Z 3; Qc_of_Z 4]; [Qc_of_Z 5; Qc_of_Z 6] ].
(** * Proofs *)

(** ** Rationals *)

Lemma half_double (x : Qc) : ((x + x) / two)%Qc = x.
Proof.
  apply Qc_is_canon. unfold two, Qcdiv, Qcmult, Qcplus, Qcinv. simpl.
  rewrite !Qred_correct. field.
Qed.

(** ** Facts about ranges and slices *)

Lemma elem_of_enumerate {A} (l : list A) i x :
  (i, x) ∈ enumerate l ↔ l !! i = Some x.
Proof.
  unfold enumerate. rewrite list_elem_of_lookup. split.
  - intros (k & Hk). apply lookup_zip_with_Some in Hk as (i' & x' & Heq & Hi & Hx).
    simplify_eq. apply lookup_seq in Hi as [-> _]. done.
  - intros Hx. exists i. apply lookup_zip_with_Some. exists i, x.
    split; [done|]. split; [|done]. apply lookup_seq.
    split; [done|]. by eapply lookup_lt_Some.
Qed.

Lemma py_range_length start stop step :
  length (py_range start stop step) = (stop - start + step - 1) / step.
Proof. unfold py_range. by rewrite length_map, length_seq. Qed.

Lemma py_range_lookup start stop step p :
  py_range start stop step !! p =
    if decide (p < (stop - start + step - 1) / step) then Some (start + p * step)
    else None.
Proof.
  unfold py_range. rewrite list_lookup_fmap. case_decide as Hp.
  - by rewrite lookup_seq_lt.
  - by rewrite lookup_seq_ge by lia.
Qed.

Lemma py_range_count_lt start stop step p :
  0 < step →
  p < (stop - start + step - 1) / step ↔ start + p * step < stop.
Proof.
  intros Hstep.
  pose proof (Nat.div_mod_eq (stop - start + step - 1) step) as Hdm.
  pose proof (Nat.mod_upper_bound (stop - start + step - 1) step) as Hub.
  set (q := (stop - start + step - 1) / step) in *.
  set (r := (stop - start + step - 1) mod step) in *.
  split; intros H; nia.
Qed.

Lemma elem_of_py_range start stop step k :
  0 < step →
  k ∈ py_range start stop step ↔
    start ≤ k < stop ∧ (k - start) mod step = 0.
Proof.
  intros Hstep. rewrite list_elem_of_lookup. split.
  - intros [p Hp]. rewrite py_range_lookup in Hp. case_decide as Hlt; [|done].
    injection Hp as <-. apply py_range_count_lt in Hlt; [|done].
    split; [lia|].
    replace (start + p * step - start) with (p * step) by lia.
    by apply Nat.Div0.mod_mul.
  - intros [[Hle Hlt] Hmod]. exists ((k - start) / step).
    rewrite py_range_lookup.
    assert (start + (k - start) / step * step = k) as Hk.
    { pose proof (Nat.div_mod_eq (k - start) step). lia. }
    rewrite decide_True; [by rewrite Hk|].
    apply py_range_count_lt; [done|]. by rewrite Hk.
Qed.

Lemma py_range_NoDup start stop step :
  0 < step → NoDup (py_range start stop step).
Proof.
  intros Hstep. unfold py_range. apply NoDup_fmap_2; [|apply NoDup_seq].
  intros a b Hab. nia.
Qed.

Section slice_facts.
Context {A : Type}.
Implicit Types l : list A.

Lemma omap_lookup_total l (ks : list nat) :
  (∀ k, k ∈ ks → k < length l) →
  length (omap (λ k, l !! k) ks) = length ks ∧
  ∀ p, omap (λ k, l !! k) ks !! p = ks !! p ≫= (λ k, l !! k).
Proof.
  induction ks as [|k ks IH]; intros Hks; [done|].
  simpl. destruct (lookup_lt_is_Some_2 l k) as [x Hx].
  { apply Hks. by left. }
  rewrite Hx. destruct IH as [IH1 IH2].
  { intros k' Hk'. apply Hks. by right. }
  split; [simpl; by f_equal|].
  intros [|p]; simpl; [by rewrite Hx|apply IH2].
Qed.

Lemma py_stride_lookup l start step p :
  0 < step →
  py_stride l start step !! p =
    if decide (start + p * step < length l) then l !! (start + p * step)
    else None.
Proof.
  intros Hstep. unfold py_stride.
  destruct (omap_lookup_total l (py_range start (length l) step)) as [_ ->].
  { intros k Hk. apply elem_of_py_range in Hk; [lia|done]. }
  rewrite py_range_lookup. case_decide as H1; case_decide as H2; simpl; try done.
  - apply py_range_count_lt in H1; [lia|done].
  - exfalso. apply H1. by apply py_range_count_lt.
Qed.

Lemma py_stride_length l start step :
  0 < step →
  length (py_stride l start step) = (length l - start + step - 1) / step.
Proof.
  intros Hstep. unfold py_stride. rewrite <- py_range_length.
  apply omap_lookup_total. intros k Hk. apply elem_of_py_range in Hk; lia.
Qed.

Lemma omap_lookup_seq l : omap (λ k, l !! k) (seq 0 (length l)) = l.
Proof.
  apply list_eq. intros p.
  destruct (omap_lookup_total l (seq 0 (length l))) as [_ ->].
  { intros k Hk. apply elem_of_seq in Hk. lia. }
  destruct (decide (p < length l)) as [Hp|Hp].
  - by rewrite lookup_seq_lt.
  - rewrite lookup_seq_ge by lia. simpl. symmetry. apply lookup_ge_None. lia.
Qed.

Lemma py_slice_length l s e :
  e ≤ length l → length (py_slice l s e) = e - s.
Proof. intros He. unfold py_slice. rewrite length_take, length_drop. lia. Qed.

End slice_facts.

(** ** TaskPartitioner: contiguous mode *)

Section contiguous_facts.
Context {A : Type}.
Implicit Types l : list A.
Import TaskPartitioner.

Lemma counts_d_length N W : length (counts_d N W) = W.
Proof. unfold counts_d. by rewrite length_map, length_seq. Qed.

Lemma counts_d_lookup N W i :
  i < W → counts_d N W !! i = Some (share N W i).
Proof.
  intros Hi. unfold counts_d, share. rewrite list_lookup_fmap, lookup_seq_lt by done.
  simpl. case_decide; f_equal; lia.
Qed.

Lemma sum_list_step_counts (a r n : nat) :
  sum_list (map (λ i, if decide (i < r) then a + 1 else a) (seq 0 n))
  = n * a + min r n.
Proof.
  induction n as [|n IH]; [simpl; lia|].
  rewrite seq_S, map_app, sum_list_with_app, IH. simpl. case_decide; lia.
Qed.

Lemma counts_d_sum N W : 0 < W → sum_list (counts_d N W) = N.
Proof.
  intros HW. unfold counts_d. rewrite sum_list_step_counts.
  pose proof (Nat.div_mod_eq N W). pose proof (Nat.mod_upper_bound N W). lia.
Qed.

Lemma displs_d_lookup counts W i :
  i < W → displs_d counts W !! i = Some (sum_list (take i counts)).
Proof.
  intros Hi. unfold displs_d. by rewrite list_lookup_fmap, lookup_seq_lt.
Qed.

Lemma task_slices_d_lookup l W i :
  i < W →
  task_slices_d l W !! i
  = Some (take (share (length l) W i)
               (drop (sum_list (take i (counts_d (length l) W))) l)).
Proof.
  intros Hi. unfold task_slices_d. rewrite list_lookup_fmap, lookup_seq_lt by done.
  simpl. f_equal.
  rewrite (list_lookup_total_correct _ _ _ (displs_d_lookup _ W i Hi)).
  rewrite (list_lookup_total_correct _ _ _ (counts_d_lookup _ W i Hi)).
  unfold py_slice. f_equal. lia.
Qed.

(** Cutting [l] at the running sums of [cs] and gluing the pieces back gives
    the prefix of [l] of length [sum cs]. *)
Lemma concat_running_slices (cs : list nat) l :
  concat (map (λ i, take (cs !!! i) (drop (sum_list (take i cs)) l))
              (seq 0 (length cs)))
  = take (sum_list cs) l.
Proof.
  revert l. induction cs as [|c cs IH]; intros l; [by rewrite take_0|].
  simpl length. rewrite <- cons_seq, <- fmap_S_seq. simpl.
  rewrite <- take_take_drop. f_equal.
  rewrite <- IH, <- list_fmap_compose. f_equal.
  apply list_fmap_ext. intros _ i _. simpl.
  by rewrite drop_drop.
Qed.

Lemma task_slices_d_concat l W :
  0 < W → concat (task_slices_d l W) = l.
Proof.
  intros HW.
  pose proof (concat_running_slices (counts_d (length l) W) l) as Hc.
  rewrite counts_d_length, counts_d_sum, firstn_all in Hc by done.
  rewrite <- Hc at 2. f_equal.
  apply list_eq. intros i. destruct (decide (i < W)) as [Hi|Hi].
  - rewrite task_slices_d_lookup, list_lookup_fmap, lookup_seq_lt by done.
    simpl. by rewrite (list_lookup_total_correct _ _ _ (counts_d_lookup _ W i Hi)).
  - rewrite !lookup_ge_None_2; [done| |].
    + rewrite length_map, length_seq. lia.
    + unfold task_slices_d. rewrite length_map, length_seq. lia.
Qed.

Lemma task_slices_d_sizes l W i :
  0 < W → i < W →
  length <$> task_slices_d l W !! i = Some (share (length l) W i).
Proof.
  intros HW Hi. rewrite task_slices_d_lookup by done. simpl. f_equal.
  rewrite length_take, length_drop.
  pose proof (counts_d_sum (length l) W HW) as Hsum.
  rewrite <- (take_drop i (counts_d (length l) W)) in Hsum.
  rewrite sum_list_with_app in Hsum.
  rewrite (drop_S _ _ _ (counts_d_lookup (length l) W i Hi)) in Hsum.
  simpl in Hsum. lia.
Qed.

End contiguous_facts.

(** ** TaskPartitioner: round-robin mode *)

Lemma stride_share N W r :
  0 < W → r < W → (N - r + W - 1) / W = TaskPartitioner.share N W r.
Proof.
  intros HW Hr. unfold TaskPartitioner.share.
  pose proof (Nat.div_mod_eq N W) as HN.
  pose proof (Nat.mod_upper_bound N W) as HNub.
  set (q := N / W) in *. set (m := N mod W) in *.
  case_decide as Hrm.
  - symmetry. apply (Nat.div_unique _ _ _ (m - r - 1)); [lia|nia].
  - destruct (decide (N < r)) as [Hlt|Hge].
    + assert (q = 0) as -> by nia.
      replace (N - r) with 0 by lia. rewrite Nat.div_small; lia.
    + symmetry. rewrite Nat.add_0_r.
      apply (Nat.div_unique _ _ _ (W - 1 - (r - m))); [lia|nia].
Qed.

Lemma elem_of_concat {A} (x : A) (ls : list (list A)) :
  x ∈ concat ls ↔ ∃ l, x ∈ l ∧ l ∈ ls.
Proof.
  induction ls as [|l ls IH]; simpl.
  - split; [by intros ?%elem_of_nil|by intros (? & _ & ?%elem_of_nil)].
  - rewrite elem_of_app, IH. split.
    + intros [?|(l' & ? & ?)]; [exists l; split; [done|by left]|].
      exists l'. split; [done|by right].
    + intros (l' & Hx & [->|?]%elem_of_cons); [by left|]. right. by exists l'.
Qed.

Lemma strided_ranges_NoDup N W (rs : list nat) :
  0 < W → NoDup rs → (∀ r, r ∈ rs → r < W) →
  NoDup (concat (map (λ r, py_range r N W) rs)).
Proof.
  intros HW Hnd Hrs. induction Hnd as [|r rs Hr Hnd IH]; [constructor|].
  simpl. apply NoDup_app. split; [by apply py_range_NoDup|]. split.
  - intros k Hk Hk'. apply elem_of_concat in Hk' as (ks & Hk' & Hks).
    apply list_elem_of_fmap in Hks as (r' & -> & Hr').
    apply elem_of_py_range in Hk as [[? ?] Hm]; [|done].
    apply elem_of_py_range in Hk' as [[? ?] Hm']; [|done].
    assert (r' < W) by (apply Hrs; by right).
    assert (r < W) by (apply Hrs; by left).
    assert (r = r'); [|by subst].
    apply Nat.Lcm0.mod_divide in Hm as [a Ha], Hm' as [b Hb].
    assert (a = b) by nia. subst. lia.
  - apply IH. intros r' Hr'. apply Hrs. by right.
Qed.

Lemma strided_ranges_Permutation N W :
  0 < W → concat (map (λ r, py_range r N W) (seq 0 W)) ≡ₚ seq 0 N.
Proof.
  intros HW. apply NoDup_Permutation.
  - apply strided_ranges_NoDup; [done|apply NoDup_seq|].
    intros r Hr. apply elem_of_seq in Hr. lia.
  - apply NoDup_seq.
  - intros k. rewrite elem_of_concat, elem_of_seq. split.
    + intros (ks & Hk & Hks). apply list_elem_of_fmap in Hks as (r & -> & Hr).
      apply elem_of_py_range in Hk; [lia|done].
    + intros [_ Hk]. exists (py_range (k mod W) N W). split.
      * apply elem_of_py_range; [done|].
        pose proof (Nat.div_mod_eq k W). pose proof (Nat.mod_upper_bound k W).
        split; [lia|].
        replace (k - k mod W) with ((k / W) * W) by lia.
        apply Nat.Div0.mod_mul.
      * apply list_elem_of_fmap. exists (k mod W). split; [done|].
        apply elem_of_seq. pose proof (Nat.mod_upper_bound k W). lia.
Qed.

Section round_robin_facts.
Context {A : Type}.
Implicit Types l : list A.
Import TaskPartitioner.

Lemma omap_concat_fmap {B C} (g : B → option C) (f : nat → list B) (rs : list nat) :
  concat (map (λ r, omap g (f r)) rs) = omap g (concat (map f rs)).
Proof.
  induction rs as [|r rs IH]; [done|]. simpl. by rewrite omap_app, IH.
Qed.

Lemma all_row_batches_Permutation l W :
  0 < W → concat (all_row_batches l W) ≡ₚ l.
Proof.
  intros HW. unfold all_row_batches, my_row_batches, py_stride.
  rewrite (omap_concat_fmap (λ k, l !! k) (λ r, py_range r (length l) W)).
  rewrite strided_ranges_Permutation by done.
  by rewrite omap_lookup_seq.
Qed.

Lemma my_row_batches_length l W r :
  0 < W → r < W → length (my_row_batches l r W) = share (length l) W r.
Proof.
  intros HW Hr. unfold my_row_batches.
  rewrite py_stride_length by done. by apply stride_share.
Qed.

End round_robin_facts.

Lemma share_balanced N W i j :
  TaskPartitioner.share N W i ≤ TaskPartitioner.share N W j + 1.
Proof. unfold TaskPartitioner.share. repeat case_decide; lia. Qed.

(** C8.  For every task list of [N] units and every worker count [W >= 1]:
    the contiguous split of [diamond_blastp_mpi.py] yields [W] slices, slice
    [i] has [N div W + 1] units when [i < N mod W] and [N div W] otherwise
    (so sizes differ by at most one and sum to [N]), and the slices
    concatenated in rank order are the original list; the round-robin split
    [row_batches[rank::size]] gives rank [r] the units at positions
    [r, r+W, r+2W, ...], its slices have the same sizes, and together they
    are a permutation of the original list: nothing is dropped or
    duplicated under either policy. *)
Theorem C8_task_partitioner {A} (tasks : list A) (W : nat) :
  1 ≤ W →
  let N := length tasks in
  let slices := TaskPartitioner.task_slices_d tasks W in
  let rr := TaskPartitioner.all_row_batches tasks W in
  (* contiguous mode *)
  length slices = W ∧
  (∀ i, i < W →
     length <$> slices !! i = Some (N / W + (if decide (i < N mod W) then 1 else 0))) ∧
  (∀ i j s t, slices !! i = Some s → slices !! j = Some t →
     length s ≤ length t + 1) ∧
  sum_list (length <$> slices) = N ∧
  concat slices = tasks ∧
  (* round-robin mode *)
  length rr = W ∧
  (∀ r, r < W →
     length <$> rr !! r = Some (N / W + (if decide (r < N mod W) then 1 else 0))) ∧
  (∀ r p, r < W →
     TaskPartitioner.my_row_batches tasks r W !! p
     = if decide (r + p * W < N) then tasks !! (r + p * W) else None) ∧
  (∀ k, k < N → ∀ r p, r < W →
     r + p * W = k ↔ r = k mod W ∧ p = k / W) ∧
  sum_list (length <$> rr) = N ∧
  concat rr ≡ₚ tasks.
Proof.
  intros HW N slices rr.
  assert (length slices = W) as Hlen.
  { unfold slices, TaskPartitioner.task_slices_d. by rewrite length_map, length_seq. }
  assert (length rr = W) as Hlen'.
  { unfold rr, TaskPartitioner.all_row_batches. by rewrite length_map, length_seq. }
  assert (∀ r, r < W →
    rr !! r = Some (TaskPartitioner.my_row_batches tasks r W)) as Hrr.
  { intros r Hr. unfold rr, TaskPartitioner.all_row_batches.
    by rewrite list_lookup_fmap, lookup_seq_lt. }
  assert (∀ ls : list (list A), sum_list (length <$> ls) = length (concat ls)) as Hsum.
  { clear. induction ls as [|x ls IH]; [done|].
    simpl. rewrite length_app. f_equal. exact IH. }
  split_and!; try done.
  - intros i Hi. apply task_slices_d_sizes; lia.
  - intros i j s t Hs Ht.
    pose proof (lookup_lt_Some _ _ _ Hs) as Hi. pose proof (lookup_lt_Some _ _ _ Ht) as Hj.
    rewrite Hlen in Hi, Hj.
    pose proof (task_slices_d_sizes tasks W i HW Hi) as Hsi.
    pose proof (task_slices_d_sizes tasks W j HW Hj) as Hsj.
    fold slices in Hsi, Hsj. rewrite Hs in Hsi. rewrite Ht in Hsj.
    simpl in Hsi, Hsj. injection Hsi as ->. injection Hsj as ->.
    apply share_balanced.
  - rewrite Hsum. unfold slices. by rewrite task_slices_d_concat.
  - by apply task_slices_d_concat.
  - intros r Hr. rewrite Hrr by done. simpl. f_equal.
    by apply my_row_batches_length.
  - intros r p Hr. apply py_stride_lookup. lia.
  - intros k Hk r p Hr.
    pose proof (Nat.div_mod_eq k W). pose proof (Nat.mod_upper_bound k W).
    split.
    + intros <-. rewrite Nat.Div0.mod_add, Nat.div_add by lia.
      rewrite Nat.mod_small, Nat.div_small by lia. lia.
    + intros [-> ->]. lia.
  - rewrite Hsum. apply Permutation_length. by apply all_row_batches_Permutation.
  - by apply all_row_batches_Permutation.
Qed.

Lemma C8_task_partitioner_witness :
  1 ≤ 3 ∧
  TaskPartitioner.task_slices_d [10; 11; 12; 13; 14; 15; 16; 17] 3
    = [[10; 11; 12]; [13; 14; 15]; [16; 17]] ∧
  TaskPartitioner.all_row_batches [10; 11; 12; 13; 14; 15; 16; 17] 3
    = [[10; 13; 16]; [11; 14; 17]; [12; 15]] ∧
  concat (TaskPartitioner.task_slices_d [10; 11; 12; 13; 14; 15; 16; 17] 3)
    = [10; 11; 12; 13; 14; 15; 16; 17].
Proof.
  split; [lia|]. split; [reflexivity|]. split; [reflexivity|].
  apply (C8_task_partitioner [10; 11; 12; 13; 14; 15; 16; 17] 3). lia.
Defined.

(** ** Matrices *)

Lemma has_shape_lookup n m (M : matrix) i :
  has_shape n m M → i < n → length (M !!! i) = m.
Proof.
  intros [Hn Hrows] Hi.
  apply (Forall_lookup_total_1 (λ row, length row = m)); [done|lia].
Qed.

Lemma mset_shape n m (M : matrix) i j v :
  has_shape n m M → has_shape n m (mset M i j v).
Proof.
  intros [Hn Hrows]. split; unfold mset.
  - by rewrite length_insert.
  - destruct (decide (i < length M)) as [Hi|Hi].
    + apply Forall_insert; [done|]. rewrite length_insert.
      apply (Forall_lookup_total_1 (λ row, length row = m)); done.
    + by rewrite list_insert_ge by lia.
Qed.

Lemma mget_mset n m (M : matrix) i j v a b :
  has_shape n m M → i < n → j < m →
  mget (mset M i j v) a b = if decide (a = i ∧ b = j) then v else mget M a b.
Proof.
  intros HM Hi Hj. pose proof (has_shape_lookup n m M i HM Hi) as Hrow.
  destruct HM as [Hn _]. unfold mget, mset.
  rewrite list_lookup_total_insert.
  destruct (decide (a = i)) as [->|Hai].
  - rewrite decide_True by (split; [done|lia]). rewrite list_lookup_total_insert.
    destruct (decide (b = j)) as [->|Hbj].
    + rewrite decide_True by (split; [done|lia]). by rewrite decide_True.
    + rewrite decide_False by (intros [? _]; congruence).
      rewrite decide_False; [done|]. intros [_ ?]; congruence.
  - rewrite !decide_False; [done|intros [? _]; congruence..].
Qed.

Lemma matrix_ext n m (M1 M2 : matrix) :
  has_shape n m M1 → has_shape n m M2 →
  (∀ a b, a < n → b < m → mget M1 a b = mget M2 a b) → M1 = M2.
Proof.
  intros [Hn1 Hr1] [Hn2 Hr2] Hcells.
  apply (list_eq_same_length _ _ n); [done..|].
  intros a r1 r2 Ha H1 H2.
  pose proof (Forall_lookup_1 _ _ _ _ Hr1 H1) as Hl1.
  pose proof (Forall_lookup_1 _ _ _ _ Hr2 H2) as Hl2.
  simpl in Hl1, Hl2.
  apply (list_eq_same_length _ _ m); [done..|].
  intros b x y Hb Hx Hy. specialize (Hcells a b Ha Hb). unfold mget in Hcells.
  rewrite (list_lookup_total_correct _ _ _ H1) in Hcells.
  rewrite (list_lookup_total_correct _ _ _ H2) in Hcells.
  rewrite (list_lookup_total_correct _ _ _ Hx) in Hcells.
  by rewrite (list_lookup_total_correct _ _ _ Hy) in Hcells.
Qed.

Lemma scatter_at_shape n m (M : matrix) idx vals :
  has_shape n m M → has_shape n m (scatter_at M idx vals).
Proof.
  unfold scatter_at. generalize (zip idx vals) as ivs.
  intros ivs. revert M. induction ivs as [|iv ivs IH]; intros M HM; [done|].
  simpl. apply IH. by apply mset_shape.
Qed.

(** Writing, at each listed index, a value computed from that index. *)
Lemma mget_scatter_at n m (M : matrix) idx (g : nat * nat → float) a b :
  has_shape n m M →
  (∀ ij, ij ∈ idx → ij.1 < n ∧ ij.2 < m) →
  mget (scatter_at M idx (g <$> idx)) a b
  = if decide ((a, b) ∈ idx) then g (a, b) else mget M a b.
Proof.
  revert M. induction idx as [|[i j] idx IH]; intros M HM Hidx.
  { done. }
  change (scatter_at M ((i, j) :: idx) (g <$> (i, j) :: idx))
    with (scatter_at (mset M i j (g (i, j))) idx (g <$> idx)).
  rewrite (IH (mset M i j (g (i, j)))).
  - destruct (Hidx (i, j)) as [Hi Hj]; [by left|]. simpl in Hi, Hj.
    destruct (decide ((a, b) ∈ idx)) as [Hin|Hnin].
    + rewrite decide_True; [done|by right].
    + erewrite mget_mset by done.
      destruct (decide (a = i ∧ b = j)) as [[-> ->]|Hne].
      * rewrite decide_True; [done|by left].
      * rewrite decide_False; [done|].
        intros [Heq|?]%elem_of_cons; [|done]. apply Hne. by simplify_eq.
  - by apply mset_shape.
  - intros ij Hij. apply Hidx. by right.
Qed.

Lemma elem_of_triu_indices n i j :
  (i, j) ∈ triu_indices n ↔ i < j < n.
Proof.
  unfold triu_indices. rewrite list_elem_of_bind. split.
  - intros (i' & Hij & Hi'). apply list_elem_of_fmap in Hij as (j' & Heq & Hj').
    simplify_eq. apply elem_of_seq in Hi'. apply elem_of_seq in Hj'. lia.
  - intros Hij. exists i. split.
    + apply list_elem_of_fmap. exists j. split; [done|]. apply elem_of_seq. lia.
    + apply elem_of_seq. lia.
Qed.

Lemma elem_of_swap_triu_indices n i j :
  (i, j) ∈ swap_idx <$> triu_indices n ↔ j < i < n.
Proof.
  rewrite list_elem_of_fmap. split.
  - intros ([i' j'] & Heq & Hin). unfold swap_idx in Heq. simplify_eq/=.
    apply elem_of_triu_indices in Hin. lia.
  - intros Hij. exists (j, i). split; [done|]. apply elem_of_triu_indices. lia.
Qed.

(** Setting the diagonal. *)
Lemma mget_set_diagonal n (M : matrix) (d : nat → float) k a b :
  has_shape n n M → k ≤ n →
  has_shape n n (foldl (λ (M' : matrix) (i : nat), mset M' i i (d i)) M (seq 0 k)) ∧
  mget (foldl (λ (M' : matrix) (i : nat), mset M' i i (d i)) M (seq 0 k)) a b
  = if decide (a = b ∧ a < k) then d a else mget M a b.
Proof.
  intros HM. induction k as [|k IH]; intros Hk.
  { simpl. split; [done|]. rewrite decide_False; [done|lia]. }
  destruct IH as [IHs IHg]; [lia|].
  rewrite seq_S, foldl_app. simpl. split; [by apply mset_shape|].
  erewrite mget_mset; [|done|lia..]. rewrite IHg.
  repeat case_decide; try done; try lia. by destruct_and!; subst.
Qed.

(** ** MatrixAssembler: symmetrisation *)

Section symmetrisation.
Import Tanimoto.

Lemma sym_cell_comm u l : sym_cell u l = sym_cell l u.
Proof. destruct u, l; simpl; try done. by rewrite Qcplus_comm. Qed.

Lemma sym_cell_diag c : sym_cell c c = c.
Proof. destruct c; simpl; [done|]. by rewrite half_double. Qed.

(** The masked updates compute the policy cell by cell. *)
Lemma sym_u_of_cells upper lower :
  length upper = length lower →
  sym_u_of upper lower = zip_with sym_cell upper lower.
Proof.
  revert lower. induction upper as [|u upper IH]; intros [|l lower] Hlen;
    try done.
  simpl in Hlen. specialize (IH lower ltac:(lia)).
  unfold sym_u_of, both_mask, only_l_mask in *.
  destruct u as [|a], l as [|b]; simpl; f_equal; exact IH.
Qed.

Lemma sym_l_of_cells upper lower :
  length upper = length lower →
  sym_l_of upper lower = zip_with sym_cell upper lower.
Proof.
  revert lower. induction upper as [|u upper IH]; intros [|l lower] Hlen;
    try done.
  simpl in Hlen. specialize (IH lower ltac:(lia)).
  unfold sym_l_of, both_mask, only_u_mask in *.
  destruct u as [|a], l as [|b]; simpl; f_equal; exact IH.
Qed.

Lemma zip_with_gather (M : matrix) (idx : list (nat * nat)) :
  zip_with sym_cell (gather_at M idx) (gather_at M (swap_idx <$> idx))
  = (λ ij : nat * nat, sym_cell (mget M ij.1 ij.2) (mget M ij.2 ij.1)) <$> idx.
Proof.
  unfold gather_at. induction idx as [|[i j] idx IH]; [done|].
  simpl. by f_equal.
Qed.

Lemma gather_at_length (M : matrix) idx : length (gather_at M idx) = length idx.
Proof. unfold gather_at. by rewrite length_map. Qed.

(** Every cell of the symmetrised matrix, in terms of the input. *)
Lemma symmetrize_cells n valid (M : matrix) :
  has_shape n n M →
  has_shape n n (symmetrize valid M) ∧
  ∀ a b, a < n → b < n →
    mget (symmetrize valid M) a b
    = if decide (a = b) then (if (valid !!! a : bool) then Fin 1%Qc else NaN)
      else sym_cell (mget M a b) (mget M b a).
Proof.
  intros HM. pose proof HM as [Hn _]. unfold symmetrize. rewrite Hn.
  set (iu := triu_indices n). set (il := swap_idx <$> iu).
  rewrite sym_u_of_cells, sym_l_of_cells
    by (rewrite !gather_at_length; unfold il; by rewrite length_fmap).
  rewrite zip_with_gather.
  set (gu := λ ij : nat * nat, sym_cell (mget M ij.1 ij.2) (mget M ij.2 ij.1)).
  assert (gu <$> iu = (λ ij : nat * nat, sym_cell (mget M ij.2 ij.1) (mget M ij.1 ij.2)) <$> il)
    as Hl.
  { unfold il. rewrite <- list_fmap_compose. apply list_fmap_ext. intros _ [i j] _. done. }
  set (gl := λ ij : nat * nat, sym_cell (mget M ij.2 ij.1) (mget M ij.1 ij.2)) in *.
  set (M1 := scatter_at M iu (gu <$> iu)).
  assert (has_shape n n M1) as HM1 by by apply scatter_at_shape.
  rewrite Hl. set (M2 := scatter_at M1 il (gl <$> il)).
  assert (has_shape n n M2) as HM2 by by apply scatter_at_shape.
  set (d := λ i : nat, if (valid !!! i : bool) then Fin 1%Qc else NaN).
  destruct (mget_set_diagonal n M2 d n 0 0 HM2 (le_n n)) as [Hshape _].
  split; [exact Hshape|]. intros a b Ha Hb.
  destruct (mget_set_diagonal n M2 d n a b HM2 (le_n n)) as [_ Hd].
  unfold d in Hd. cbv beta in Hd. rewrite Hd. clear Hd.
  destruct (decide (a = b)) as [->|Hab].
  { rewrite decide_True; [done|lia]. }
  rewrite decide_False by lia.
  unfold M2. erewrite mget_scatter_at; [|done|].
  2:{ intros [i j] Hij. apply elem_of_swap_triu_indices in Hij. simpl. lia. }
  case_decide as Hil.
  { unfold gl. simpl. apply sym_cell_comm. }
  unfold M1. erewrite mget_scatter_at; [|done|].
  2:{ intros [i j] Hij. apply elem_of_triu_indices in Hij. simpl. lia. }
  rewrite decide_True; [done|].
  apply elem_of_triu_indices. unfold il, iu in Hil.
  rewrite elem_of_swap_triu_indices in Hil. lia.
Qed.

End symmetrisation.

(** C9.  On the assembled [n] by [n] matrix the symmetrisation follows the
    policy (off the diagonal the mean of the two mirrored cells when both
    are defined, the defined one when exactly one is, undefined when
    neither is; on the diagonal 1 for a valid entity and undefined for an
    invalid one) and it is idempotent: applying it a second time changes no
    cell. *)
Theorem C9_symmetrize_idempotent n (valid : list bool) (M : matrix) :
  has_shape n n M →
  Tanimoto.symmetrize valid (Tanimoto.symmetrize valid M)
  = Tanimoto.symmetrize valid M ∧
  has_shape n n (Tanimoto.symmetrize valid M) ∧
  ∀ a b, a < n → b < n →
    mget (Tanimoto.symmetrize valid M) a b
    = if decide (a = b) then (if (valid !!! a : bool) then Fin 1%Qc else NaN)
      else Tanimoto.sym_cell (mget M a b) (mget M b a).
Proof.
  intros HM.
  destruct (symmetrize_cells n valid M HM) as [HS Hcells].
  destruct (symmetrize_cells n valid _ HS) as [HSS Hcells'].
  split; [|by split].
  apply (matrix_ext n n); [done..|]. intros a b Ha Hb.
  rewrite Hcells', !Hcells by done.
  case_decide as Hab; [done|]. rewrite decide_False by congruence.
  rewrite (sym_cell_comm (mget M b a)). apply sym_cell_diag.
Qed.

Lemma C9_symmetrize_idempotent_witness :
  let M := [ [Fin (Q2Qc (1 # 2)); NaN; Fin (Q2Qc (1 # 4))];
             [Fin (Q2Qc (3 # 10)); NaN; NaN];
             [Fin (Q2Qc (3 # 4)); NaN; Fin 0%Qc] ] in
  let valid := [true; false; true] in
  has_shape 3 3 M ∧
  Tanimoto.symmetrize valid (Tanimoto.symmetrize valid M)
  = Tanimoto.symmetrize valid M.
Proof.
  intros M valid.
  assert (has_shape 3 3 M) as HM by (split; [reflexivity|repeat constructor]).
  split; [exact HM|].
  exact (proj1 (C9_symmetrize_idempotent 3 valid M HM)).
Defined.

Example symmetrize_example :
  Tanimoto.symmetrize [true; false; true]
    [ [Fin (Q2Qc (1 # 2)); NaN; Fin (Q2Qc (1 # 4))];
      [Fin (Q2Qc (3 # 10)); NaN; NaN];
      [Fin (Q2Qc (3 # 4)); NaN; Fin 0%Qc] ]
  = [ [Fin 1%Qc; Fin (Q2Qc (3 # 10)); Fin (Q2Qc (1 # 2))];
      [Fin (Q2Qc (3 # 10)); NaN; NaN];
      [Fin (Q2Qc (1 # 2)); NaN; Fin 1%Qc] ].
Proof. apply (bool_decide_unpack _). vm_compute. exact I. Qed.

(** ** Batches *)

Section batches.
Import Tanimoto.

Lemma elem_of_make_batches n bs (b : nat * nat) :
  0 < bs →
  b ∈ make_batches n bs ↔ ∃ k, k * bs < n ∧ b = (k * bs, min (k * bs + bs) n).
Proof.
  intros Hbs. unfold make_batches. rewrite list_elem_of_fmap. split.
  - intros (s & -> & Hs). apply elem_of_py_range in Hs as [[_ Hlt] Hmod]; [|done].
    rewrite Nat.sub_0_r in Hmod. apply Nat.Lcm0.mod_divide in Hmod as [k ->].
    by exists k.
  - intros (k & Hk & ->). exists (k * bs). split; [done|].
    apply elem_of_py_range; [done|]. split; [lia|].
    rewrite Nat.sub_0_r. apply Nat.Div0.mod_mul.
Qed.

Lemma make_batches_bounds n bs (b : nat * nat) :
  0 < bs → b ∈ make_batches n bs → b.1 < b.2 ∧ b.2 ≤ n.
Proof.
  intros Hbs (k & Hk & ->)%elem_of_make_batches; [|done]. simpl. lia.
Qed.

Lemma make_batches_cover n bs i :
  0 < bs → i < n →
  batch_of n bs i ∈ make_batches n bs ∧
  (batch_of n bs i).1 ≤ i < (batch_of n bs i).2.
Proof.
  intros Hbs Hi. pose proof (Nat.div_mod_eq i bs) as Hdm.
  pose proof (Nat.mod_upper_bound i bs) as Hub. split.
  - apply elem_of_make_batches; [done|]. exists (i / bs). split; [lia|done].
  - unfold batch_of. simpl. lia.
Qed.

Lemma make_batches_unique n bs (b : nat * nat) i :
  0 < bs → b ∈ make_batches n bs → b.1 ≤ i < b.2 → b = batch_of n bs i.
Proof.
  intros Hbs (k & Hk & ->)%elem_of_make_batches [Hle Hlt]; [|done].
  simpl in Hle, Hlt. unfold batch_of.
  assert (i / bs = k) as ->; [|done].
  symmetry. apply (Nat.div_unique i bs k (i - k * bs)); lia.
Qed.

Lemma make_batches_widths n bs :
  0 < bs →
  sum_list ((λ c : nat * nat, c.2 - c.1) <$> make_batches n bs) = n.
Proof.
  intros Hbs. unfold make_batches, py_range.
  rewrite <- !list_fmap_compose.
  assert (∀ c, sum_list ((λ k, min (0 + k * bs + bs) n - (0 + k * bs)) <$> seq 0 c)
               = min (c * bs) n) as Hsum.
  { induction c as [|c IH]; [done|].
    rewrite seq_S, fmap_app, sum_list_with_app, IH. simpl. lia. }
  etrans; [apply Hsum|].
  pose proof (Nat.div_mod_eq (n - 0 + bs - 1) bs).
  pose proof (Nat.mod_upper_bound (n - 0 + bs - 1) bs). nia.
Qed.

End batches.

(** ** BlockComputer and MatrixAssembler *)

Lemma foldl_insert_length {A B} (f : B → nat) (g : B → A) (l : list B) (row : list A) :
  length (foldl (λ (row' : list A) (x : B), <[f x := g x]> row') row l) = length row.
Proof.
  revert row. induction l as [|x l IH]; intros row; [done|].
  simpl. by rewrite IH, length_insert.
Qed.

Lemma zip_with_app_shape k w1 w2 (p q : matrix) :
  has_shape k w1 p → has_shape k w2 q → has_shape k (w1 + w2) (zip_with app p q).
Proof.
  intros [Hp Hpr] [Hq Hqr]. split.
  - rewrite length_zip_with. lia.
  - apply Forall_lookup_2. intros i row Hrow.
    apply lookup_zip_with_Some in Hrow as (x & y & -> & Hx & Hy).
    rewrite length_app.
    rewrite (Forall_lookup_1 _ _ _ _ Hpr Hx), (Forall_lookup_1 _ _ _ _ Hqr Hy). done.
Qed.

Lemma hstack_shape {C} k (G : C → matrix) (wd : C → nat) (cs : list C) :
  cs ≠ [] →
  (∀ c, c ∈ cs → has_shape k (wd c) (G c)) →
  has_shape k (sum_list (wd <$> cs)) (hstack (G <$> cs)).
Proof.
  destruct cs as [|c cs]; [done|]. intros _ Hcs. simpl.
  assert (has_shape k (wd c) (G c)) as Hc by (apply Hcs; by left).
  assert (∀ c', c' ∈ cs → has_shape k (wd c') (G c')) as Hcs'
    by (intros c' ?; apply Hcs; by right).
  clear Hcs. revert Hc. generalize (G c) (wd c). clear c.
  induction cs as [|c cs IH]; intros p w Hp; simpl.
  { by rewrite Nat.add_0_r. }
  rewrite Nat.add_assoc. apply IH.
  - intros c' ?. apply Hcs'. by right.
  - apply zip_with_app_shape; [done|]. apply Hcs'. by left.
Qed.

Section assembly.
Import Tanimoto.
Context {FP : Type}.
Variable BulkTanimotoSimilarity : option FP → list (option FP) → list float.
Implicit Types r : run FP.

Lemma compute_block_shape (qfps tfps : list (option FP)) (qvalid tvalid : list bool) :
  length qfps = length qvalid →
  has_shape (length qfps) (length tfps)
            (compute_block FP BulkTanimotoSimilarity qfps qvalid tfps tvalid).
Proof.
  intros Hq. unfold compute_block. split.
  - rewrite length_map, length_zip. lia.
  - apply Forall_fmap, Forall_forall. intros [qfp ok_q] _. simpl.
    unfold block_row. destruct ok_q; simpl.
    + by rewrite foldl_insert_length, length_replicate.
    + by rewrite length_replicate.
Qed.

(** With one similarity per target, as the bulk scorer returns them, every
    index the loop of [compute_block] reads or writes is in range. *)
Lemma block_row_in_range (tfps : list (option FP)) (tvalid : list bool)
    (qfp : option FP) k j :
  (∀ q ts, length (BulkTanimotoSimilarity q ts) = length ts) →
  length tvalid = length tfps →
  (k, j) ∈ enumerate (valid_indices tvalid) →
  j < length tfps ∧
  k < length (sims_valid_of FP BulkTanimotoSimilarity qfp
                ((λ j', tfps !!! j') <$> valid_indices tvalid)).
Proof.
  intros Hbulk Hlen Hkj. apply elem_of_enumerate in Hkj. split.
  - apply list_elem_of_lookup_2 in Hkj. unfold valid_indices in Hkj.
    apply list_elem_of_omap in Hkj as ([j' ok] & Hin & Hok).
    simpl in Hok. destruct ok; [|done]. simplify_eq.
    apply elem_of_enumerate, lookup_lt_Some in Hin. lia.
  - apply lookup_lt_Some in Hkj. unfold sims_valid_of.
    destruct (valid_indices tvalid) as [|j0 js]; simpl in *; [lia|].
    rewrite Hbulk. simpl. rewrite length_fmap. lia.
Qed.

Lemma valid_length r : length (valid FP r) = n_of FP r.
Proof. unfold valid, n_of. by rewrite length_map. Qed.

Lemma full_row_block_shape r (b : nat * nat) :
  0 < col_batch FP r → b.1 < b.2 → b.2 ≤ n_of FP r →
  has_shape (b.2 - b.1) (n_of FP r) (full_row_block FP BulkTanimotoSimilarity r b).
Proof.
  intros Hcb Hlt Hle. unfold full_row_block.
  rewrite <- (make_batches_widths (n_of FP r) (col_batch FP r) Hcb) at 1.
  apply (hstack_shape (b.2 - b.1)
    (λ c : nat * nat, compute_block FP BulkTanimotoSimilarity
       (py_slice (fps FP r) b.1 b.2) (py_slice (valid FP r) b.1 b.2)
       (py_slice (fps FP r) c.1 c.2) (py_slice (valid FP r) c.1 c.2))
    (λ c : nat * nat, c.2 - c.1)).
  - unfold col_batches. intros Hnil.
    destruct (make_batches_cover (n_of FP r) (col_batch FP r) 0) as [Hin _]; [done|lia|].
    rewrite Hnil in Hin. by apply elem_of_nil in Hin.
  - intros c Hc. apply make_batches_bounds in Hc as [Hc1 Hc2]; [|done].
    rewrite <- (py_slice_length (fps FP r) c.1 c.2) by done.
    rewrite <- (py_slice_length (fps FP r) b.1 b.2) by done.
    apply compute_block_shape.
    rewrite !py_slice_length; [done|by rewrite valid_length|done].
Qed.

Lemma place_lookup n (M : matrix) rs (block : matrix) :
  rs + length block ≤ length M → has_shape (length block) n block →
  ∃ M', place n M rs block = Some M' ∧ length M' = length M ∧
    ∀ i, M' !! i = if decide (rs ≤ i < rs + length block) then block !! (i - rs)
                   else M !! i.
Proof.
  intros Hle Hshape. unfold place. rewrite decide_True by done.
  eexists. split; [done|]. split.
  - rewrite !length_app, length_take, length_drop. lia.
  - intros i. case_decide as Hi.
    + rewrite lookup_app_r by (rewrite length_take; lia).
      rewrite length_take, Nat.min_l by lia.
      rewrite lookup_app_l by lia. done.
    + destruct (decide (i < rs)) as [Hlt|Hge].
      * rewrite lookup_app_l by (rewrite length_take; lia).
        by rewrite lookup_take_lt.
      * rewrite lookup_app_r by (rewrite length_take; lia).
        rewrite length_take, Nat.min_l by lia.
        rewrite lookup_app_r by lia. rewrite lookup_drop. f_equal. lia.
Qed.

Lemma assemble_rows r (bl : list (nat * nat)) (M0 : matrix) :
  0 < row_batch FP r → 0 < col_batch FP r →
  (∀ b, b ∈ bl → b ∈ row_batches FP r) →
  length M0 = n_of FP r →
  ∃ M', foldl (λ (M : option matrix) (rb : nat * matrix),
                 M ≫= λ M', place (n_of FP r) M' rb.1 rb.2)
              (Some M0)
              ((λ b : nat * nat, (b.1, full_row_block FP BulkTanimotoSimilarity r b)) <$> bl)
        = Some M' ∧
    length M' = n_of FP r ∧
    ∀ i, i < n_of FP r →
      (M0 !! i = Some (global_row FP BulkTanimotoSimilarity r i) ∨ ∃ b, b ∈ bl ∧ b.1 ≤ i < b.2) →
      M' !! i = Some (global_row FP BulkTanimotoSimilarity r i).
Proof.
  intros Hrb Hcb. revert M0. induction bl as [|b bl IH]; intros M0 Hbl HM0.
  { exists M0. split; [done|]. split; [done|].
    intros i _ [?|(b & Hb & _)]; [done|]. by apply elem_of_nil in Hb. }
  assert (b ∈ row_batches FP r) as Hb by (apply Hbl; by left).
  pose proof (make_batches_bounds _ _ _ Hrb Hb) as [Hb1 Hb2].
  pose proof (full_row_block_shape r b Hcb Hb1 Hb2) as Hshape.
  pose proof Hshape as [Hlen _].
  destruct (place_lookup (n_of FP r) M0 b.1
              (full_row_block FP BulkTanimotoSimilarity r b))
    as (M1 & HM1 & HlenM1 & Hlk).
  { rewrite Hlen. lia. }
  { by rewrite Hlen. }
  destruct (IH M1) as (M' & HM' & HlenM' & HlkM').
  { intros b' ?. apply Hbl. by right. }
  { lia. }
  exists M'. split; [|split; [done|]].
  { rewrite fmap_cons. simpl. rewrite HM1. exact HM'. }
  intros i Hi Hcase. apply HlkM'; [done|].
  assert (b.1 ≤ i < b.2 → M1 !! i = Some (global_row FP BulkTanimotoSimilarity r i)) as Hcov.
  { intros Hcov. rewrite Hlk, decide_True by lia.
    unfold global_row.
    rewrite <- (make_batches_unique _ _ b i Hrb Hb Hcov).
    apply list_lookup_lookup_total_lt. lia. }
  destruct (decide (b.1 ≤ i < b.2)) as [Hc|Hnc]; [left; by apply Hcov|].
  destruct Hcase as [HM0i|(b' & [->|Hb']%elem_of_cons & Hc')].
  - left. rewrite Hlk, decide_False by lia. done.
  - done.
  - right. by exists b'.
Qed.

Lemma gathered_concat r W :
  concat (gathered FP BulkTanimotoSimilarity r W)
  = (λ b : nat * nat, (b.1, full_row_block FP BulkTanimotoSimilarity r b))
      <$> concat (TaskPartitioner.all_row_batches (row_batches FP r) W).
Proof.
  unfold gathered, my_blocks, TaskPartitioner.all_row_batches.
  generalize (seq 0 W) as ranks. induction ranks as [|rank ranks IH]; [done|].
  simpl. by rewrite fmap_app, IH.
Qed.

(** Whatever the number of ranks, rank 0 ends with the matrix whose row [i]
    is [global_row FP BulkTanimotoSimilarity r i]. *)
Lemma assemble_global r W :
  0 < row_batch FP r → 0 < col_batch FP r → 0 < W →
  assemble FP BulkTanimotoSimilarity r W
  = Some (global_row FP BulkTanimotoSimilarity r <$> seq 0 (n_of FP r)).
Proof.
  intros Hrb Hcb HW. unfold assemble. rewrite gathered_concat.
  pose proof (all_row_batches_Permutation (row_batches FP r) W HW) as Hperm.
  destruct (assemble_rows r
              (concat (TaskPartitioner.all_row_batches (row_batches FP r) W))
              (full_nan (n_of FP r) (n_of FP r)) Hrb Hcb)
    as (M' & -> & Hlen & Hlk).
  { intros b Hb. by rewrite <- Hperm. }
  { unfold full_nan. by rewrite length_replicate. }
  f_equal. apply list_eq. intros i.
  rewrite list_lookup_fmap.
  destruct (decide (i < n_of FP r)) as [Hi|Hi].
  - rewrite lookup_seq_lt by done. simpl. apply Hlk; [done|]. right.
    exists (batch_of (n_of FP r) (row_batch FP r) i).
    destruct (make_batches_cover (n_of FP r) (row_batch FP r) i Hrb Hi) as [Hin Hcov].
    split; [|done]. by rewrite Hperm.
  - rewrite lookup_seq_ge by lia. simpl. apply lookup_ge_None. lia.
Qed.

End assembly.

(** C10.  For every list of fingerprints, a bulk scorer that returns one
    similarity per target, positive batch sizes and every number of ranks
    [W >= 1], the assembly on rank 0 succeeds and the matrix
    it builds before the symmetrisation is the matrix a single rank builds:
    an [n] by [n] matrix whose row [i] is the row computed by the row batch
    of [i]. *)
Theorem C10_assembly_independent_of_ranks {FP : Type}
    (BulkTanimotoSimilarity : option FP → list (option FP) → list float)
    (r : Tanimoto.run FP) (W : nat) :
  (∀ q ts, length (BulkTanimotoSimilarity q ts) = length ts) →
  0 < Tanimoto.row_batch FP r → 0 < Tanimoto.col_batch FP r → 1 ≤ W →
  Tanimoto.assemble FP BulkTanimotoSimilarity r W
  = Tanimoto.assemble FP BulkTanimotoSimilarity r 1 ∧
  ∃ M, Tanimoto.assemble FP BulkTanimotoSimilarity r W = Some M ∧
       has_shape (Tanimoto.n_of FP r) (Tanimoto.n_of FP r) M ∧
       ∀ i, i < Tanimoto.n_of FP r →
         M !! i = Some (Tanimoto.global_row FP BulkTanimotoSimilarity r i).
Proof.
  intros _ Hrb Hcb HW.
  rewrite !(assemble_global BulkTanimotoSimilarity r) by lia.
  split; [done|]. eexists. split; [done|]. split; [split|].
  - by rewrite length_fmap, length_seq.
  - apply Forall_fmap, Forall_forall. intros i Hi. apply elem_of_seq in Hi.
    simpl. unfold Tanimoto.global_row.
    destruct (make_batches_cover (Tanimoto.n_of FP r) (Tanimoto.row_batch FP r) i)
      as [Hin Hcov]; [done|lia|].
    apply make_batches_bounds in Hin as [Hb1 Hb2]; [|done].
    eapply has_shape_lookup.
    + by apply full_row_block_shape.
    + lia.
  - intros i Hi. by rewrite list_lookup_fmap, lookup_seq_lt.
Qed.

Lemma C10_assembly_independent_of_ranks_witness :
  (∀ q ts, length (sample_bulk q ts) = length ts) ∧
  0 < Tanimoto.row_batch nat sample_run ∧
  0 < Tanimoto.col_batch nat sample_run ∧
  1 ≤ 3 ∧
  Tanimoto.assemble nat sample_bulk sample_run 3
  = Tanimoto.assemble nat sample_bulk sample_run 1.
Proof.
  assert (∀ q ts, length (sample_bulk q ts) = length ts) as H0
    by (intros q ts; unfold sample_bulk; apply length_map).
  assert (0 < Tanimoto.row_batch nat sample_run) as H1 by (simpl; lia).
  assert (0 < Tanimoto.col_batch nat sample_run) as H2 by (simpl; lia).
  assert (1 ≤ 3) as H3 by lia.
  split_and!; [done..|].
  exact (proj1 (C10_assembly_independent_of_ranks sample_bulk sample_run 3
                  H0 H1 H2 H3)).
Defined.

Example assemble_sample_run :
  Tanimoto.assemble nat sample_bulk sample_run 3
  = Some (map (map (λ z : option Z, from_option (λ k, Fin (Qc_of_Z k)) NaN z))
       [ [Some 11%Z; None; Some 13%Z; Some 14%Z; Some 15%Z];
         [None; None; None; None; None];
         [Some 31%Z; None; Some 33%Z; Some 34%Z; Some 35%Z];
         [Some 41%Z; None; Some 43%Z; Some 44%Z; Some 45%Z];
         [Some 51%Z; None; Some 53%Z; Some 54%Z; Some 55%Z] ]).
Proof. vm_compute. reflexivity. Qed.

(** ** DirectionalRecordMerger *)

Section merger.
Import Hungarian.

Lemma half_mul (x : Qc) : (half * x = x / two)%Qc.
Proof.
  apply Qc_is_canon. unfold half, two, Qcdiv, Qcmult, Qcinv. simpl.
  rewrite !Qred_correct. field.
Qed.

Lemma py_max_comm x y : py_max x y = py_max y x.
Proof.
  unfold py_max. repeat case_bool_decide; try done.
  - exfalso. eapply Qclt_not_le; [done|]. by apply Qclt_le_weak.
  - apply Qcle_antisym; by apply Qcnot_lt_le.
Qed.

Lemma py_min_comm x y : py_min x y = py_min y x.
Proof.
  unfold py_min. repeat case_bool_decide; try done.
  - exfalso. eapply Qclt_not_le; [done|]. by apply Qclt_le_weak.
  - apply Qcle_antisym; by apply Qcnot_lt_le.
Qed.

Lemma py_max_spec x y :
  (py_max x y = x ∨ py_max x y = y) ∧ (x ≤ py_max x y)%Qc ∧ (y ≤ py_max x y)%Qc.
Proof.
  unfold py_max. case_bool_decide as H.
  - split; [by right|]. split; [by apply Qclt_le_weak|apply Qcle_refl].
  - split; [by left|]. split; [apply Qcle_refl|by apply Qcnot_lt_le].
Qed.

Lemma py_min_spec x y :
  (py_min x y = x ∨ py_min x y = y) ∧ (py_min x y ≤ x)%Qc ∧ (py_min x y ≤ y)%Qc.
Proof.
  unfold py_min. case_bool_decide as H.
  - split; [by right|]. split; [by apply Qclt_le_weak|apply Qcle_refl].
  - split; [by left|]. split; [apply Qcle_refl|by apply Qcnot_lt_le].
Qed.

Lemma merge_symmetric_lookup a2b b2a how k :
  merge_symmetric a2b b2a how !! k = merge_pair how (a2b !! k) (b2a !! k).
Proof.
  unfold merge_symmetric. rewrite lookup_merge.
  by destruct (a2b !! k), (b2a !! k).
Qed.

Lemma avg_two_policy a b :
  _avg_two a b =
    match a, b with
    | Fin x, Fin y => Fin ((x + y) / two)%Qc
    | Fin x, NaN => Fin x
    | NaN, Fin y => Fin y
    | NaN, NaN => NaN
    end.
Proof. destruct a, b; simpl; try done. unfold _avg_two. simpl. by rewrite half_mul. Qed.

End merger.

(** C6.  [merge_symmetric] builds the record of each key from the two
    directional lookups.  With both records present the combined score is
    the mean (avg), the maximum (max) or the minimum (min) of the two
    bitscores and the copied record is a side with the highest (avg, max) or
    the lowest (min) bitscore; the two percent identities are kept per
    direction.  With one record present its bitscore is the score and the
    percent identity of the missing side is NaN.  The averaged percent
    identity is the mean when both are defined, the defined one when one
    is, and NaN otherwise; no branch fills in a zero. *)
Theorem C6_merge_modes (a2b b2a : gmap (string * string) Hungarian.hit)
    (how : string) (k : string * string) :
  Hungarian.merge_symmetric a2b b2a how !! k
    = Hungarian.merge_pair how (a2b !! k) (b2a !! k) ∧
  (∀ v1 v2, ∃ rec,
     Hungarian.merge_pair "avg" (Some v1) (Some v2) = Some rec ∧
     Hungarian.score rec
       = ((Hungarian.bitscore v1 + Hungarian.bitscore v2) / two)%Qc ∧
     (Hungarian.chosen_hit rec = v1 ∨ Hungarian.chosen_hit rec = v2) ∧
     (Hungarian.bitscore v1 ≤ Hungarian.bitscore (Hungarian.chosen_hit rec))%Qc ∧
     (Hungarian.bitscore v2 ≤ Hungarian.bitscore (Hungarian.chosen_hit rec))%Qc ∧
     Hungarian.pident_a2b rec = Hungarian.pident v1 ∧
     Hungarian.pident_b2a rec = Hungarian.pident v2) ∧
  (∀ v1 v2, ∃ rec,
     Hungarian.merge_pair "max" (Some v1) (Some v2) = Some rec ∧
     Hungarian.score rec = Hungarian.bitscore (Hungarian.chosen_hit rec) ∧
     (Hungarian.chosen_hit rec = v1 ∨ Hungarian.chosen_hit rec = v2) ∧
     (Hungarian.bitscore v1 ≤ Hungarian.score rec)%Qc ∧
     (Hungarian.bitscore v2 ≤ Hungarian.score rec)%Qc ∧
     Hungarian.pident_a2b rec = Hungarian.pident v1 ∧
     Hungarian.pident_b2a rec = Hungarian.pident v2) ∧
  (∀ v1 v2, ∃ rec,
     Hungarian.merge_pair "min" (Some v1) (Some v2) = Some rec ∧
     Hungarian.score rec = Hungarian.bitscore (Hungarian.chosen_hit rec) ∧
     (Hungarian.chosen_hit rec = v1 ∨ Hungarian.chosen_hit rec = v2) ∧
     (Hungarian.score rec ≤ Hungarian.bitscore v1)%Qc ∧
     (Hungarian.score rec ≤ Hungarian.bitscore v2)%Qc ∧
     Hungarian.pident_a2b rec = Hungarian.pident v1 ∧
     Hungarian.pident_b2a rec = Hungarian.pident v2) ∧
  (∀ v, Hungarian.merge_pair how (Some v) None
        = Some {| Hungarian.chosen_hit := v;
                  Hungarian.score := Hungarian.bitscore v;
                  Hungarian.pident_a2b := Hungarian.pident v;
                  Hungarian.pident_b2a := NaN;
                  Hungarian.avg_pident := Hungarian.pident v |}) ∧
  (∀ v, Hungarian.merge_pair how None (Some v)
        = Some {| Hungarian.chosen_hit := v;
                  Hungarian.score := Hungarian.bitscore v;
                  Hungarian.pident_a2b := NaN;
                  Hungarian.pident_b2a := Hungarian.pident v;
                  Hungarian.avg_pident := Hungarian.pident v |}) ∧
  (∀ o1 o2, from_option (λ rec,
       Hungarian.avg_pident rec =
         match Hungarian.pident_a2b rec, Hungarian.pident_b2a rec with
         | Fin x, Fin y => Fin ((x + y) / two)%Qc
         | Fin x, NaN => Fin x
         | NaN, Fin y => Fin y
         | NaN, NaN => NaN
         end) True (Hungarian.merge_pair how o1 o2)).
Proof.
  split; [apply merge_symmetric_lookup|].
  split; [|split; [|split; [|split; [|split]]]].
  - intros v1 v2. eexists. split; [reflexivity|]. simpl.
    split; [apply half_mul|].
    case_bool_decide as Hle; (split; [naive_solver|]); split_and!;
      try done; try apply Qcle_refl.
    apply Qclt_le_weak. by apply Qcnot_le_lt.
  - intros v1 v2. eexists. split; [reflexivity|]. simpl.
    destruct (py_max_spec (Hungarian.bitscore v1) (Hungarian.bitscore v2))
      as (_ & Hm1 & Hm2).
    unfold Hungarian.py_max in *.
    case_bool_decide as Hle; case_bool_decide as Hlt; split_and!; try done;
      try (by left); try (by right); by apply Qcle_antisym.
  - intros v1 v2. eexists. split; [reflexivity|]. simpl.
    destruct (py_min_spec (Hungarian.bitscore v1) (Hungarian.bitscore v2))
      as (_ & Hm1 & Hm2).
    unfold Hungarian.py_min in *.
    case_bool_decide as Hle; case_bool_decide as Hlt; split_and!; try done;
      try (by left); try (by right); by apply Qcle_antisym.
  - intros v. simpl. rewrite avg_two_policy. by destruct (Hungarian.pident v).
  - intros v. simpl. rewrite avg_two_policy. by destruct (Hungarian.pident v).
  - intros [v1|] [v2|]; simpl; try done.
    + repeat case_bool_decide; simpl; apply avg_two_policy.
    + rewrite avg_two_policy. by destruct (Hungarian.pident v1).
    + rewrite avg_two_policy. by destruct (Hungarian.pident v2).
Qed.

Section flip.
Import Hungarian.

Lemma dir_step_flip (emax : option Qc) (Lmin : option Z)
    (Df Dt : gmap pair_key hit) (r : hit) :
  (∀ a b, Dt !! (a, b) = flip_hit <$> Df !! (b, a)) →
  ∀ a b, dir_step true emax Lmin Dt r !! (a, b)
         = flip_hit <$> dir_step false emax Lmin Df r !! (b, a).
Proof.
  intros HD a b. unfold dir_step.
  destruct (match Lmin with Some L => _ | None => _ end); [apply HD|].
  destruct (match emax with Some e => _ | None => _ end); [apply HD|].
  cbv zeta. rewrite (HD (sseqid r) (qseqid r)).
  destruct (Df !! (qseqid r, sseqid r)) as [prev|]; simpl.
  - case_bool_decide; [|apply HD].
    destruct (decide ((sseqid r, qseqid r) = (a, b))) as [Heq|Hne].
    + simplify_eq. by rewrite !lookup_insert_eq.
    + rewrite !lookup_insert_ne; [apply HD|congruence..].
  - destruct (decide ((sseqid r, qseqid r) = (a, b))) as [Heq|Hne].
    + simplify_eq. by rewrite !lookup_insert_eq.
    + rewrite !lookup_insert_ne; [apply HD|congruence..].
Qed.

Lemma to_dir_dict_flip (df : list hit) (emax : option Qc) (Lmin : option Z) a b :
  to_dir_dict df true emax Lmin !! (a, b)
  = flip_hit <$> to_dir_dict df false emax Lmin !! (b, a).
Proof.
  unfold to_dir_dict.
  assert (∀ Df Dt : gmap pair_key hit,
    (∀ a b, Dt !! (a, b) = flip_hit <$> Df !! (b, a)) →
    ∀ a b, foldl (dir_step true emax Lmin) Dt df !! (a, b)
           = flip_hit <$> foldl (dir_step false emax Lmin) Df df !! (b, a)) as Hgen.
  { clear a b. induction df as [|r df IH]; intros Df Dt HD a b; [apply HD|].
    simpl. apply IH. by apply dir_step_flip. }
  apply Hgen. intros a' b'. by rewrite !lookup_empty.
Qed.

Lemma merge_pair_score_swap how o1 o2 :
  score <$> merge_pair how o1 (flip_hit <$> o2)
  = score <$> merge_pair how o2 (flip_hit <$> o1).
Proof.
  destruct o1 as [v1|], o2 as [v2|]; simpl; try done.
  repeat case_bool_decide; simpl; f_equal;
    auto using py_max_comm, py_min_comm; by rewrite Qcplus_comm.
Qed.

End flip.

(** C7.  Merging the table of A-to-B hits with the table of B-to-A hits, or
    the two tables in the other order, gives the same pair keys up to the
    exchange of query and target, and the same combined score on each
    pair, for every merge mode and every filter setting. *)
Theorem C7_merge_order_irrelevant (A B : list Hungarian.hit) (how : string)
    (emax : option Qc) (Lmin : option Z) (a b : string) :
  let merged := Hungarian.merge_symmetric
                  (Hungarian.to_dir_dict A false emax Lmin)
                  (Hungarian.to_dir_dict B true emax Lmin) how in
  let merged' := Hungarian.merge_symmetric
                   (Hungarian.to_dir_dict B false emax Lmin)
                   (Hungarian.to_dir_dict A true emax Lmin) how in
  ((a, b) ∈ dom merged ↔ (b, a) ∈ dom merged') ∧
  Hungarian.score <$> merged !! (a, b) = Hungarian.score <$> merged' !! (b, a).
Proof.
  intros merged merged'.
  assert (Hungarian.score <$> merged !! (a, b)
          = Hungarian.score <$> merged' !! (b, a)) as Hscore.
  { unfold merged, merged'. rewrite !merge_symmetric_lookup.
    rewrite (to_dir_dict_flip B), (to_dir_dict_flip A).
    apply merge_pair_score_swap. }
  split; [|done].
  rewrite !elem_of_dom, <- !(fmap_is_Some Hungarian.score). by rewrite Hscore.
Qed.

(** ** AssignmentAdapter *)

Section adapter.
Import Hungarian.

Lemma foldl_insert_index (l : list (nat * string)) (d : gmap string nat) q :
  (∀ i, foldl (λ (d' : gmap string nat) (iq : nat * string), <[iq.2 := iq.1]> d') d l
        !! q = Some i → d !! q = Some i ∨ (i, q) ∈ l) ∧
  (is_Some (d !! q) ∨ (∃ i, (i, q) ∈ l) →
   is_Some (foldl (λ (d' : gmap string nat) (iq : nat * string), <[iq.2 := iq.1]> d') d l
            !! q)).
Proof.
  revert d. induction l as [|[i' q'] l IH]; intros d; simpl.
  { split; [by left|]. intros [?|[i Hi]]; [done|]. by apply elem_of_nil in Hi. }
  destruct (IH (<[q' := i']> d)) as [IH1 IH2]. split.
  - intros i Hi. apply IH1 in Hi as [Hi|Hi]; [|right; by right].
    destruct (decide (q' = q)) as [->|Hne].
    + rewrite lookup_insert_eq in Hi. simplify_eq. right. by left.
    + rewrite lookup_insert_ne in Hi by done. by left.
  - intros Hcase. apply IH2.
    destruct (decide (q' = q)) as [->|Hne].
    + left. by rewrite lookup_insert_eq.
    + rewrite lookup_insert_ne by done.
      destruct Hcase as [?|[i [Heq|Hi]%elem_of_cons]]; [by left| |right; by exists i].
      by simplify_eq.
Qed.

Lemma index_dict_spec (ids : list string) q :
  q ∈ ids → ids !! (index_dict ids !!! q) = Some q.
Proof.
  intros Hq. unfold index_dict.
  destruct (foldl_insert_index (enumerate ids) ∅ q) as [H1 H2].
  destruct H2 as [i Hi].
  { right. apply list_elem_of_lookup in Hq as [i Hi]. exists i.
    by apply elem_of_enumerate. }
  rewrite (lookup_total_correct _ _ _ Hi).
  apply H1 in Hi as [Hi|Hi]; [by rewrite lookup_empty in Hi|].
  by apply elem_of_enumerate.
Qed.

Lemma elem_of_sorted_ids (ids : gset string) q : q ∈ sorted_ids ids ↔ q ∈ ids.
Proof. unfold sorted_ids. by rewrite merge_sort_Permutation, elem_of_elements. Qed.

(** Every cell filled by [build_cost_matrix] holds a merged record, at the
    indices of its query and its target. *)
Lemma fill_cells_sound (merged : gmap pair_key merged_rec)
    (qi ti : gmap string nat) (l : list (pair_key * merged_rec)) (st : fill_state) :
  (∀ kr, kr ∈ l → merged !! kr.1 = Some kr.2) →
  ∀ i j rec, fs_cell (foldl (fill_step qi ti) st l) !! (i, j) = Some rec →
    fs_cell st !! (i, j) = Some rec ∨
    ∃ A B, merged !! (A, B) = Some rec ∧ qi !!! A = i ∧ ti !!! B = j.
Proof.
  revert st. induction l as [|[[A B] rec'] l IH]; intros st Hl i j rec Hcell.
  { by left. }
  simpl in Hcell. apply IH in Hcell as [Hcell|Hcell]; [|by right|].
  2:{ intros kr Hkr. apply Hl. by right. }
  assert (merged !! (A, B) = Some rec') as HAB by (apply (Hl (A, B, rec')); by left).
  unfold fill_step in Hcell. simpl in Hcell.
  case_bool_decide; simpl in Hcell; [|by left].
  destruct (decide ((qi !!! A, ti !!! B) = (i, j))) as [Heq|Hne].
  - rewrite Heq, lookup_insert_eq in Hcell. simplify_eq. right. by exists A, B.
  - rewrite lookup_insert_ne in Hcell by done. by left.
Qed.

Lemma build_cost_matrix_cells (merged : gmap pair_key merged_rec) i j rec :
  cell (build_cost_matrix merged) !! (i, j) = Some rec →
  ∃ A B, merged !! (A, B) = Some rec ∧
         queries (build_cost_matrix merged) !! i = Some A ∧
         targets (build_cost_matrix merged) !! j = Some B.
Proof.
  unfold build_cost_matrix. simpl. intros Hcell.
  eapply (fill_cells_sound merged) in Hcell as [Hcell|(A & B & HAB & <- & <-)].
  - simpl in Hcell. by rewrite lookup_empty in Hcell.
  - exists A, B. split; [done|].
    split; apply index_dict_spec, elem_of_sorted_ids, elem_of_map;
      exists (A, B); (split; [done|]); apply elem_of_dom; by eexists.
  - intros [k rec'] Hkr. by apply elem_of_map_to_list in Hkr.
Qed.

Lemma NoDup_zip_fst {A B} (r : list A) (c : list B) : NoDup r → NoDup (zip r c).*1.
Proof.
  intros Hr. revert c. induction Hr as [|x r Hx Hr IH]; intros [|y c]; simpl;
    try constructor; [|by apply IH].
  intros Hin. apply Hx. apply list_elem_of_fmap in Hin as ([x' y'] & -> & Hin).
  by apply elem_of_zip_l in Hin.
Qed.

Lemma NoDup_zip_snd {A B} (r : list A) (c : list B) : NoDup c → NoDup (zip r c).*2.
Proof.
  intros Hc. revert r. induction Hc as [|y c Hy Hc IH]; intros [|x r]; simpl;
    try constructor; [|by apply IH].
  intros Hin. apply Hy. apply list_elem_of_fmap in Hin as ([x' y'] & -> & Hin).
  by apply elem_of_zip_r in Hin.
Qed.

Lemma NoDup_omap_key {X Y K} (f : X → option Y) (g : Y → K) (h : X → K) (l : list X) :
  (∀ x y, f x = Some y → g y = h x) →
  NoDup (h <$> l) → NoDup (g <$> omap f l).
Proof.
  intros Hfg. induction l as [|x l IH]; simpl; [constructor|].
  intros [Hx Hl]%NoDup_cons. destruct (f x) as [y|] eqn:Hfx; [|by apply IH].
  simpl. constructor; [|by apply IH].
  intros Hin. apply Hx. apply list_elem_of_fmap in Hin as (y' & Hy' & Hin).
  apply list_elem_of_omap in Hin as (x' & Hx' & Hfx').
  apply list_elem_of_fmap. exists x'. split; [|done].
  rewrite <- (Hfg _ _ Hfx), <- (Hfg _ _ Hfx'). done.
Qed.

Lemma collect_chosen_spec (n m : nat) (ce : gmap (nat * nat) merged_rec)
    (r c : list nat) (transposed : bool) :
  NoDup r → NoDup c →
  let chosen := collect_chosen n m ce r c transposed in
  NoDup ((λ x : nat * nat * merged_rec, x.1.1) <$> chosen) ∧
  NoDup ((λ x : nat * nat * merged_rec, x.1.2) <$> chosen) ∧
  ∀ ii jj rec, (ii, jj, rec) ∈ chosen →
    ii < n ∧ jj < m ∧ ce !! (ii, jj) = Some rec ∧
    (if transposed then (jj, ii) else (ii, jj)) ∈ zip r c.
Proof.
  intros Hr Hc chosen. unfold chosen, collect_chosen. split_and!.
  - apply (NoDup_omap_key _ _ (λ ij : nat * nat, if transposed then ij.2 else ij.1)).
    + intros [i j] [[ii jj] rec] Hf. simpl in *.
      destruct transposed; case_match; try done;
        destruct (ce !! _); simplify_eq/=; done.
    + destruct transposed; [by apply NoDup_zip_snd|by apply NoDup_zip_fst].
  - apply (NoDup_omap_key _ _ (λ ij : nat * nat, if transposed then ij.1 else ij.2)).
    + intros [i j] [[ii jj] rec] Hf. simpl in *.
      destruct transposed; case_match; try done;
        destruct (ce !! _); simplify_eq/=; done.
    + destruct transposed; [by apply NoDup_zip_fst|by apply NoDup_zip_snd].
  - intros ii jj rec Hin. apply list_elem_of_omap in Hin as ([i j] & Hin & Hf).
    simpl in Hf.
    destruct transposed; simpl in Hf;
      destruct (bool_decide _) eqn:H1; try done;
      destruct (bool_decide _) eqn:H2 in Hf; try done; simpl in Hf;
      apply bool_decide_eq_true in H1, H2;
      destruct (ce !! _) eqn:Hce; simplify_eq/=; done.
Qed.

End adapter.

Lemma solve_hungarian_arrays (lsa : list (list Qc) → list nat * list nat)
    (cost : list (list Qc)) :
  let out := lsa (Hungarian.solver_input cost) in
  let '(r, c, transposed) := Hungarian.solve_hungarian lsa cost true in
  (transposed = true ∧ r = out.2 ∧ c = out.1) ∨
  (transposed = false ∧ r = out.1 ∧ c = out.2).
Proof.
  unfold Hungarian.solve_hungarian, Hungarian.solver_input. simpl.
  case_bool_decide; destruct (lsa _) as [x y]; simpl; [by left|by right].
Qed.

(** C4.  Whenever the solver returns index arrays without repetition (its
    contract), the chosen list of [main] has no two entries with the same
    query index and no two with the same target index, and every entry is
    the merged record of an input pair [(A, B)] whose query and target sit at
    the entry's indices: cells without a record are discarded. *)
Theorem C4_chosen_pairs_valid (lsa : list (list Qc) → list nat * list nat)
    (merged : gmap (string * string) Hungarian.merged_rec) :
  let p := Hungarian.build_cost_matrix merged in
  NoDup (lsa (Hungarian.solver_input (Hungarian.cost p))).1 →
  NoDup (lsa (Hungarian.solver_input (Hungarian.cost p))).2 →
  let chosen := Hungarian.chosen_of_merged lsa merged in
  NoDup ((λ x : nat * nat * Hungarian.merged_rec, x.1.1) <$> chosen) ∧
  NoDup ((λ x : nat * nat * Hungarian.merged_rec, x.1.2) <$> chosen) ∧
  ∀ ii jj rec, (ii, jj, rec) ∈ chosen →
    ∃ A B, merged !! (A, B) = Some rec ∧
           Hungarian.queries p !! ii = Some A ∧
           Hungarian.targets p !! jj = Some B.
Proof.
  intros p H1 H2 chosen. unfold chosen, Hungarian.chosen_of_merged. fold p.
  pose proof (solve_hungarian_arrays lsa (Hungarian.cost p)) as Hsol.
  destruct (Hungarian.solve_hungarian lsa (Hungarian.cost p) true) as [[r c] t].
  simpl in Hsol.
  assert (NoDup r ∧ NoDup c) as [Hr Hc].
  { destruct Hsol as [(_ & -> & ->)|(_ & -> & ->)]; done. }
  destruct (collect_chosen_spec (length (Hungarian.queries p))
              (length (Hungarian.targets p)) (Hungarian.cell p) r c t Hr Hc)
    as (Hq & Ht & Hin).
  split; [done|]. split; [done|].
  intros ii jj rec Hrec. apply Hin in Hrec as (_ & _ & Hcell & _).
  by apply build_cost_matrix_cells.
Qed.

Lemma C4_chosen_pairs_valid_witness :
  let lsa := ReferenceSolver.linear_sum_assignment in
  let p := Hungarian.build_cost_matrix sample_merged in
  NoDup (lsa (Hungarian.solver_input (Hungarian.cost p))).1 ∧
  NoDup (lsa (Hungarian.solver_input (Hungarian.cost p))).2 ∧
  NoDup ((λ x : nat * nat * Hungarian.merged_rec, x.1.1)
           <$> Hungarian.chosen_of_merged lsa sample_merged) ∧
  NoDup ((λ x : nat * nat * Hungarian.merged_rec, x.1.2)
           <$> Hungarian.chosen_of_merged lsa sample_merged).
Proof.
  intros lsa p.
  assert (NoDup (lsa (Hungarian.solver_input (Hungarian.cost p))).1) as H1.
  { apply (bool_decide_unpack _). vm_compute. exact I. }
  assert (NoDup (lsa (Hungarian.solver_input (Hungarian.cost p))).2) as H2.
  { apply (bool_decide_unpack _). vm_compute. exact I. }
  split; [exact H1|]. split; [exact H2|].
  pose proof (C4_chosen_pairs_valid lsa sample_merged H1 H2) as (Hq & Ht & _).
  split; [exact Hq|exact Ht].
Defined.

(** The defect behind C1: [solve_hungarian] already hands back the query
    indices as [r] and the target indices as [c] when it transposed, and
    [main] exchanges them once more.  Every pair [main] reports after a
    transposition is therefore the mirror image [(target index, query
    index)] of a pair of the solver, read as [(query index, target index)]. *)
Lemma transposed_pairs_are_mirrored (lsa : list (list Qc) → list nat * list nat)
    (merged : gmap (string * string) Hungarian.merged_rec) r c :
  Hungarian.solve_hungarian lsa
    (Hungarian.cost (Hungarian.build_cost_matrix merged)) true = (r, c, true) →
  NoDup r → NoDup c →
  ∀ ii jj rec, (ii, jj, rec) ∈ Hungarian.chosen_of_merged lsa merged →
    (jj, ii) ∈ zip r c.
Proof.
  intros Hsol Hr Hc ii jj rec. unfold Hungarian.chosen_of_merged. rewrite Hsol.
  intros Hin.
  by apply (collect_chosen_spec _ _ _ r c true Hr Hc) in Hin as (_ & _ & _ & ?).
Qed.

(** C1 (the code departs from the claim).  Three queries, two targets:
    the solver, run on the transposed matrix, selects the cells
    [(q1, t0)] and [(q2, t1)]; [solve_hungarian] returns them in the
    original orientation, as query indices [[1; 2]] and target indices
    [[0; 1]]; [main] reports the single pair [(0, 1)], the cell of
    [(q0, t1)], which the solver did not select, and reports neither
    selected cell. *)
Theorem C1_double_swap_on_transpose :
  let lsa := ReferenceSolver.linear_sum_assignment in
  let p := Hungarian.build_cost_matrix sample_merged in
  Hungarian.queries p = ["q0"; "q1"; "q2"]%string ∧
  Hungarian.targets p = ["t0"; "t1"]%string ∧
  lsa (Hungarian.zip_star (Hungarian.cost p)) = ([0; 1], [1; 2]) ∧
  Hungarian.solve_hungarian lsa (Hungarian.cost p) true = ([1; 2], [0; 1], true) ∧
  (λ x : nat * nat * Hungarian.merged_rec, x.1)
    <$> Hungarian.chosen_of_merged lsa sample_merged = [(0, 1)] ∧
  ((0, 1) ∉ zip [1; 2] [0; 1]) ∧
  (∀ x, x ∈ Hungarian.chosen_of_merged lsa sample_merged →
        x.1 ≠ (1, 0) ∧ x.1 ≠ (2, 1)).
Proof.
  intros lsa p.
  assert ((λ x : nat * nat * Hungarian.merged_rec, x.1)
            <$> Hungarian.chosen_of_merged lsa sample_merged = [(0, 1)]) as Hch
    by (vm_compute; reflexivity).
  split; [vm_compute; reflexivity|].
  split; [vm_compute; reflexivity|].
  split; [vm_compute; reflexivity|].
  split; [vm_compute; reflexivity|].
  revert Hch. generalize (Hungarian.chosen_of_merged lsa sample_merged) as ch.
  clear lsa p. intros ch Hch.
  split; [exact Hch|].
  split.
  - intros Hin. apply list_elem_of_In in Hin. simpl in Hin.
    destruct Hin as [?|[?|[]]]; congruence.
  - intros x Hx.
    assert (x.1 ∈ [(0, 1)]) as Hx1.
    { rewrite <- Hch. apply list_elem_of_fmap. exists x. split; [reflexivity|exact Hx]. }
    apply list_elem_of_singleton in Hx1. rewrite Hx1. split; congruence.
Qed.

(** ** GroupAggregator *)

Section aggregator.
Import GroupAggregator.

Lemma finite_values_Fin (vals : list Qc) : finite_values (Fin <$> vals) = vals.
Proof. induction vals as [|v vals IH]; [done|]. simpl. by f_equal. Qed.

Lemma Qc_min_spec x y :
  (Qc_min x y = x ∨ Qc_min x y = y) ∧ (Qc_min x y ≤ x)%Qc ∧ (Qc_min x y ≤ y)%Qc.
Proof.
  unfold Qc_min. case_bool_decide as H.
  - split; [by right|]. split; [by apply Qclt_le_weak|apply Qcle_refl].
  - split; [by left|]. split; [apply Qcle_refl|by apply Qcnot_lt_le].
Qed.

Lemma foldl_Qc_min_spec (q : Qc) (qs : list Qc) :
  foldl Qc_min q qs ∈ q :: qs ∧ ∀ v, v ∈ q :: qs → (foldl Qc_min q qs ≤ v)%Qc.
Proof.
  revert q. induction qs as [|x qs IH]; intros q; simpl.
  { split; [by left|]. intros v ->%list_elem_of_singleton. apply Qcle_refl. }
  destruct (IH (Qc_min q x)) as [Hin Hle].
  destruct (Qc_min_spec q x) as (Hor & Hq & Hx).
  split.
  - apply elem_of_cons in Hin as [->|Hin].
    + destruct Hor as [->| ->]; [by left|right; by left].
    + right. by right.
  - intros v Hv.
    assert (foldl Qc_min (Qc_min q x) qs ≤ Qc_min q x)%Qc as Hlo
      by (apply Hle; by left).
    apply elem_of_cons in Hv as [->|[->|Hv]%elem_of_cons].
    + by eapply Qcle_trans.
    + by eapply Qcle_trans.
    + apply Hle. by right.
Qed.

Lemma series_min_Fin (vals : list Qc) :
  vals ≠ [] →
  ∃ lo, series_min (Fin <$> vals) = Fin lo ∧ lo ∈ vals ∧ ∀ v, v ∈ vals → (lo ≤ v)%Qc.
Proof.
  intros Hne. unfold series_min. rewrite finite_values_Fin.
  destruct vals as [|q qs]; [done|].
  destruct (foldl_Qc_min_spec q qs) as [Hin Hle]. by eexists.
Qed.

Lemma result_at_set_result (results : results_dict) a b v :
  result_at (set_result results a b v) a b = v.
Proof.
  unfold result_at, set_result. rewrite lookup_insert_eq. simpl.
  by rewrite lookup_insert_eq.
Qed.

Lemma fdiv_pos x (m : Z) :
  (0 < m)%Z → fdiv (Fin x) (Fin (Qc_of_Z m)) = Fin (x / Qc_of_Z m)%Qc.
Proof.
  intros Hm. simpl. rewrite bool_decide_false; [done|].
  rewrite <- Z2Qc_inj_0. intros ?%Z2Qc_inj. lia.
Qed.

Lemma speciesSimilarity_enough (m : Z) (vals : list Qc) :
  (0 < m)%Z → (m ≤ Z.of_nat (length vals))%Z →
  speciesSimilarity m (Fin <$> vals) = Fin (Qc_sum vals / Qc_of_Z m)%Qc.
Proof.
  intros Hm Hobs. unfold speciesSimilarity. rewrite length_fmap.
  rewrite bool_decide_false by lia.
  unfold series_sum. rewrite finite_values_Fin. by apply fdiv_pos.
Qed.

Lemma speciesSimilarity_padded (m : Z) (vals : list Qc) :
  (0 < Z.of_nat (length vals) < m)%Z →
  ∃ lo, lo ∈ vals ∧ (∀ v, v ∈ vals → (lo ≤ v)%Qc) ∧
    speciesSimilarity m (Fin <$> vals)
    = Fin ((Qc_sum vals + Qc_of_Z (m - Z.of_nat (length vals)) * lo)
           / Qc_of_Z m)%Qc.
Proof.
  intros Hobs. unfold speciesSimilarity. rewrite length_fmap.
  rewrite bool_decide_true by lia.
  destruct (series_min_Fin vals) as (lo & Hmin & Hin & Hle).
  { intros ->. simpl in Hobs. lia. }
  exists lo. split; [done|]. split; [done|].
  rewrite Hmin. unfold series_sum. rewrite finite_values_Fin. simpl fmul. simpl fadd.
  apply fdiv_pos. lia.
Qed.

End aggregator.

(** C5.  For a file of two different species with entity counts [na] and
    [nb], [minMatches = min na nb > 0] and chosen records whose averaged
    identities are the numbers [vals]: with at least [minMatches] records
    the similarity stored for the pair is their sum over [minMatches]; with
    fewer (but at least one) it is the sum plus the shortfall times the
    least of them, over [minMatches].  For a file of one species with
    itself the stored value is 100, whatever the file holds.  With counts 3
    and 2 and one record of identity 80 the similarity is 80. *)
Theorem C5_species_similarity :
  (∀ (seq_count : gmap string Z) (results : gmap string (gmap string float))
     (f : GroupAggregator.hungarian_csv) (na nb : Z) (vals : list Qc),
     let a := GroupAggregator.species_a f in
     let b := GroupAggregator.species_b f in
     let min_matches := Z.min na nb in
     let observed := Z.of_nat (length vals) in
     let sim := GroupAggregator.result_at
                  (GroupAggregator.process_file seq_count results f) a b in
     a ≠ b → seq_count !! a = Some na → seq_count !! b = Some nb →
     GroupAggregator.avg_pident_col f = Some (Fin <$> vals) →
     (0 < min_matches)%Z →
     ((min_matches ≤ observed)%Z →
        sim = Fin (Qc_sum vals / Qc_of_Z min_matches)%Qc) ∧
     ((0 < observed < min_matches)%Z →
        ∃ lo, lo ∈ vals ∧ (∀ v, v ∈ vals → (lo ≤ v)%Qc) ∧
          sim = Fin ((Qc_sum vals + Qc_of_Z (min_matches - observed) * lo)
                     / Qc_of_Z min_matches)%Qc)) ∧
  (∀ (seq_count : gmap string Z) (results : gmap string (gmap string float))
     (f : GroupAggregator.hungarian_csv),
     GroupAggregator.species_a f = GroupAggregator.species_b f →
     GroupAggregator.result_at
       (GroupAggregator.process_file seq_count results f)
       (GroupAggregator.species_a f) (GroupAggregator.species_b f)
     = Fin hundred) ∧
  GroupAggregator.result_at
    (GroupAggregator.process_file sample_counts ∅ (csv_of "A" "B" [80%Z]))
    "A" "B" = Fin (Qc_of_Z 80).
Proof.
  split; [|split].
  - intros seq_count results f na nb vals a b min_matches observed sim
      Hab Hna Hnb Hcol Hmin.
    assert (sim = GroupAggregator.speciesSimilarity min_matches (Fin <$> vals)) as ->.
    { unfold sim, GroupAggregator.process_file. fold a b.
      rewrite bool_decide_false by done. rewrite Hna, Hnb, Hcol.
      apply result_at_set_result. }
    split.
    + intros Hobs. by apply speciesSimilarity_enough.
    + intros Hobs. by apply speciesSimilarity_padded.
  - intros seq_count results f Hab. unfold GroupAggregator.process_file.
    rewrite bool_decide_true by done. apply result_at_set_result.
  - apply (bool_decide_unpack _). vm_compute. exact I.
Qed.

Lemma C5_species_similarity_witness :
  let f := csv_of "A" "B" [80%Z; 70%Z; 90%Z] in
  GroupAggregator.species_a f ≠ GroupAggregator.species_b f ∧
  sample_counts !! GroupAggregator.species_a f = Some 3%Z ∧
  sample_counts !! GroupAggregator.species_b f = Some 2%Z ∧
  (0 < Z.min 3 2)%Z ∧ (Z.min 3 2 ≤ Z.of_nat 3)%Z ∧
  GroupAggregator.result_at (GroupAggregator.process_file sample_counts ∅ f) "A" "B"
  = Fin (Qc_sum [Qc_of_Z 80; Qc_of_Z 70; Qc_of_Z 90] / Qc_of_Z (Z.min 3 2))%Qc.
Proof.
  intros f.
  assert (GroupAggregator.species_a f ≠ GroupAggregator.species_b f) as H1
    by (simpl; discriminate).
  assert (sample_counts !! GroupAggregator.species_a f = Some 3%Z) as H2
    by (vm_compute; reflexivity).
  assert (sample_counts !! GroupAggregator.species_b f = Some 2%Z) as H3
    by (vm_compute; reflexivity).
  assert (0 < Z.min 3 2)%Z as H4 by lia.
  assert (Z.min 3 2 ≤ Z.of_nat 3)%Z as H5 by lia.
  split_and!; [exact H1|exact H2|exact H3|exact H4|exact H5|].
  exact (proj1 (proj1 C5_species_similarity sample_counts ∅ f 3%Z 2%Z
                  [Qc_of_Z 80; Qc_of_Z 70; Qc_of_Z 90] H1 H2 H3 eq_refl H4) H5).
Defined.

Lemma speciesSimilarity_empty (m : Z) :
  (0 < m)%Z → GroupAggregator.speciesSimilarity m [] = NaN.
Proof.
  intros Hm. unfold GroupAggregator.speciesSimilarity. simpl length.
  by rewrite bool_decide_true by lia.
Qed.

(** C2 (the code departs from the claim).  An assignment file for the
    species [A] (three sequences) and [B] (two sequences) that holds no
    record: the script computes NaN, stores it under [results[A][B]] as it
    stores any other similarity, and the matrix it writes has the pair
    [(A, B)] among its cells with the value NaN. *)
Theorem C2_empty_assignment_yields_nan :
  let files := [csv_of "A" "B" []] in
  let results := GroupAggregator.all_results sample_counts files in
  let M := GroupAggregator.script sample_counts files in
  GroupAggregator.speciesSimilarity (Z.min 3 2) [] = NaN ∧
  results !! "A"%string ≫= (λ row, row !! "B"%string) = Some NaN ∧
  "A"%string ∈ GroupAggregator.index M ∧
  "B"%string ∈ GroupAggregator.columns M ∧
  GroupAggregator.loc M "A" "B" = NaN.
Proof.
  intros files results M.
  split; [vm_compute; reflexivity|].
  split; [vm_compute; reflexivity|].
  split.
  { apply (bool_decide_unpack _). vm_compute. exact I. }
  split.
  { apply (bool_decide_unpack _). vm_compute. exact I. }
  vm_compute. reflexivity.
Qed.

Section final_matrix.
Import GroupAggregator.

Lemma result_at_defined (results : results_dict) r c :
  isna (result_at results r c) = false →
  r ∈ index (from_dict results) ∧ c ∈ columns (from_dict results).
Proof.
  unfold result_at. destruct (results !! r) as [row|] eqn:Hr; simpl; [|done].
  destruct (row !! c) as [v|] eqn:Hc; simpl; [|done]. intros _. split.
  - apply elem_of_dom. by eexists.
  - apply elem_of_union_list. exists (dom row). split.
    + apply list_elem_of_fmap. exists (r, row). split; [done|].
      by apply elem_of_map_to_list.
    + apply elem_of_dom. by eexists.
Qed.

Lemma loc_from_dict (results : results_dict) r c :
  loc (from_dict results) r c = result_at results r c.
Proof.
  unfold loc. case_bool_decide as Hin; [done|].
  destruct (isna (result_at results r c)) eqn:Hna.
  - by destruct (result_at results r c).
  - by apply result_at_defined in Hna.
Qed.

Lemma loc_transpose (d : frame) r c : loc (transpose d) r c = loc d c r.
Proof.
  unfold loc, transpose. simpl.
  case_bool_decide as H1; case_bool_decide as H2; try done; tauto.
Qed.

Lemma similarity_matrix_labels (results : results_dict) :
  index (similarity_matrix results) = columns (similarity_matrix results).
Proof.
  unfold similarity_matrix. simpl. apply set_eq. intros x.
  rewrite !elem_of_union. tauto.
Qed.

Lemma similarity_matrix_loc (results : results_dict) r c :
  r ∈ index (similarity_matrix results) →
  c ∈ index (similarity_matrix results) →
  loc (similarity_matrix results) r c
  = if bool_decide (r = c) then Fin hundred
    else if isna (result_at results r c) then result_at results c r
         else result_at results r c.
Proof.
  intros Hr Hc. pose proof Hc as Hc'. rewrite similarity_matrix_labels in Hc'.
  unfold loc at 1. rewrite bool_decide_true by done.
  unfold similarity_matrix in *. simpl in *.
  case_bool_decide as Hrc.
  { rewrite bool_decide_true; [done|]. by destruct Hrc. }
  rewrite bool_decide_false by tauto.
  unfold loc at 1. simpl.
  rewrite bool_decide_true by (rewrite !elem_of_union in *; tauto).
  by rewrite loc_transpose, !loc_from_dict.
Qed.

End final_matrix.

(** C3, as the code has it.  The matrix written to file has the same row
    and column labels and every diagonal cell is 100.  Off the diagonal the
    cell [(A, B)] is the value computed for [(A, B)] when there is one, and
    otherwise the value computed for [(B, A)].  Hence the matrix is
    symmetric whenever no pair of species has two defined values that
    differ; two different defined values are both kept. *)
Theorem C3_final_matrix (results : gmap string (gmap string float)) :
  let M := GroupAggregator.similarity_matrix results in
  let res := GroupAggregator.result_at results in
  GroupAggregator.index M = GroupAggregator.columns M ∧
  (∀ A, A ∈ GroupAggregator.index M → GroupAggregator.loc M A A = Fin hundred) ∧
  (∀ A B, A ∈ GroupAggregator.index M → B ∈ GroupAggregator.index M → A ≠ B →
     GroupAggregator.loc M A B = if isna (res A B) then res B A else res A B) ∧
  ((∀ A B, isna (res A B) = false → isna (res B A) = false → res A B = res B A) →
   ∀ A B, A ∈ GroupAggregator.index M → B ∈ GroupAggregator.index M →
     GroupAggregator.loc M A B = GroupAggregator.loc M B A).
Proof.
  intros M res. split; [apply similarity_matrix_labels|]. split; [|split].
  - intros A HA. unfold M. rewrite similarity_matrix_loc by done.
    by rewrite bool_decide_true.
  - intros A B HA HB Hne. unfold M. rewrite similarity_matrix_loc by done.
    by rewrite bool_decide_false.
  - intros Hcons A B HA HB. unfold M. rewrite !similarity_matrix_loc by done.
    destruct (decide (A = B)) as [->|Hne]; [done|].
    rewrite !bool_decide_false by done. fold res.
    destruct (isna (res A B)) eqn:HAB, (isna (res B A)) eqn:HBA; try done.
    + destruct (res A B), (res B A); done.
    + symmetry. by apply Hcons.
Qed.

Lemma one_sided_results_consistent A B :
  isna (GroupAggregator.result_at one_sided_results A B) = false →
  isna (GroupAggregator.result_at one_sided_results B A) = false →
  GroupAggregator.result_at one_sided_results A B
  = GroupAggregator.result_at one_sided_results B A.
Proof.
  unfold GroupAggregator.result_at, one_sided_results.
  destruct (decide (A = "A"%string)) as [->|HA].
  - rewrite lookup_singleton_eq. simpl.
    destruct (decide (B = "A"%string)) as [->|HB].
    + rewrite lookup_singleton_ne; [done|discriminate].
    + rewrite (lookup_singleton_ne "A"%string B) by done. simpl. done.
  - rewrite (lookup_singleton_ne "A"%string A) by done. simpl. done.
Qed.

Lemma C3_final_matrix_witness :
  let M := GroupAggregator.similarity_matrix one_sided_results in
  "A"%string ∈ GroupAggregator.index M ∧ "B"%string ∈ GroupAggregator.index M ∧
  GroupAggregator.loc M "A" "B" = GroupAggregator.loc M "B" "A".
Proof.
  intros M.
  assert ("A"%string ∈ GroupAggregator.index M) as HA.
  { apply (bool_decide_unpack _). vm_compute. exact I. }
  assert ("B"%string ∈ GroupAggregator.index M) as HB.
  { apply (bool_decide_unpack _). vm_compute. exact I. }
  split; [exact HA|]. split; [exact HB|].
  exact (proj2 (proj2 (proj2 (C3_final_matrix one_sided_results)))
           one_sided_results_consistent "A"%string "B"%string HA HB).
Defined.

(** The claim of C3 fails as stated: with a file for [A] against [B]
    (similarity 80) and a file for [B] against [A] (similarity 70), both
    values are defined, the fill changes neither, and the written matrix
    has 80 at [(A, B)] and 70 at [(B, A)]. *)
Lemma C3_symmetry_counterexample :
  let M := GroupAggregator.script even_counts
             [csv_of "A" "B" [80%Z; 80%Z]; csv_of "B" "A" [70%Z; 70%Z]] in
  ¬ (∀ A B, A ∈ GroupAggregator.index M → B ∈ GroupAggregator.index M →
       GroupAggregator.loc M A B = GroupAggregator.loc M B A).
Proof.
  intros M Hsym.
  assert ("A"%string ∈ GroupAggregator.index M) as HA.
  { apply (bool_decide_unpack _). vm_compute. exact I. }
  assert ("B"%string ∈ GroupAggregator.index M) as HB.
  { apply (bool_decide_unpack _). vm_compute. exact I. }
  specialize (Hsym "A"%string "B"%string HA HB).
  apply (bool_decide_pack _) in Hsym. vm_compute in Hsym. exact Hsym.
Qed.

(** * Further properties of the code *)

(** ** Symmetrisation: what the written matrix looks like *)

(** X1.  Whatever the assembled [n] by [n] matrix holds, the matrix after
    the symmetrisation is symmetric: the cells [(a, b)] and [(b, a)] are
    equal. *)
Theorem symmetrize_is_symmetric n (valid : list bool) (M : matrix) a b :
  has_shape n n M → a < n → b < n →
  mget (Tanimoto.symmetrize valid M) a b = mget (Tanimoto.symmetrize valid M) b a.
Proof.
  intros HM Ha Hb. destruct (symmetrize_cells n valid M HM) as [_ Hcells].
  rewrite !Hcells by done.
  destruct (decide (a = b)) as [->|Hne].
  - by rewrite decide_True.
  - rewrite decide_False by congruence. apply sym_cell_comm.
Qed.

Lemma symmetrize_is_symmetric_witness :
  has_shape 3 3 sample_matrix ∧ 0 < 3 ∧ 2 < 3 ∧
  mget (Tanimoto.symmetrize sample_valid sample_matrix) 0 2
  = mget (Tanimoto.symmetrize sample_valid sample_matrix) 2 0.
Proof.
  assert (has_shape 3 3 sample_matrix) as HM by (split; [reflexivity|repeat constructor]).
  assert (0 < 3) as H0 by lia. assert (2 < 3) as H2 by lia.
  split; [exact HM|]. split; [exact H0|]. split; [exact H2|].
  exact (symmetrize_is_symmetric 3 sample_valid sample_matrix 0 2 HM H0 H2).
Defined.

(** X2.  Off the diagonal the symmetrisation neither invents nor loses a
    value: a cell of the result is undefined exactly when both mirrored
    cells of the input are, and a pair of mirrored cells that already agree
    keeps its value. *)
Theorem symmetrize_definedness n (valid : list bool) (M : matrix) a b :
  has_shape n n M → a < n → b < n → a ≠ b →
  isna (mget (Tanimoto.symmetrize valid M) a b)
    = isna (mget M a b) && isna (mget M b a) ∧
  (mget M a b = mget M b a → mget (Tanimoto.symmetrize valid M) a b = mget M a b).
Proof.
  intros HM Ha Hb Hne. destruct (symmetrize_cells n valid M HM) as [_ Hcells].
  rewrite !Hcells by done. rewrite decide_False by done. split.
  - by destruct (mget M a b), (mget M b a).
  - intros ->. apply sym_cell_diag.
Qed.

Lemma symmetrize_definedness_witness :
  has_shape 3 3 sample_matrix ∧ 0 < 3 ∧ 1 < 3 ∧ 0 ≠ 1 ∧
  isna (mget (Tanimoto.symmetrize sample_valid sample_matrix) 0 1)
    = isna (mget sample_matrix 0 1) && isna (mget sample_matrix 1 0).
Proof.
  assert (has_shape 3 3 sample_matrix) as HM by (split; [reflexivity|repeat constructor]).
  assert (0 < 3) as H0 by lia. assert (1 < 3) as H1 by lia.
  assert (0 ≠ 1) as Hne by lia.
  split; [exact HM|]. split; [exact H0|]. split; [exact H1|]. split; [exact Hne|].
  exact (proj1 (symmetrize_definedness 3 sample_valid sample_matrix 0 1 HM H0 H1 Hne)).
Defined.

(** ** Batches tile the index range *)

Lemma concat_batch_ranges n bs c :
  concat ((λ k, seq (0 + k * bs) (min (0 + k * bs + bs) n - (0 + k * bs))) <$> seq 0 c)
  = seq 0 (min (c * bs) n).
Proof.
  induction c as [|c IH]; [done|].
  rewrite seq_S, fmap_app, concat_app, IH. simpl. rewrite app_nil_r.
  replace (min (bs + c * bs) n) with
    (min (c * bs) n + (min (c * bs + bs) n - c * bs)) by lia.
  rewrite seq_app. f_equal. simpl.
  destruct (decide (c * bs ≤ n)) as [Hle|Hgt].
  - by rewrite (Nat.min_l (c * bs) n) by done.
  - by replace (min (c * bs + bs) n - c * bs) with 0 by lia.
Qed.

Lemma make_batches_concat n bs :
  0 < bs →
  concat ((λ b : nat * nat, seq b.1 (b.2 - b.1)) <$> Tanimoto.make_batches n bs)
    = seq 0 n.
Proof.
  intros Hbs. unfold Tanimoto.make_batches, py_range. rewrite <- !list_fmap_compose.
  etrans; [apply (concat_batch_ranges n bs)|]. f_equal.
  pose proof (Nat.div_mod_eq (n - 0 + bs - 1) bs).
  pose proof (Nat.mod_upper_bound (n - 0 + bs - 1) bs). nia.
Qed.

(** X3.  For a positive batch size [make_batches] cuts [0..n) into
    consecutive half-open ranges: listing the indices of the batches in
    order gives [0, 1, ..., n-1], every batch holds between one and
    [batch_size] indices, and there are [ceil (n / batch_size)] batches
    (none when [n = 0]). *)
Theorem make_batches_tiles n bs :
  0 < bs →
  concat ((λ b : nat * nat, seq b.1 (b.2 - b.1)) <$> Tanimoto.make_batches n bs)
    = seq 0 n ∧
  Forall (λ b : nat * nat, b.1 < b.2 ≤ n ∧ b.2 - b.1 ≤ bs) (Tanimoto.make_batches n bs) ∧
  length (Tanimoto.make_batches n bs) = (n + bs - 1) / bs.
Proof.
  intros Hbs. split; [|split].
  - by apply make_batches_concat.
  - apply Forall_forall. intros b Hb.
    apply elem_of_make_batches in Hb as (k & Hk & ->); [|done]. simpl. lia.
  - unfold Tanimoto.make_batches. rewrite length_fmap, py_range_length.
    by rewrite Nat.sub_0_r.
Qed.

Lemma make_batches_tiles_witness :
  0 < 2 ∧ Tanimoto.make_batches 5 2 = [(0, 2); (2, 4); (4, 5)] ∧
  concat ((λ b : nat * nat, seq b.1 (b.2 - b.1)) <$> Tanimoto.make_batches 5 2)
    = seq 0 5.
Proof.
  assert (0 < 2) as H by lia.
  split; [exact H|]. split; [reflexivity|].
  exact (proj1 (make_batches_tiles 5 2 H)).
Defined.

(** ** BlockComputer: the cells of a block *)

Lemma valid_indices_spec (tvalid : list bool) j :
  j ∈ Tanimoto.valid_indices tvalid ↔ tvalid !! j = Some true.
Proof.
  unfold Tanimoto.valid_indices. rewrite list_elem_of_omap. split.
  - intros ([j' ok] & Hin & Hok). simpl in Hok. destruct ok; [|done].
    simplify_eq. by apply elem_of_enumerate.
  - intros Hj. exists (j, true). split; [by apply elem_of_enumerate|done].
Qed.

Lemma foldl_insert_by_key (l : list (nat * nat)) (v h : nat → float)
    (row : list float) j' :
  (∀ k j, (k, j) ∈ l → v k = h j ∧ j < length row) →
  foldl (λ (row' : list float) (kj : nat * nat), <[kj.2 := v kj.1]> row') row l !!! j'
  = if decide (j' ∈ l.*2) then h j' else row !!! j'.
Proof.
  revert row. induction l as [|[k j] l IH]; intros row Hl; simpl.
  { done. }
  destruct (Hl k j) as [Hv Hj]; [by left|].
  rewrite IH.
  2:{ intros k' j0 Hin. rewrite length_insert. apply Hl. by right. }
  destruct (decide (j' ∈ l.*2)) as [Hin|Hnin].
  { rewrite decide_True; [done|by right]. }
  rewrite list_lookup_total_insert.
  destruct (decide (j = j')) as [->|Hne].
  - rewrite decide_True by done. rewrite decide_True; [done|by left].
  - rewrite decide_False by (intros [? _]; done).
    rewrite decide_False; [done|]. intros [?|?]%elem_of_cons; done.
Qed.

Lemma py_slice_lookup_total {A} `{!Inhabited A} (l : list A) s e k :
  k < e - s → py_slice l s e !!! k = l !!! (s + k).
Proof.
  intros Hk. unfold py_slice.
  by rewrite lookup_total_take_lt, lookup_total_drop.
Qed.

Section block_cells.
Import Tanimoto.
Context {FP : Type}.
Variable sim : option FP → option FP → float.
Variable BulkTanimotoSimilarity : option FP → list (option FP) → list float.
Hypothesis Hbulk : ∀ q ts, BulkTanimotoSimilarity q ts = sim q <$> ts.

Lemma sims_valid_of_fmap (qfp : option FP) (ts : list (option FP)) :
  sims_valid_of FP BulkTanimotoSimilarity qfp ts = sim qfp <$> ts.
Proof. unfold sims_valid_of. destruct ts; [done|apply Hbulk]. Qed.

Lemma block_row_lookup (tfps : list (option FP)) (tvalid : list bool)
    (qfp : option FP) (ok_q : bool) j :
  length tfps = length tvalid → j < length tfps →
  block_row FP BulkTanimotoSimilarity tfps (valid_indices tvalid)
    ((λ j', tfps !!! j') <$> valid_indices tvalid) qfp ok_q !!! j
  = if ok_q && (tvalid !!! j) then sim qfp (tfps !!! j) else NaN.
Proof.
  intros Hlen Hj. unfold block_row. destruct ok_q; simpl.
  2:{ by rewrite lookup_total_replicate_2. }
  rewrite sims_valid_of_fmap.
  rewrite (foldl_insert_by_key _
    (λ k, (sim qfp <$> ((λ j', tfps !!! j') <$> valid_indices tvalid)) !!! k)
    (λ j', sim qfp (tfps !!! j'))).
  - unfold enumerate. rewrite snd_zip by (by rewrite length_seq).
    destruct (lookup_lt_is_Some_2 tvalid j) as [ok Hok]; [lia|].
    rewrite (list_lookup_total_correct _ _ _ Hok).
    case_decide as Hin.
    + apply valid_indices_spec in Hin. by simplify_eq.
    + rewrite lookup_total_replicate_2 by done. destruct ok; [|done].
      exfalso. apply Hin. by apply valid_indices_spec.
  - intros k j0 Hkj. apply elem_of_enumerate in Hkj.
    split.
    + apply list_lookup_total_correct. by rewrite !list_lookup_fmap, Hkj.
    + rewrite length_replicate. apply list_elem_of_lookup_2 in Hkj.
      apply valid_indices_spec, lookup_lt_Some in Hkj. lia.
Qed.

Lemma compute_block_lookup (qfps tfps : list (option FP)) (qvalid tvalid : list bool) :
  length qfps = length qvalid → length tfps = length tvalid →
  ∀ i j, i < length qfps → j < length tfps →
    mget (compute_block FP BulkTanimotoSimilarity qfps qvalid tfps tvalid) i j
    = if (qvalid !!! i) && (tvalid !!! j) then sim (qfps !!! i) (tfps !!! j)
      else NaN.
Proof.
  intros Hq Ht i j Hi Hj. unfold mget, compute_block.
  assert (zip qfps qvalid !! i = Some (qfps !!! i, qvalid !!! i)) as Hz.
  { apply lookup_zip_with_Some. eexists _, _. split; [done|].
    split; apply list_lookup_lookup_total_lt; lia. }
  change (map ?f ?l) with (f <$> l).
  erewrite (list_lookup_total_correct (_ <$> zip qfps qvalid)).
  2:{ rewrite list_lookup_fmap, Hz. done. }
  simpl. by apply block_row_lookup.
Qed.

(** X4.  With a bulk scorer that scores each target on its own, the cell
    [(i, j)] of the block [compute_block] returns is the score of query [i]
    against target [j] when both are valid and NaN as soon as one of them
    is not; the block has one row per query and one column per target. *)
Theorem compute_block_cells (qfps tfps : list (option FP)) (qvalid tvalid : list bool) :
  length qfps = length qvalid → length tfps = length tvalid →
  has_shape (length qfps) (length tfps)
    (compute_block FP BulkTanimotoSimilarity qfps qvalid tfps tvalid) ∧
  ∀ i j, i < length qfps → j < length tfps →
    mget (compute_block FP BulkTanimotoSimilarity qfps qvalid tfps tvalid) i j
    = if (qvalid !!! i) && (tvalid !!! j) then sim (qfps !!! i) (tfps !!! j)
      else NaN.
Proof.
  intros Hq Ht. split; [by apply compute_block_shape|].
  by apply compute_block_lookup.
Qed.

End block_cells.

Lemma sample_bulk_elementwise q ts : sample_bulk q ts = sample_sim q <$> ts.
Proof. done. Qed.

Lemma compute_block_cells_witness :
  (∀ q ts, sample_bulk q ts = sample_sim q <$> ts) ∧
  length [Some 1; None] = length [true; false] ∧
  length [Some 3; None; Some 5] = length [true; false; true] ∧
  has_shape 2 3
    (Tanimoto.compute_block nat sample_bulk [Some 1; None] [true; false]
       [Some 3; None; Some 5] [true; false; true]).
Proof.
  assert (length [Some 1; @None nat] = length [true; false]) as H1 by reflexivity.
  assert (length [Some 3; None; Some 5] = length [true; false; true]) as H2
    by reflexivity.
  split; [exact sample_bulk_elementwise|]. split; [exact H1|]. split; [exact H2|].
  exact (proj1 (compute_block_cells sample_sim sample_bulk sample_bulk_elementwise
                  [Some 1; None] [Some 3; None; Some 5]
                  [true; false] [true; false; true] H1 H2)).
Defined.

(** ** MatrixAssembler: the assembled matrix is the all-pairs matrix *)

Lemma hstack_row (ps : list matrix) (p : matrix) i (x : list float) :
  p !! i = Some x →
  Forall (λ q : matrix, i < length q) ps →
  hstack (p :: ps) !! i = Some (x ++ concat ((λ q : matrix, q !!! i) <$> ps)).
Proof.
  simpl. revert p x. induction ps as [|q ps IH]; intros p x Hp Hps; simpl.
  { by rewrite app_nil_r. }
  apply Forall_cons in Hps as [Hq Hps].
  destruct (lookup_lt_is_Some_2 q i Hq) as [y Hy].
  rewrite (IH (zip_with app p q) (x ++ y)); [|by rewrite lookup_zip_with, Hp, Hy|done].
  by rewrite (list_lookup_total_correct _ _ _ Hy), app_assoc.
Qed.

Section all_pairs.
Import Tanimoto.
Context {FP : Type}.
Variable sim : option FP → option FP → float.
Variable BulkTanimotoSimilarity : option FP → list (option FP) → list float.
Hypothesis Hbulk : ∀ q ts, BulkTanimotoSimilarity q ts = sim q <$> ts.
Implicit Types r : run FP.

(** A row of the block of the row batch [b] and the column batch [c]. *)
Lemma block_row_of_batches r (b c : nat * nat) i :
  b.2 ≤ n_of FP r → c.2 ≤ n_of FP r → i < b.2 - b.1 →
  compute_block FP BulkTanimotoSimilarity
    (py_slice (fps FP r) b.1 b.2) (py_slice (valid FP r) b.1 b.2)
    (py_slice (fps FP r) c.1 c.2) (py_slice (valid FP r) c.1 c.2) !!! i
  = all_pairs_cell sim r (b.1 + i) <$> seq c.1 (c.2 - c.1).
Proof.
  intros Hb Hc Hi.
  assert (length (py_slice (fps FP r) b.1 b.2) = b.2 - b.1) as Hqlen
    by (by apply py_slice_length).
  assert (length (py_slice (valid FP r) b.1 b.2) = b.2 - b.1) as Hqvlen
    by (apply py_slice_length; by rewrite valid_length).
  assert (length (py_slice (fps FP r) c.1 c.2) = c.2 - c.1) as Htlen
    by (by apply py_slice_length).
  assert (length (py_slice (valid FP r) c.1 c.2) = c.2 - c.1) as Htvlen
    by (apply py_slice_length; by rewrite valid_length).
  assert (has_shape (length (py_slice (fps FP r) b.1 b.2))
            (length (py_slice (fps FP r) c.1 c.2))
            (compute_block FP BulkTanimotoSimilarity
               (py_slice (fps FP r) b.1 b.2) (py_slice (valid FP r) b.1 b.2)
               (py_slice (fps FP r) c.1 c.2) (py_slice (valid FP r) c.1 c.2)))
    as Hshape by (apply compute_block_shape; congruence).
  pose proof (compute_block_lookup sim BulkTanimotoSimilarity Hbulk
                (py_slice (fps FP r) b.1 b.2) (py_slice (fps FP r) c.1 c.2)
                (py_slice (valid FP r) b.1 b.2) (py_slice (valid FP r) c.1 c.2))
    as Hcells.
  assert (length (py_slice (fps FP r) b.1 b.2)
          = length (py_slice (valid FP r) b.1 b.2)) as Hlq by congruence.
  assert (length (py_slice (fps FP r) c.1 c.2)
          = length (py_slice (valid FP r) c.1 c.2)) as Hlt by congruence.
  specialize (Hcells Hlq Hlt).
  rewrite Hqlen, Htlen in Hshape, Hcells.
  pose proof (has_shape_lookup _ _ _ i Hshape Hi) as Hrowlen.
  apply (list_eq_same_length _ _ (c.2 - c.1));
    [by rewrite length_fmap, length_seq|done|].
  intros j x y Hj Hx Hy.
  specialize (Hcells i j Hi Hj). unfold mget in Hcells.
  rewrite (list_lookup_total_correct _ _ _ Hx) in Hcells.
  rewrite list_lookup_fmap, lookup_seq_lt in Hy by done. simpl in Hy.
  simplify_eq. unfold all_pairs_cell.
  by rewrite !py_slice_lookup_total by done.
Qed.

Lemma concat_fmap_pieces (cs : list (nat * nat)) (P : nat * nat → list float)
    (g : nat → float) :
  (∀ c, c ∈ cs → P c = g <$> seq c.1 (c.2 - c.1)) →
  concat (P <$> cs) = g <$> concat ((λ c : nat * nat, seq c.1 (c.2 - c.1)) <$> cs).
Proof.
  induction cs as [|c cs IH]; intros Hcs; [done|].
  rewrite !fmap_cons. simpl. rewrite fmap_app. f_equal.
  - apply Hcs. by left.
  - apply IH. intros c' Hc'. apply Hcs. by right.
Qed.

Lemma full_row_block_all_pairs r (b : nat * nat) i :
  0 < col_batch FP r → b.1 < b.2 → b.2 ≤ n_of FP r → i < b.2 - b.1 →
  full_row_block FP BulkTanimotoSimilarity r b !!! i
  = all_pairs_cell sim r (b.1 + i) <$> seq 0 (n_of FP r).
Proof.
  intros Hcb Hb1 Hb2 Hi. unfold full_row_block.
  set (F := λ c : nat * nat, compute_block FP BulkTanimotoSimilarity
              (py_slice (fps FP r) b.1 b.2) (py_slice (valid FP r) b.1 b.2)
              (py_slice (fps FP r) c.1 c.2) (py_slice (valid FP r) c.1 c.2)).
  change (map F (col_batches FP r)) with (F <$> col_batches FP r).
  pose proof (make_batches_concat (n_of FP r) (col_batch FP r) Hcb) as Htile.
  assert (∀ c, c ∈ col_batches FP r → c.1 < c.2 ∧ c.2 ≤ n_of FP r) as Hcols
    by (intros c Hc; by apply make_batches_bounds in Hc).
  assert (∀ c, c ∈ col_batches FP r → i < length (F c)) as Hrows.
  { intros c Hc. destruct (Hcols c Hc) as [Hc1 Hc2]. unfold F.
    destruct (compute_block_shape BulkTanimotoSimilarity
                (py_slice (fps FP r) b.1 b.2) (py_slice (fps FP r) c.1 c.2)
                (py_slice (valid FP r) b.1 b.2) (py_slice (valid FP r) c.1 c.2))
      as [-> _].
    - rewrite !py_slice_length; [done|by rewrite valid_length|done].
    - rewrite py_slice_length by done. lia. }
  assert (∀ c, c ∈ col_batches FP r →
            F c !!! i = all_pairs_cell sim r (b.1 + i) <$> seq c.1 (c.2 - c.1))
    as Hpieces.
  { intros c Hc. destruct (Hcols c Hc) as [Hc1 Hc2].
    by apply block_row_of_batches. }
  rewrite <- Htile. fold (col_batches FP r).
  rewrite <- (concat_fmap_pieces _ (λ c, F c !!! i)) by done.
  destruct (col_batches FP r) as [|c0 cs] eqn:Hcs.
  { destruct (make_batches_cover (n_of FP r) (col_batch FP r) 0) as [Hin0 _];
      [done|lia|]. unfold col_batches in Hcs. rewrite Hcs in Hin0.
    by apply elem_of_nil in Hin0. }
  apply list_lookup_total_correct. rewrite fmap_cons.
  rewrite (hstack_row _ _ i (F c0 !!! i)).
  - by rewrite <- list_fmap_compose.
  - apply list_lookup_lookup_total_lt. apply Hrows. by left.
  - apply Forall_fmap, Forall_forall. intros c Hc. simpl. apply Hrows. by right.
Qed.

Lemma global_row_all_pairs r i :
  0 < row_batch FP r → 0 < col_batch FP r → i < n_of FP r →
  global_row FP BulkTanimotoSimilarity r i
  = all_pairs_cell sim r i <$> seq 0 (n_of FP r).
Proof.
  intros Hrb Hcb Hi. unfold global_row.
  destruct (make_batches_cover (n_of FP r) (row_batch FP r) i Hrb Hi) as [Hin Hcov].
  apply make_batches_bounds in Hin as [Hb1 Hb2]; [|done].
  rewrite full_row_block_all_pairs by (done || lia).
  f_equal. f_equal. lia.
Qed.

End all_pairs.

(** X5.  With a bulk scorer that scores each target on its own, positive
    batch sizes and any number of ranks, the matrix assembled on rank 0 is
    the all-pairs matrix: cell [(i, j)] is the score of entity [i] against
    entity [j] when both have a fingerprint and NaN otherwise, whatever the
    row batches, the column batches and the number of ranks are. *)
Theorem assembled_is_all_pairs {FP : Type}
    (sim : option FP → option FP → float)
    (BulkTanimotoSimilarity : option FP → list (option FP) → list float)
    (r : Tanimoto.run FP) (W : nat) :
  (∀ q ts, BulkTanimotoSimilarity q ts = sim q <$> ts) →
  0 < Tanimoto.row_batch FP r → 0 < Tanimoto.col_batch FP r → 1 ≤ W →
  Tanimoto.assemble FP BulkTanimotoSimilarity r W
  = Some ((λ i, all_pairs_cell sim r i <$> seq 0 (Tanimoto.n_of FP r))
            <$> seq 0 (Tanimoto.n_of FP r)).
Proof.
  intros Hbulk Hrb Hcb HW.
  rewrite (assemble_global BulkTanimotoSimilarity r W) by (done || lia).
  f_equal. apply list_fmap_ext. intros k i Hi.
  apply lookup_seq in Hi as [-> Hi]. by apply global_row_all_pairs.
Qed.

Lemma assembled_is_all_pairs_witness :
  (∀ q ts, sample_bulk q ts = sample_sim q <$> ts) ∧
  0 < Tanimoto.row_batch nat sample_run ∧ 0 < Tanimoto.col_batch nat sample_run ∧
  1 ≤ 3 ∧
  Tanimoto.assemble nat sample_bulk sample_run 3
  = Some ((λ i, all_pairs_cell sample_sim sample_run i
                  <$> seq 0 (Tanimoto.n_of nat sample_run))
            <$> seq 0 (Tanimoto.n_of nat sample_run)).
Proof.
  assert (0 < Tanimoto.row_batch nat sample_run) as H1 by (simpl; lia).
  assert (0 < Tanimoto.col_batch nat sample_run) as H2 by (simpl; lia).
  assert (1 ≤ 3) as H3 by lia.
  split; [exact sample_bulk_elementwise|].
  split; [exact H1|]. split; [exact H2|]. split; [exact H3|].
  exact (assembled_is_all_pairs sample_sim sample_bulk sample_run 3
           sample_bulk_elementwise H1 H2 H3).
Defined.

(** X6.  The matrix rank 0 writes, end to end: after assembly and
    symmetrisation the cell [(i, j)] is undefined as soon as entity [i] or
    entity [j] has no fingerprint; for two entities with fingerprints it is 1
    on the diagonal and, off the diagonal, the symmetrisation of the two
    directional scores, which is the score itself when the scorer is
    symmetric. *)
Theorem written_matrix_cells {FP : Type}
    (sim : option FP → option FP → float)
    (BulkTanimotoSimilarity : option FP → list (option FP) → list float)
    (r : Tanimoto.run FP) (W : nat) :
  (∀ q ts, BulkTanimotoSimilarity q ts = sim q <$> ts) →
  0 < Tanimoto.row_batch FP r → 0 < Tanimoto.col_batch FP r → 1 ≤ W →
  ∃ M, Tanimoto.assemble FP BulkTanimotoSimilarity r W = Some M ∧
    ∀ i j, i < Tanimoto.n_of FP r → j < Tanimoto.n_of FP r →
      let fi := Tanimoto.fps FP r !!! i in
      let fj := Tanimoto.fps FP r !!! j in
      mget (Tanimoto.symmetrize (Tanimoto.valid FP r) M) i j
      = (if bool_decide (is_Some fi) && bool_decide (is_Some fj)
         then if decide (i = j) then Fin 1%Qc
              else Tanimoto.sym_cell (sim fi fj) (sim fj fi)
         else NaN) ∧
      (sim fi fj = sim fj fi → is_Some fi → is_Some fj → i ≠ j →
       mget (Tanimoto.symmetrize (Tanimoto.valid FP r) M) i j = sim fi fj).
Proof.
  intros Hbulk Hrb Hcb HW.
  exists ((λ i, all_pairs_cell sim r i <$> seq 0 (Tanimoto.n_of FP r))
            <$> seq 0 (Tanimoto.n_of FP r)).
  split.
  { rewrite (assemble_global BulkTanimotoSimilarity r W) by (done || lia).
    f_equal. apply list_fmap_ext. intros k i Hi.
    apply lookup_seq in Hi as [-> Hi]. by apply global_row_all_pairs. }
  set (n := Tanimoto.n_of FP r).
  set (M := (λ i, all_pairs_cell sim r i <$> seq 0 n) <$> seq 0 n).
  assert (has_shape n n M) as HM.
  { split; [unfold M; by rewrite length_fmap, length_seq|].
    apply Forall_fmap, Forall_forall. intros i _. simpl.
    by rewrite length_fmap, length_seq. }
  assert (∀ i j, i < n → j < n → mget M i j = all_pairs_cell sim r i j) as Hget.
  { intros i j Hi Hj. unfold mget, M.
    erewrite (list_lookup_total_correct (_ <$> seq 0 n) i).
    2:{ rewrite list_lookup_fmap, lookup_seq_lt by done. done. }
    apply list_lookup_total_correct.
    by rewrite list_lookup_fmap, lookup_seq_lt. }
  assert (∀ i, i < n →
            Tanimoto.valid FP r !!! i = bool_decide (is_Some (Tanimoto.fps FP r !!! i)))
    as Hvalid.
  { intros i Hi. unfold Tanimoto.valid.
    change (map ?f ?l) with (f <$> l).
    destruct (lookup_lt_is_Some_2 (Tanimoto.fps FP r) i Hi) as [x Hx].
    rewrite (list_lookup_total_correct _ _ _ Hx).
    apply list_lookup_total_correct. by rewrite list_lookup_fmap, Hx. }
  intros i j Hi Hj fi fj.
  destruct (symmetrize_cells n (Tanimoto.valid FP r) M HM) as [_ Hcells].
  assert (mget (Tanimoto.symmetrize (Tanimoto.valid FP r) M) i j
          = (if bool_decide (is_Some fi) && bool_decide (is_Some fj)
             then if decide (i = j) then Fin 1%Qc
                  else Tanimoto.sym_cell (sim fi fj) (sim fj fi)
             else NaN)) as Hcell.
  { rewrite Hcells by done. rewrite !Hget by done. unfold all_pairs_cell.
    rewrite !Hvalid by done. fold fi fj.
    destruct (decide (i = j)) as [->|Hne].
    - subst fi fj. by destruct (bool_decide _).
    - rewrite (andb_comm (bool_decide (is_Some fj))).
      by destruct (bool_decide (is_Some fi) && bool_decide (is_Some fj)). }
  split; [exact Hcell|].
  intros Hsym Hfi Hfj Hne. rewrite Hcell.
  rewrite !bool_decide_true by done. simpl. rewrite decide_False by done.
  rewrite Hsym. apply sym_cell_diag.
Qed.

Lemma written_matrix_cells_witness :
  (∀ q ts, sample_bulk q ts = sample_sim q <$> ts) ∧
  0 < Tanimoto.row_batch nat sample_run ∧ 0 < Tanimoto.col_batch nat sample_run ∧
  1 ≤ 2 ∧
  ∃ M, Tanimoto.assemble nat sample_bulk sample_run 2 = Some M ∧
       mget (Tanimoto.symmetrize (Tanimoto.valid nat sample_run) M) 0 1 = NaN.
Proof.
  assert (0 < Tanimoto.row_batch nat sample_run) as H1 by (simpl; lia).
  assert (0 < Tanimoto.col_batch nat sample_run) as H2 by (simpl; lia).
  assert (1 ≤ 2) as H3 by lia.
  split; [exact sample_bulk_elementwise|].
  split; [exact H1|]. split; [exact H2|]. split; [exact H3|].
  destruct (written_matrix_cells sample_sim sample_bulk sample_run 2
              sample_bulk_elementwise H1 H2 H3) as (M & HM & Hcells).
  exists M. split; [exact HM|].
  assert (0 < Tanimoto.n_of nat sample_run) as Hi
    by (unfold Tanimoto.n_of; simpl; lia).
  assert (1 < Tanimoto.n_of nat sample_run) as Hj
    by (unfold Tanimoto.n_of; simpl; lia).
  exact (proj1 (Hcells 0 1 Hi Hj)).
Defined.

(** ** The pairs file *)

Section pairs_file.
Import TanimotoOutput.

Lemma elem_of_pairs_of_row (M : matrix) (thresh : Qc) i i' k s :
  (i', k, s) ∈ pairs_of_row M thresh i ↔
    i' = i ∧ i < k ∧ (M !!! i) !! k = Some s ∧ ∃ q, s = Fin q ∧ (thresh ≤ q)%Qc.
Proof.
  unfold pairs_of_row.
  set (row := drop (i + 1) (M !!! i)).
  assert (∀ k' s', (k', s') ∈ zip (seq (i + 1) (length row)) row ↔
                   i < k' ∧ (M !!! i) !! k' = Some s') as Hzip.
  { intros k' s'. rewrite list_elem_of_lookup. split.
    - intros (p & Hp). apply lookup_zip_with_Some in Hp as (x & y & Heq & Hx & Hy).
      simplify_eq. apply lookup_seq in Hx as [-> Hp]. unfold row in Hy.
      rewrite lookup_drop in Hy. split; [lia|done].
    - intros [Hk Hs]. exists (k' - (i + 1)). apply lookup_zip_with_Some.
      exists k', s'. split; [done|].
      assert (row !! (k' - (i + 1)) = Some s') as Hrow.
      { unfold row. rewrite lookup_drop. by replace (i + 1 + (k' - (i + 1))) with k' by lia. }
      split; [|done]. apply lookup_seq. split; [lia|]. by eapply lookup_lt_Some. }
  destruct (forallb isna row) eqn:Hall.
  - split; [by intros ?%elem_of_nil|].
    intros (_ & Hk & Hs & q & -> & _). exfalso.
    assert (Is_true (forallb isna row)) as Hall' by (by rewrite Hall).
    apply forallb_True in Hall'.
    assert (Fin q ∈ row) as Hin.
    { apply (elem_of_zip_r k (Fin q) (seq (i + 1) (length row)) row).
      by apply Hzip. }
    by apply (proj1 (Forall_forall _ _) Hall') in Hin.
  - rewrite list_elem_of_omap. split.
    + intros ([k' s'] & Hin & Hsome). apply Hzip in Hin as [Hk Hs]. simpl in Hsome.
      destruct s' as [|q]; [done|]. case_bool_decide; [|done]. simplify_eq.
      split; [done|]. split; [done|]. split; [done|]. by exists q.
    + intros (-> & Hk & Hs & q & -> & Hq). exists (k, Fin q).
      split; [by apply Hzip|]. simpl. by rewrite bool_decide_true.
Qed.

Lemma pairs_of_row_keys_NoDup (M : matrix) (thresh : Qc) i :
  NoDup ((λ x : nat * nat * float, x.1) <$> pairs_of_row M thresh i).
Proof.
  unfold pairs_of_row. destruct (forallb isna _); [constructor|].
  apply (NoDup_omap_key _ _ (λ ks : nat * float, (i, ks.1))).
  - intros [k s] [[i' k'] s'] Hsome. simpl in *.
    destruct s as [|q]; [done|]. case_bool_decide; [|done]. by simplify_eq.
  - set (l := zip _ _).
    assert ((λ ks : nat * float, (i, ks.1)) <$> l = (λ k, (i, k)) <$> l.*1) as ->
      by (by rewrite <- list_fmap_compose).
    apply NoDup_fmap_2; [by intros ?? [=]|].
    apply NoDup_zip_fst, NoDup_seq.
Qed.

(** X7.  For an [n] by [n] matrix the pairs file has exactly one row for
    every pair [i < k] whose cell [(i, k)] is defined and at least the
    threshold, with that cell as similarity: nothing on or below the
    diagonal, no undefined similarity, no pair twice; skipping the rows of
    the matrix that are undefined right of the diagonal loses nothing. *)
Theorem pairs_rows_spec n (M : matrix) (thresh : Qc) :
  has_shape n n M →
  (∀ i k s, (i, k, s) ∈ pairs_rows M n thresh ↔
     i < k < n ∧ mget M i k = s ∧ ∃ q, s = Fin q ∧ (thresh ≤ q)%Qc) ∧
  NoDup ((λ x : nat * nat * float, x.1) <$> pairs_rows M n thresh).
Proof.
  intros HM. split.
  - intros i k s. unfold pairs_rows. rewrite list_elem_of_bind. split.
    + intros (i0 & Hin & Hi0). apply elem_of_seq in Hi0.
      apply elem_of_pairs_of_row in Hin as (-> & Hk & Hs & Hq).
      pose proof (lookup_lt_Some _ _ _ Hs) as Hlen.
      rewrite (has_shape_lookup n n M i0 HM) in Hlen by lia.
      split; [lia|]. split; [|done]. unfold mget.
      by apply list_lookup_total_correct.
    + intros ([Hik Hkn] & Hs & Hq). exists i. split; [|apply elem_of_seq; lia].
      apply elem_of_pairs_of_row. split; [done|]. split; [done|]. split; [|done].
      rewrite <- Hs. unfold mget. apply list_lookup_lookup_total_lt.
      rewrite (has_shape_lookup n n M i HM) by lia. done.
  - unfold pairs_rows. generalize (NoDup_seq 0 n).
    generalize (seq 0 n) as rows. intros rows Hnd.
    induction Hnd as [|i rows Hi Hnd IH]; [constructor|].
    rewrite bind_cons, fmap_app. apply NoDup_app.
    split; [apply pairs_of_row_keys_NoDup|]. split; [|done].
    intros [i1 k1] Hin1 Hin2.
    apply list_elem_of_fmap in Hin1 as ([[i1' k1'] s1] & Heq1 & Hin1).
    apply list_elem_of_fmap in Hin2 as ([[i2' k2'] s2] & Heq2 & Hin2).
    simpl in *. simplify_eq.
    apply elem_of_pairs_of_row in Hin1 as (-> & _).
    apply list_elem_of_bind in Hin2 as (i2 & Hin2 & Hi2).
    apply elem_of_pairs_of_row in Hin2 as (-> & _). done.
Qed.

Lemma pairs_rows_spec_witness :
  has_shape 3 3 sample_matrix ∧
  NoDup ((λ x : nat * nat * float, x.1)
           <$> pairs_rows sample_matrix 3 (Q2Qc (1 # 5))).
Proof.
  assert (has_shape 3 3 sample_matrix) as HM by (split; [reflexivity|repeat constructor]).
  split; [exact HM|].
  exact (proj2 (pairs_rows_spec 3 sample_matrix (Q2Qc (1 # 5)) HM)).
Defined.

End pairs_file.

(** ** [to_dir_dict]: the best passing hit per pair *)

Section dir_dict.
Import Hungarian HungarianFacts.

Lemma dir_step_cases (flip : bool) (emax : option Qc) (Lmin : option Z)
    (D : gmap pair_key hit) (r : hit) :
  dir_step flip emax Lmin D r =
    if passes emax Lmin r then
      match D !! dir_key flip r with
      | None => <[dir_key flip r := dir_value flip r]> D
      | Some prev =>
          if bool_decide (bitscore prev < bitscore r)%Qc
          then <[dir_key flip r := dir_value flip r]> D else D
      end
    else D.
Proof.
  unfold dir_step, passes, dir_key, dir_value, flip_hit.
  destruct (match Lmin with Some L => _ | None => _ end); [done|].
  destruct (match emax with Some e => _ | None => _ end); [done|].
  simpl. by destruct flip.
Qed.

Lemma bitscore_dir_value flip r : bitscore (dir_value flip r) = bitscore r.
Proof. by destruct flip. Qed.

Lemma best_entry_snoc (flip : bool) (emax : option Qc) (Lmin : option Z)
    (df : list hit) (D : gmap pair_key hit) (x : hit) :
  (∀ k, best_entry flip emax Lmin df k (D !! k)) →
  ∀ k, best_entry flip emax Lmin (df ++ [x]) k
         (dir_step flip emax Lmin D x !! k).
Proof.
  intros HD k. rewrite dir_step_cases.
  assert (∀ o, best_entry flip emax Lmin df k o →
               (passes emax Lmin x = true → dir_key flip x = k →
                from_option (λ rec, bitscore x ≤ bitscore rec)%Qc False o) →
               best_entry flip emax Lmin (df ++ [x]) k o) as Hkeep.
  { intros [rec|] Ho Hx; simpl in *.
    - destruct Ho as (l1 & r & l2 & -> & Hp & Hk & -> & H1 & H2).
      exists l1, r, (l2 ++ [x]). rewrite <- app_assoc. split; [done|].
      split_and!; try done.
      intros r' [Hr'| ->%list_elem_of_singleton]%elem_of_app Hp' Hk'; [by apply H2|].
      rewrite <- (bitscore_dir_value flip r). by apply Hx.
    - intros r [Hr| ->%list_elem_of_singleton]%elem_of_app Hp Hk; [by eapply Ho|].
      by destruct (Hx Hp Hk). }
  assert (passes emax Lmin x = true → dir_key flip x = k →
          (∀ r', r' ∈ df → passes emax Lmin r' = true → dir_key flip r' = k →
                 (bitscore r' < bitscore x)%Qc) →
          best_entry flip emax Lmin (df ++ [x]) k (Some (dir_value flip x))) as Hnew.
  { intros Hp Hk Hlt. exists df, x, []. split_and!; try done.
    intros r' Hr'. by apply elem_of_nil in Hr'. }
  destruct (passes emax Lmin x) eqn:Hpass.
  2:{ apply Hkeep; [apply HD|done]. }
  destruct (decide (dir_key flip x = k)) as [Hk|Hk].
  2:{ assert (∀ D' : gmap pair_key hit, D' !! k = D !! k →
                best_entry flip emax Lmin (df ++ [x]) k (D' !! k)) as Hsame.
      { intros D' ->. apply Hkeep; [apply HD|done]. }
      destruct (D !! dir_key flip x) as [prev|]; [case_bool_decide|];
        apply Hsame; by rewrite ?lookup_insert_ne. }
  pose proof (HD k) as Hk0. rewrite <- Hk in Hk0 |- *.
  destruct (D !! dir_key flip x) as [prev|] eqn:Hprev.
  - simpl in Hk0. destruct Hk0 as (l1 & r & l2 & -> & Hp & Hkr & -> & H1 & H2).
    rewrite bitscore_dir_value. case_bool_decide as Hlt.
    + rewrite lookup_insert_eq. rewrite Hk. apply Hnew; [done..|].
      intros r' [Hr'|[->|Hr']%elem_of_cons]%elem_of_app Hp' Hk'.
      * eapply Qclt_trans; [|done]. apply H1; congruence.
      * done.
      * eapply Qcle_lt_trans; [|done]. apply H2; congruence.
    + rewrite Hprev, Hk. apply Hkeep.
      * rewrite <- Hk. exists l1, r, l2. by split_and!.
      * intros _ _. simpl. rewrite bitscore_dir_value. by apply Qcnot_lt_le.
  - rewrite lookup_insert_eq. rewrite Hk. apply Hnew; [done..|].
    simpl in Hk0. intros r' Hr' Hp' Hk'. exfalso. eapply Hk0; [done..|congruence].
Qed.

Lemma to_dir_dict_best (df : list hit) (flip : bool) (emax : option Qc)
    (Lmin : option Z) k :
  best_entry flip emax Lmin df k (to_dir_dict df flip emax Lmin !! k).
Proof.
  unfold to_dir_dict. revert k.
  induction df as [|x df IH] using rev_ind; intros k.
  { simpl. rewrite lookup_empty. simpl. intros r Hr. by apply elem_of_nil in Hr. }
  rewrite foldl_app. simpl. by apply best_entry_snoc.
Qed.

End dir_dict.

(** X8.  [to_dir_dict] keeps, for every pair of identifiers, the first row
    of greatest bitscore among the rows of that pair that pass the
    thresholds ([length >= Lmin], [evalue <= emax]), filed under the pair
    (exchanged when [flip] is set) with its two identifiers in the order of
    the key; a pair none of whose rows passes has no entry. *)
Theorem to_dir_dict_entries (df : list Hungarian.hit) (flip : bool)
    (emax : option Qc) (Lmin : option Z) (k : string * string) :
  match Hungarian.to_dir_dict df flip emax Lmin !! k with
  | None =>
      ∀ r, r ∈ df → HungarianFacts.passes emax Lmin r = true →
           HungarianFacts.dir_key flip r ≠ k
  | Some rec =>
      (Hungarian.qseqid rec, Hungarian.sseqid rec) = k ∧
      from_option (λ L, Qc_of_Z L ≤ Hungarian.length_ rec)%Qc True Lmin ∧
      from_option (λ e, Hungarian.evalue rec ≤ e)%Qc True emax ∧
      ∃ l1 r l2, df = l1 ++ r :: l2 ∧
        HungarianFacts.dir_key flip r = k ∧
        rec = HungarianFacts.dir_value flip r ∧
        (∀ r', r' ∈ l1 → HungarianFacts.passes emax Lmin r' = true →
               HungarianFacts.dir_key flip r' = k →
               (Hungarian.bitscore r' < Hungarian.bitscore rec)%Qc) ∧
        (∀ r', r' ∈ l2 → HungarianFacts.passes emax Lmin r' = true →
               HungarianFacts.dir_key flip r' = k →
               (Hungarian.bitscore r' ≤ Hungarian.bitscore rec)%Qc)
  end.
Proof.
  pose proof (to_dir_dict_best df flip emax Lmin k) as Hbest.
  destruct (Hungarian.to_dir_dict df flip emax Lmin !! k) as [rec|]; [|exact Hbest].
  destruct Hbest as (l1 & r & l2 & Hdf & Hp & Hk & -> & H1 & H2).
  split; [by destruct flip|].
  unfold HungarianFacts.passes in Hp.
  apply andb_true_iff in Hp as [HL He].
  split; [|split].
  - destruct Lmin as [L|]; simpl; [|done].
    apply negb_true_iff, bool_decide_eq_false in HL.
    destruct flip; by apply Qcnot_lt_le.
  - destruct emax as [e|]; simpl; [|done].
    apply negb_true_iff, bool_decide_eq_false in He.
    destruct flip; by apply Qcnot_lt_le.
  - exists l1, r, l2. rewrite bitscore_dir_value. by split_and!.
Qed.

Lemma to_dir_dict_entries_witness :
  match Hungarian.to_dir_dict sample_table true None (Some 30%Z)
          !! ("t0"%string, "q1"%string) with
  | Some rec =>
      (Hungarian.qseqid rec, Hungarian.sseqid rec) = ("t0"%string, "q1"%string) ∧
      (Qc_of_Z 30 ≤ Hungarian.length_ rec)%Qc
  | None => False
  end.
Proof.
  pose proof (to_dir_dict_entries sample_table true None (Some 30%Z)
                ("t0"%string, "q1"%string)) as H.
  destruct (Hungarian.to_dir_dict sample_table true None (Some 30%Z)
              !! ("t0"%string, "q1"%string)) as [rec|].
  - destruct H as (Hkey & Hlen & _). split; [exact Hkey|exact Hlen].
  - refine (H sample_hit_long _ _ _).
    + apply (list_elem_of_lookup_2 _ 0). reflexivity.
    + vm_compute. reflexivity.
    + reflexivity.
Defined.

(** ** [merge_symmetric]: keys and scores *)

Lemma mean_between (a b : Qc) :
  (a ≤ b)%Qc → (a ≤ half * (a + b))%Qc ∧ (half * (a + b) ≤ b)%Qc.
Proof.
  unfold Qcle, half. simpl. rewrite !Qred_correct. intros H.
  destruct a as [a ?], b as [b ?]. simpl in *. split; lra.
Qed.

Lemma py_max_min_between (x y : Qc) :
  ((x ≤ Hungarian.py_max x y ∧ Hungarian.py_max x y ≤ y) ∨
   (y ≤ Hungarian.py_max x y ∧ Hungarian.py_max x y ≤ x))%Qc ∧
  ((x ≤ Hungarian.py_min x y ∧ Hungarian.py_min x y ≤ y) ∨
   (y ≤ Hungarian.py_min x y ∧ Hungarian.py_min x y ≤ x))%Qc.
Proof.
  unfold Hungarian.py_max, Hungarian.py_min. split; case_bool_decide as H.
  - left. split; [by apply Qclt_le_weak|apply Qcle_refl].
  - right. split; [by apply Qcnot_lt_le|apply Qcle_refl].
  - right. split; [apply Qcle_refl|by apply Qclt_le_weak].
  - left. split; [apply Qcle_refl|by apply Qcnot_lt_le].
Qed.

(** X9.  The keys of [merge_symmetric] are the keys of either side; the
    record of a key is built on a copy of one of its directional records;
    and with both directions present the combined score lies between the
    two bitscores, in every mode. *)
Theorem merge_symmetric_keys_and_range
    (a2b b2a : gmap (string * string) Hungarian.hit) (how : string) :
  dom (Hungarian.merge_symmetric a2b b2a how) = dom a2b ∪ dom b2a ∧
  (∀ k rec, Hungarian.merge_symmetric a2b b2a how !! k = Some rec →
     a2b !! k = Some (Hungarian.chosen_hit rec) ∨
     b2a !! k = Some (Hungarian.chosen_hit rec)) ∧
  (∀ k rec v1 v2, Hungarian.merge_symmetric a2b b2a how !! k = Some rec →
     a2b !! k = Some v1 → b2a !! k = Some v2 →
     (Hungarian.bitscore v1 ≤ Hungarian.score rec ∧
      Hungarian.score rec ≤ Hungarian.bitscore v2)%Qc ∨
     (Hungarian.bitscore v2 ≤ Hungarian.score rec ∧
      Hungarian.score rec ≤ Hungarian.bitscore v1)%Qc).
Proof.
  split; [|split].
  - apply set_eq. intros k. rewrite elem_of_union, !elem_of_dom.
    rewrite merge_symmetric_lookup.
    destruct (a2b !! k) as [v1|], (b2a !! k) as [v2|]; simpl.
    + split; [intros _; left; by eexists|intros _].
      repeat case_bool_decide; by eexists.
    + split; [intros _; left; by eexists|intros _; by eexists].
    + split; [intros _; right; by eexists|intros _; by eexists].
    + split; [by intros [? ?]|by intros [[? ?]|[? ?]]].
  - intros k rec. rewrite merge_symmetric_lookup.
    destruct (a2b !! k) as [v1|], (b2a !! k) as [v2|]; simpl; try done.
    + repeat case_bool_decide; intros [= <-]; simpl; auto.
    + intros [= <-]. by left.
    + intros [= <-]. by right.
  - intros k rec v1 v2. rewrite merge_symmetric_lookup. intros Hrec H1 H2.
    rewrite H1, H2 in Hrec. simpl in Hrec.
    destruct (py_max_min_between (Hungarian.bitscore v1) (Hungarian.bitscore v2))
      as [Hmax Hmin].
    repeat case_bool_decide; simplify_eq; simpl; try done.
    + right. rewrite Qcplus_comm. by apply mean_between.
    + left. apply mean_between. by apply Qclt_le_weak, Qcnot_le_lt.
Qed.

Lemma merge_symmetric_keys_and_range_witness :
  let k := ("q1"%string, "t0"%string) in
  let a2b : gmap (string * string) Hungarian.hit := {[ k := sample_hit_short ]} in
  let b2a : gmap (string * string) Hungarian.hit := {[ k := sample_hit_long ]} in
  from_option (λ rec, (Qc_of_Z 50 ≤ Hungarian.score rec ∧
                       Hungarian.score rec ≤ Qc_of_Z 80)%Qc)
    False (Hungarian.merge_symmetric a2b b2a "avg" !! k).
Proof.
  intros k a2b b2a.
  assert (a2b !! k = Some sample_hit_short) as H1 by apply lookup_singleton_eq.
  assert (b2a !! k = Some sample_hit_long) as H2 by apply lookup_singleton_eq.
  pose proof (proj2 (proj2 (merge_symmetric_keys_and_range a2b b2a "avg")) k) as H.
  destruct (Hungarian.merge_symmetric a2b b2a "avg" !! k) as [rec|] eqn:Hrec.
  - simpl. destruct (H rec _ _ eq_refl H1 H2) as [[Ha Hb]|[Ha Hb]].
    + exfalso. eapply (Qclt_not_le (Qc_of_Z 50) (Qc_of_Z 80)); [done|].
      by eapply Qcle_trans.
    + done.
  - rewrite merge_symmetric_lookup, H1, H2 in Hrec. done.
Defined.

(** X10.  [_avg_two] does not depend on the order of its arguments, is
    undefined only when both arguments are, returns its argument when the
    two are equal, and for two numbers returns a number between them. *)
Theorem avg_two_properties (a b : float) :
  Hungarian._avg_two a b = Hungarian._avg_two b a ∧
  isna (Hungarian._avg_two a b) = isna a && isna b ∧
  Hungarian._avg_two a a = a ∧
  match a, b with
  | Fin x, Fin y =>
      ∃ m, Hungarian._avg_two a b = Fin m ∧
           ((x ≤ m ∧ m ≤ y) ∨ (y ≤ m ∧ m ≤ x))%Qc
  | _, _ => True
  end.
Proof.
  rewrite !avg_two_policy. split_and!.
  - destruct a, b; simpl; try done. by rewrite Qcplus_comm.
  - by destruct a, b.
  - destruct a; simpl; [done|]. by rewrite half_double.
  - destruct a as [|x], b as [|y]; try done.
    eexists. split; [reflexivity|]. rewrite <- half_mul.
    destruct (Qclt_le_dec y x) as [Hlt|Hle].
    + right. rewrite Qcplus_comm. by apply mean_between, Qclt_le_weak.
    + left. by apply mean_between.
Qed.

(** ** [build_cost_matrix]: labels, cells and costs *)

Section cost_matrix.
Import Hungarian.

Lemma string_leb_total : Total (λ s1 s2 : string, Is_true (String.leb s1 s2)).
Proof.
  intros s1 s2. destruct (String.leb_total s1 s2) as [H|H]; rewrite H.
  - by left.
  - by right.
Qed.

Lemma sorted_ids_NoDup (ids : gset string) : NoDup (sorted_ids ids).
Proof.
  unfold sorted_ids. rewrite merge_sort_Permutation. apply NoDup_elements.
Qed.

Lemma index_dict_inj (ids : list string) q q' :
  q ∈ ids → q' ∈ ids → index_dict ids !!! q = index_dict ids !!! q' → q = q'.
Proof.
  intros Hq Hq' Heq. apply index_dict_spec in Hq, Hq'.
  rewrite Heq in Hq. congruence.
Qed.

Lemma index_dict_of_lookup (ids : list string) i q :
  NoDup ids → ids !! i = Some q → index_dict ids !!! q = i.
Proof.
  intros Hnd Hi.
  assert (q ∈ ids) as Hq by (by eapply list_elem_of_lookup_2).
  apply index_dict_spec in Hq. by eapply NoDup_lookup.
Qed.

End cost_matrix.

(** X11.  The query list and the target list of [build_cost_matrix] are
    sorted, hold no identifier twice, and are exactly the first and the
    second components of the keys of the merged records. *)
Theorem build_cost_matrix_labels
    (merged : gmap (string * string) Hungarian.merged_rec) :
  let p := Hungarian.build_cost_matrix merged in
  NoDup (Hungarian.queries p) ∧ NoDup (Hungarian.targets p) ∧
  Sorted (λ s1 s2 : string, Is_true (String.leb s1 s2)) (Hungarian.queries p) ∧
  Sorted (λ s1 s2 : string, Is_true (String.leb s1 s2)) (Hungarian.targets p) ∧
  (∀ A, A ∈ Hungarian.queries p ↔ ∃ B, is_Some (merged !! (A, B))) ∧
  (∀ B, B ∈ Hungarian.targets p ↔ ∃ A, is_Some (merged !! (A, B))).
Proof.
  intros p. unfold p, Hungarian.build_cost_matrix. simpl. split_and!.
  - apply sorted_ids_NoDup.
  - apply sorted_ids_NoDup.
  - apply (@Sorted_merge_sort string _ _ string_leb_total).
  - apply (@Sorted_merge_sort string _ _ string_leb_total).
  - intros A. rewrite elem_of_sorted_ids, elem_of_map. split.
    + intros ([A' B] & -> & Hk%elem_of_dom). by exists B.
    + intros [B HB]. exists (A, B). split; [done|]. by apply elem_of_dom.
  - intros B. rewrite elem_of_sorted_ids, elem_of_map. split.
    + intros ([A B'] & -> & Hk%elem_of_dom). by exists A.
    + intros [A HA]. exists (A, B). split; [done|]. by apply elem_of_dom.
Qed.

(** Updating one cell of a rectangular list of rows. *)
Lemma grid_lookup_insert {A} `{!Inhabited A} (n m : nat) (g : list (list A)) i j a b v :
  length g = n → Forall (λ row, length row = m) g → i < n → j < m →
  (<[i := <[j := v]> (g !!! i)]> g !!! a) !!! b
  = if decide (a = i ∧ b = j) then v else (g !!! a) !!! b.
Proof.
  intros Hn Hrows Hi Hj.
  assert (length (g !!! i) = m) as Hrow
    by (apply (Forall_lookup_total_1 (λ row, length row = m)); [done|lia]).
  rewrite list_lookup_total_insert.
  destruct (decide (a = i)) as [->|Hai].
  - rewrite decide_True by (split; [done|lia]). rewrite list_lookup_total_insert.
    destruct (decide (b = j)) as [->|Hbj].
    + rewrite decide_True by (split; [done|lia]). by rewrite decide_True.
    + rewrite decide_False by (intros [? _]; congruence).
      rewrite decide_False; [done|]. intros [_ ?]; congruence.
  - rewrite !decide_False; [done|intros [? _]; congruence..].
Qed.

Lemma grid_insert_shape {A} `{!Inhabited A} (n m : nat) (g : list (list A)) i j v :
  length g = n → Forall (λ row, length row = m) g →
  length (<[i := <[j := v]> (g !!! i)]> g) = n ∧
  Forall (λ row, length row = m) (<[i := <[j := v]> (g !!! i)]> g).
Proof.
  intros Hn Hrows. split; [by rewrite length_insert|].
  destruct (decide (i < length g)) as [Hi|Hi].
  - apply Forall_insert; [done|]. rewrite length_insert.
    by apply (Forall_lookup_total_1 (λ row, length row = m)).
  - by rewrite list_insert_ge by lia.
Qed.

Section fill.
Import Hungarian HungarianFacts.
Variables (qi ti : gmap string nat) (n m : nat).

Lemma fill_step_fresh (st : fill_state) (kr : pair_key * merged_rec) :
  fill_shape n m st →
  (cell_index qi ti kr).1 < n → (cell_index qi ti kr).2 < m →
  fs_cell st !! cell_index qi ti kr = None →
  score_at (fs_score st) (cell_index qi ti kr) = 0%Qc →
  let st1 := fill_step qi ti st kr in
  fill_shape n m st1 ∧
  fs_cell st1 !! cell_index qi ti kr
    = (if decide (0 < score kr.2)%Qc then Some kr.2 else None) ∧
  score_at (fs_score st1) (cell_index qi ti kr)
    = (if decide (0 < score kr.2)%Qc then score kr.2 else 0%Qc) ∧
  (∀ ij, ij ≠ cell_index qi ti kr →
     fs_cell st1 !! ij = fs_cell st !! ij ∧
     score_at (fs_score st1) ij = score_at (fs_score st) ij) ∧
  fs_max st1 = (if decide (fs_max st < score kr.2)%Qc then score kr.2 else fs_max st).
Proof.
  intros [Hn Hrows] Hi Hj Hnone Hzero st1. unfold st1, fill_step.
  unfold cell_index, score_at in *. simpl in *. rewrite Hzero.
  destruct (decide (0 < score kr.2)%Qc) as [Hpos|Hnpos].
  - rewrite bool_decide_true by done. simpl. split_and!.
    + by apply (grid_insert_shape n m).
    + by rewrite lookup_insert_eq.
    + rewrite (grid_lookup_insert n m) by done. by rewrite decide_True.
    + intros [i j] Hne. simpl. split.
      * by rewrite lookup_insert_ne.
      * rewrite (grid_lookup_insert n m) by done.
        rewrite decide_False; [done|]. intros [-> ->]. done.
    + by case_bool_decide; case_decide.
  - rewrite bool_decide_false by done. simpl. split_and!; try done.
    by case_bool_decide; case_decide.
Qed.

Lemma fill_invariant (l : list (pair_key * merged_rec)) (st : fill_state) :
  fill_shape n m st →
  NoDup (cell_index qi ti <$> l) →
  (∀ kr, kr ∈ l →
     (cell_index qi ti kr).1 < n ∧ (cell_index qi ti kr).2 < m ∧
     fs_cell st !! cell_index qi ti kr = None ∧
     score_at (fs_score st) (cell_index qi ti kr) = 0%Qc) →
  let st' := foldl (fill_step qi ti) st l in
  fill_shape n m st' ∧
  (∀ kr, kr ∈ l →
     fs_cell st' !! cell_index qi ti kr
       = (if decide (0 < score kr.2)%Qc then Some kr.2 else None) ∧
     score_at (fs_score st') (cell_index qi ti kr)
       = (if decide (0 < score kr.2)%Qc then score kr.2 else 0%Qc)) ∧
  (∀ ij, ij ∉ cell_index qi ti <$> l →
     fs_cell st' !! ij = fs_cell st !! ij ∧
     score_at (fs_score st') ij = score_at (fs_score st) ij) ∧
  (fs_max st ≤ fs_max st')%Qc ∧
  (∀ kr, kr ∈ l → (score kr.2 ≤ fs_max st')%Qc) ∧
  (fs_max st' = fs_max st ∨ ∃ kr, kr ∈ l ∧ fs_max st' = score kr.2).
Proof.
  revert st. induction l as [|kr l IH]; intros st Hshape Hnd Hl st'.
  { unfold st'. simpl. split_and!.
    - done.
    - intros kr Hkr. by apply elem_of_nil in Hkr.
    - done.
    - apply Qcle_refl.
    - intros kr Hkr. by apply elem_of_nil in Hkr.
    - by left. }
  rewrite fmap_cons in Hnd. apply NoDup_cons in Hnd as [Hkr Hnd].
  destruct (Hl kr) as (Hi & Hj & Hnone & Hzero); [by left|].
  destruct (fill_step_fresh st kr Hshape Hi Hj Hnone Hzero)
    as (Hshape1 & Hcell1 & Hscore1 & Hother1 & Hmax1).
  set (st1 := fill_step qi ti st kr) in *.
  destruct (IH st1 Hshape1 Hnd) as (Hshape' & Hin' & Hout' & Hmax' & Hall' & Hex').
  { intros kr' Hkr'. destruct (Hl kr') as (Hi' & Hj' & Hnone' & Hzero'); [by right|].
    assert (cell_index qi ti kr' ≠ cell_index qi ti kr) as Hne.
    { intros Heq. apply Hkr. rewrite <- Heq. by apply list_elem_of_fmap_2. }
    destruct (Hother1 _ Hne) as [-> ->]. done. }
  change st' with (foldl (fill_step qi ti) st1 l).
  set (st2 := foldl (fill_step qi ti) st1 l) in *.
  assert (fs_max st ≤ fs_max st1)%Qc as Hmax01.
  { rewrite Hmax1. case_decide; [by apply Qclt_le_weak|apply Qcle_refl]. }
  assert (score kr.2 ≤ fs_max st1)%Qc as Hkr01.
  { rewrite Hmax1. case_decide; [apply Qcle_refl|by apply Qcnot_lt_le]. }
  split_and!.
  - done.
  - intros kr' [->|Hkr']%elem_of_cons; [|by apply Hin'].
    destruct (Hout' _ Hkr) as [-> ->]. done.
  - intros ij Hij. rewrite fmap_cons in Hij. apply not_elem_of_cons in Hij as [Hne Hij].
    destruct (Hout' _ Hij) as [-> ->]. by apply Hother1.
  - by eapply Qcle_trans.
  - intros kr' [->|Hkr']%elem_of_cons; [by eapply Qcle_trans|by apply Hall'].
  - destruct Hex' as [Heq|(kr' & Hkr' & Heq)].
    + rewrite Heq, Hmax1. case_decide; [right; exists kr; split; [by left|done]|by left].
    + right. exists kr'. split; [by right|done].
Qed.

End fill.

Section cost_cells.
Import Hungarian HungarianFacts.

Lemma grid_replicate_lookup {A} `{!Inhabited A} (n m i j : nat) (x : A) :
  i < n → j < m → (replicate n (replicate m x) !!! i) !!! j = x.
Proof.
  intros Hi Hj. rewrite lookup_total_replicate_2 by done.
  by rewrite lookup_total_replicate_2.
Qed.

Lemma Qc_sub_bounds (s mx : Qc) :
  (0 ≤ s)%Qc → (s ≤ mx)%Qc → (0 ≤ mx - s)%Qc ∧ (mx - s ≤ mx)%Qc.
Proof.
  unfold Qcle, Qcminus, Qcplus, Qcopp. simpl. rewrite !Qred_correct.
  destruct s as [s ?], mx as [mx ?]. simpl. intros H1 H2. split; lra.
Qed.

Lemma build_cost_matrix_fill (merged : gmap pair_key merged_rec) :
  let p := build_cost_matrix merged in
  let qi := index_dict (queries p) in
  let ti := index_dict (targets p) in
  fill_shape (length (queries p)) (length (targets p))
    {| fs_score := score_matrix p; fs_cell := cell p; fs_max := max_score p |} ∧
  (∀ k rec, merged !! k = Some rec →
     k.1 ∈ queries p ∧ k.2 ∈ targets p ∧
     cell p !! (qi !!! k.1, ti !!! k.2) = stored (Some rec) ∧
     score_at (score_matrix p) (qi !!! k.1, ti !!! k.2)
       = from_option score 0%Qc (stored (Some rec))) ∧
  (∀ i j A B, queries p !! i = Some A → targets p !! j = Some B →
     merged !! (A, B) = None →
     cell p !! (i, j) = None ∧ score_at (score_matrix p) (i, j) = 0%Qc) ∧
  (0 ≤ max_score p)%Qc ∧
  (∀ k rec, merged !! k = Some rec → (score rec ≤ max_score p)%Qc) ∧
  (max_score p = 0%Qc ∨ ∃ k rec, merged !! k = Some rec ∧ max_score p = score rec).
Proof.
  intros p qi ti. subst p qi ti. unfold build_cost_matrix. simpl.
  set (qs := sorted_ids (set_map (λ k : pair_key, k.1) (dom merged))).
  set (ts := sorted_ids (set_map (λ k : pair_key, k.2) (dom merged))).
  set (qi := index_dict qs). set (ti := index_dict ts).
  set (st0 := {| fs_score := replicate (length qs) (replicate (length ts) 0%Qc);
                 fs_cell := ∅; fs_max := 0%Qc |}).
  assert (∀ k rec, merged !! k = Some rec → k.1 ∈ qs ∧ k.2 ∈ ts) as Hmem.
  { intros k rec Hk. split; apply elem_of_sorted_ids, elem_of_map;
      exists k; (split; [done|]); apply elem_of_dom; by eexists. }
  assert (fill_shape (length qs) (length ts) st0) as Hshape0.
  { split; simpl; [by rewrite length_replicate|].
    apply Forall_replicate. by rewrite length_replicate. }
  assert (NoDup (cell_index qi ti <$> map_to_list merged)) as Hnd.
  { apply NoDup_fmap_2_strong; [|apply NoDup_map_to_list].
    intros [k rec] [k' rec'] Hk%elem_of_map_to_list Hk'%elem_of_map_to_list Heq.
    unfold cell_index in Heq. simpl in Heq.
    destruct (Hmem _ _ Hk) as [Hq Ht], (Hmem _ _ Hk') as [Hq' Ht'].
    assert (k = k') as ->.
    { destruct k, k'. simpl in *. f_equal.
      - apply (index_dict_inj qs); [done..|]. by injection Heq.
      - apply (index_dict_inj ts); [done..|]. by injection Heq. }
    congruence. }
  assert (∀ k rec, merged !! k = Some rec →
            qi !!! k.1 < length qs ∧ ti !!! k.2 < length ts) as Hrange.
  { intros k rec Hk. destruct (Hmem _ _ Hk) as [Hq Ht].
    split; eapply lookup_lt_Some; by apply index_dict_spec. }
  destruct (fill_invariant qi ti (length qs) (length ts) (map_to_list merged) st0
              Hshape0 Hnd) as (Hshape & Hin & Hout & Hmax & Hall & Hex).
  { intros [k rec] Hk%elem_of_map_to_list. unfold cell_index. simpl.
    destruct (Hrange _ _ Hk) as [Hi Hj]. split_and!; [done..|].
    unfold score_at. simpl. by apply grid_replicate_lookup. }
  split_and!.
  - done.
  - intros k rec Hk. destruct (Hmem _ _ Hk) as [Hq Ht].
    destruct (Hin (k, rec)) as [Hc Hs]; [by apply elem_of_map_to_list|].
    unfold cell_index in Hc, Hs. simpl in Hc, Hs.
    split_and!; [done..| |].
    + rewrite Hc. unfold stored. simpl. done.
    + rewrite Hs. unfold stored. simpl. by case_decide.
  - intros i j A B Hi Hj Hnone.
    destruct (Hout (i, j)) as [Hc Hs].
    { intros ([k rec] & Heq & Hk%elem_of_map_to_list)%list_elem_of_fmap.
      unfold cell_index in Heq. simpl in Heq. simplify_eq.
      destruct (Hmem _ _ Hk) as [Hq Ht].
      apply index_dict_spec in Hq, Ht. destruct k as [A' B']. simpl in *.
      unfold qi, ti in *. congruence. }
    rewrite Hc, Hs. split; [apply lookup_empty|].
    unfold score_at. simpl. apply grid_replicate_lookup; by eapply lookup_lt_Some.
  - done.
  - intros k rec Hk. apply (Hall (k, rec)). by apply elem_of_map_to_list.
  - destruct Hex as [Heq|([k rec] & Hk%elem_of_map_to_list & Heq)]; [by left|].
    right. by exists k, rec.
Qed.

End cost_cells.

Lemma build_cost_matrix_cell_at
    (merged : gmap (string * string) Hungarian.merged_rec)
    (i j : nat) (A B : string) :
  let p := Hungarian.build_cost_matrix merged in
  Hungarian.queries p !! i = Some A →
  Hungarian.targets p !! j = Some B →
  Hungarian.cell p !! (i, j) = HungarianFacts.stored (merged !! (A, B)) ∧
  HungarianFacts.score_at (Hungarian.score_matrix p) (i, j)
    = from_option Hungarian.score 0%Qc (HungarianFacts.stored (merged !! (A, B))).
Proof.
  intros p Hi Hj.
  destruct (build_cost_matrix_fill merged) as (_ & Hin & Hout & _).
  fold p in Hin, Hout.
  assert (NoDup (Hungarian.queries p)) as Hndq by apply sorted_ids_NoDup.
  assert (NoDup (Hungarian.targets p)) as Hndt by apply sorted_ids_NoDup.
  destruct (merged !! (A, B)) as [rec|] eqn:HAB.
  - destruct (Hin _ _ HAB) as (_ & _ & Hc & Hs). cbn [fst snd] in Hc, Hs.
    rewrite (index_dict_of_lookup _ i A Hndq Hi) in Hc, Hs.
    by rewrite (index_dict_of_lookup _ j B Hndt Hj) in Hc, Hs.
  - by apply (Hout i j A B).
Qed.

(** X12.  The cells of [build_cost_matrix].  At the indices [(i, j)] of a
    query [A] and a target [B], the cell holds the merged record of
    [(A, B)] when there is one with a positive score, and nothing otherwise:
    a record whose score is zero or negative is never filed.  The score
    matrix holds that score, or 0; the cost is the greatest score minus the
    entry of the score matrix, and lies between 0 and the greatest score, so
    that a cell without a record costs the most. *)
Theorem build_cost_matrix_entries
    (merged : gmap (string * string) Hungarian.merged_rec)
    (i j : nat) (A B : string) :
  let p := Hungarian.build_cost_matrix merged in
  Hungarian.queries p !! i = Some A →
  Hungarian.targets p !! j = Some B →
  let kept := HungarianFacts.stored (merged !! (A, B)) in
  Hungarian.cell p !! (i, j) = kept ∧
  HungarianFacts.score_at (Hungarian.score_matrix p) (i, j)
    = from_option Hungarian.score 0%Qc kept ∧
  HungarianFacts.score_at (Hungarian.cost p) (i, j)
    = (Hungarian.max_score p - from_option Hungarian.score 0%Qc kept)%Qc ∧
  (0 ≤ HungarianFacts.score_at (Hungarian.cost p) (i, j))%Qc ∧
  (HungarianFacts.score_at (Hungarian.cost p) (i, j) ≤ Hungarian.max_score p)%Qc ∧
  (kept = None →
   HungarianFacts.score_at (Hungarian.cost p) (i, j) = Hungarian.max_score p).
Proof.
  intros p Hi Hj kept.
  destruct (build_cost_matrix_fill merged) as (_ & _ & _ & Hmax0 & Hall & _).
  fold p in Hmax0, Hall.
  destruct (build_cost_matrix_cell_at merged i j A B Hi Hj) as [Hc Hs].
  fold p kept in Hc, Hs.
  assert (HungarianFacts.score_at (Hungarian.cost p) (i, j)
          = (Hungarian.max_score p
             - HungarianFacts.score_at (Hungarian.score_matrix p) (i, j))%Qc) as Hcost.
  { apply lookup_lt_Some in Hi, Hj. unfold HungarianFacts.score_at. simpl.
    change (map ?f ?l) with (f <$> l).
    rewrite (list_lookup_total_correct _ i
               ((λ j0, (Hungarian.max_score p
                        - (Hungarian.score_matrix p !!! i) !!! j0)%Qc)
                <$> seq 0 (length (Hungarian.targets p)))).
    2:{ rewrite list_lookup_fmap, lookup_seq_lt by done. done. }
    apply list_lookup_total_correct.
    rewrite list_lookup_fmap, lookup_seq_lt by done. done. }
  assert (0 ≤ from_option Hungarian.score 0%Qc kept)%Qc as Hnonneg.
  { unfold kept, HungarianFacts.stored. destruct (merged !! (A, B)) as [rec|]; simpl.
    - case_decide; simpl; [by apply Qclt_le_weak|apply Qcle_refl].
    - apply Qcle_refl. }
  assert (from_option Hungarian.score 0%Qc kept ≤ Hungarian.max_score p)%Qc as Hle.
  { unfold kept, HungarianFacts.stored.
    destruct (merged !! (A, B)) as [rec|] eqn:HAB; simpl; [|done].
    case_decide; simpl; [by eapply Hall|done]. }
  rewrite Hcost, Hs.
  destruct (Qc_sub_bounds _ _ Hnonneg Hle) as [Hlo Hhi].
  split_and!; try done.
  intros ->. simpl. ring.
Qed.

Lemma build_cost_matrix_entries_witness :
  let p := Hungarian.build_cost_matrix sample_merged in
  is_Some (Hungarian.cell p !! (0, 1)) ∧
  Hungarian.cell p !! (0, 0) = None ∧
  HungarianFacts.score_at (Hungarian.cost p) (0, 0) = Hungarian.max_score p.
Proof.
  intros p.
  assert (Hungarian.queries p !! 0 = Some "q0") as Hq by (vm_compute; reflexivity).
  assert (Hungarian.targets p !! 0 = Some "t0") as Ht0 by (vm_compute; reflexivity).
  assert (Hungarian.targets p !! 1 = Some "t1") as Ht1 by (vm_compute; reflexivity).
  destruct (build_cost_matrix_entries sample_merged 0 1 "q0" "t1" Hq Ht1)
    as (Hc1 & _).
  destruct (build_cost_matrix_entries sample_merged 0 0 "q0" "t0" Hq Ht0)
    as (Hc0 & _ & _ & _ & _ & Hmax).
  assert (is_Some (HungarianFacts.stored (sample_merged !! ("q0", "t1")))) as E1.
  { apply (bool_decide_unpack _). vm_compute. exact I. }
  assert (HungarianFacts.stored (sample_merged !! ("q0", "t0")) = None) as E0.
  { apply (bool_decide_unpack _). vm_compute. exact I. }
  split; [exact (eq_ind_r is_Some E1 Hc1)|].
  split; [exact (eq_trans Hc0 E0)|].
  exact (Hmax E0).
Defined.

(** X13.  The greatest score of [build_cost_matrix] is at least 0 and at
    least the score of every merged record, and it is 0 or the score of one
    of the records: it also counts the scores that are not filed. *)
Theorem build_cost_matrix_max_score
    (merged : gmap (string * string) Hungarian.merged_rec) :
  let p := Hungarian.build_cost_matrix merged in
  (0 ≤ Hungarian.max_score p)%Qc ∧
  (∀ k rec, merged !! k = Some rec →
     (Hungarian.score rec ≤ Hungarian.max_score p)%Qc) ∧
  (Hungarian.max_score p = 0%Qc ∨
   ∃ k rec, merged !! k = Some rec ∧ Hungarian.max_score p = Hungarian.score rec).
Proof.
  intros p.
  destruct (build_cost_matrix_fill merged) as (_ & _ & _ & Hmax0 & Hall & Hex).
  done.
Qed.

(** X14.  The score matrix and the cost matrix of [build_cost_matrix] have
    one row for each query and one column for each target. *)
Theorem build_cost_matrix_shape
    (merged : gmap (string * string) Hungarian.merged_rec) :
  let p := Hungarian.build_cost_matrix merged in
  let n := length (Hungarian.queries p) in
  let m := length (Hungarian.targets p) in
  length (Hungarian.score_matrix p) = n ∧
  Forall (λ row, length row = m) (Hungarian.score_matrix p) ∧
  length (Hungarian.cost p) = n ∧
  Forall (λ row, length row = m) (Hungarian.cost p).
Proof.
  intros p n m.
  destruct (build_cost_matrix_fill merged) as ([Hn Hrows] & _).
  split; [exact Hn|]. split; [exact Hrows|].
  unfold p, Hungarian.build_cost_matrix. simpl. split.
  - by rewrite length_map, length_seq.
  - apply Forall_map, Forall_forall. intros i _. simpl.
    by rewrite length_map, length_seq.
Qed.

(** ** The matrix handed to the solver, and the chosen pairs *)

Lemma foldr_min_width {A} (g : list (list A)) (m : nat) :
  Forall (λ row, length row = m) g →
  foldr (λ row acc, min (length row) acc) m g = m.
Proof.
  induction 1 as [|row g Hrow _ IH]; simpl; [done|]. rewrite IH. lia.
Qed.

Lemma zip_star_rect (g : list (list Qc)) (m : nat) :
  g ≠ [] → Forall (λ row, length row = m) g →
  Hungarian.zip_star g = (λ j, (λ row : list Qc, row !!! j) <$> g) <$> seq 0 m.
Proof.
  intros Hne Hrows. destruct g as [|row0 g]; [done|].
  unfold Hungarian.zip_star.
  assert (length row0 = m) as -> by (by apply Forall_inv in Hrows).
  by rewrite (foldr_min_width (row0 :: g) m Hrows).
Qed.

(** X15.  The matrix [solve_hungarian] hands to the solver never has more
    rows than columns.  For a cost matrix of [n] rows and [m] columns it has
    [min n m] rows of [max n m] entries: it is the cost matrix itself when
    [n <= m], and otherwise its transpose, whose entry [(j, i)] is the entry
    [(i, j)] of the cost matrix. *)
Theorem solver_input_wide (cost : list (list Qc)) (m : nat) :
  Forall (λ row, length row = m) cost →
  cost ≠ [] →
  let n := length cost in
  let t := Hungarian.solver_input cost in
  length t = min n m ∧
  Forall (λ row, length row = max n m) t ∧
  (n ≤ m → t = cost) ∧
  (m < n → ∀ i j, i < n → j < m →
     HungarianFacts.score_at t (j, i) = HungarianFacts.score_at cost (i, j)).
Proof.
  intros Hrows Hne n t. unfold t, Hungarian.solver_input.
  assert ((match cost with [] => 0 | row0 :: _ => length row0 end) = m) as ->.
  { destruct cost as [|row0 g]; [done|]. by apply Forall_inv in Hrows. }
  fold n. case_bool_decide as Hmn.
  - rewrite (zip_star_rect cost m Hne Hrows). split_and!.
    + rewrite length_fmap, length_seq. lia.
    + apply Forall_fmap, Forall_forall. intros j _. simpl.
      rewrite length_fmap. fold n. lia.
    + lia.
    + intros _ i j Hi Hj. unfold HungarianFacts.score_at. simpl.
      rewrite (list_lookup_total_correct _ j ((λ row : list Qc, row !!! j) <$> cost)).
      2:{ by rewrite list_lookup_fmap, lookup_seq_lt. }
      apply list_lookup_total_correct.
      rewrite list_lookup_fmap, (list_lookup_lookup_total_lt cost i) by done. done.
  - split_and!.
    + fold n. lia.
    + eapply Forall_impl; [exact Hrows|]. intros row Hrow. simpl in *. lia.
    + done.
    + lia.
Qed.

Lemma solver_input_wide_witness :
  length (Hungarian.solver_input sample_cost) = 2 ∧
  Forall (λ row, length row = 3) (Hungarian.solver_input sample_cost) ∧
  HungarianFacts.score_at (Hungarian.solver_input sample_cost) (1, 2)
    = HungarianFacts.score_at sample_cost (2, 1).
Proof.
  assert (Forall (λ row : list Qc, length row = 2) sample_cost) as Hrows.
  { repeat constructor. }
  assert (sample_cost ≠ []) as Hne by discriminate.
  destruct (solver_input_wide sample_cost 2 Hrows Hne) as (Hlen & Hw & _ & Hcell).
  split; [exact Hlen|]. split; [exact Hw|].
  apply Hcell; simpl; lia.
Defined.

Section chosen.
Import Hungarian HungarianFacts.

Lemma elem_of_collect_chosen (n m : nat) (ce : gmap (nat * nat) merged_rec)
    (r c : list nat) (transposed : bool) ii jj rec :
  (ii, jj, rec) ∈ collect_chosen n m ce r c transposed ↔
  ii < n ∧ jj < m ∧ ce !! (ii, jj) = Some rec ∧
  (if transposed then (jj, ii) else (ii, jj)) ∈ zip r c.
Proof.
  unfold collect_chosen. rewrite list_elem_of_omap. split.
  - intros ([i j] & Hin & Hf). simpl in Hf.
    destruct transposed; simpl in Hf;
      repeat case_bool_decide; simpl in Hf; try done;
      destruct (ce !! _) as [rec'|] eqn:Hce; simplify_eq/=; done.
  - intros (Hi & Hj & Hce & Hin). destruct transposed.
    + exists (jj, ii). split; [done|]. simpl.
      rewrite !bool_decide_true by done. simpl. by rewrite Hce.
    + exists (ii, jj). split; [done|]. simpl.
      rewrite !bool_decide_true by done. simpl. by rewrite Hce.
Qed.

Lemma build_cost_matrix_cell_iff (merged : gmap pair_key merged_rec) ii jj rec :
  let p := build_cost_matrix merged in
  cell p !! (ii, jj) = Some rec ↔
  ∃ A B, queries p !! ii = Some A ∧ targets p !! jj = Some B ∧
         merged !! (A, B) = Some rec ∧ (0 < score rec)%Qc.
Proof.
  intros p. split.
  - intros Hce.
    destruct (build_cost_matrix_cells merged ii jj rec Hce) as (A & B & HAB & Hi & Hj).
    exists A, B. split_and!; [done..|].
    destruct (build_cost_matrix_cell_at merged ii jj A B Hi Hj) as [Hc _].
    fold p in Hc. rewrite Hce, HAB in Hc. unfold stored in Hc. simpl in Hc.
    by case_decide.
  - intros (A & B & Hi & Hj & HAB & Hpos).
    destruct (build_cost_matrix_cell_at merged ii jj A B Hi Hj) as [Hc _].
    fold p in Hc. rewrite Hc, HAB. unfold stored. simpl. by rewrite decide_True.
Qed.

End chosen.

(** X16.  The chosen list of [main], from the output of [solve_hungarian].
    The matrix is transposed exactly when there are more queries than
    targets.  An entry [(ii, jj, rec)] is chosen exactly when the pair
    [(ii, jj)] (the pair [(jj, ii)] after a transposition) is among the pairs
    of the two returned index arrays and [rec] is the merged record, of
    positive score, of the query at [ii] and the target at [jj]: padding
    cells and records that were not filed are dropped, and nothing else. *)
Theorem chosen_of_merged_spec (lsa : list (list Qc) → list nat * list nat)
    (merged : gmap (string * string) Hungarian.merged_rec) :
  let p := Hungarian.build_cost_matrix merged in
  let out := Hungarian.solve_hungarian lsa (Hungarian.cost p) true in
  out.2 = bool_decide (length (Hungarian.targets p) < length (Hungarian.queries p)) ∧
  ∀ ii jj rec,
    (ii, jj, rec) ∈ Hungarian.chosen_of_merged lsa merged ↔
    (if out.2 then (jj, ii) else (ii, jj)) ∈ zip out.1.1 out.1.2 ∧
    ∃ A B, Hungarian.queries p !! ii = Some A ∧
           Hungarian.targets p !! jj = Some B ∧
           merged !! (A, B) = Some rec ∧ (0 < Hungarian.score rec)%Qc.
Proof.
  intros p out. split.
  - unfold out, Hungarian.solve_hungarian.
    assert (length (Hungarian.cost p) = length (Hungarian.queries p)) as Hn.
    { unfold p, Hungarian.build_cost_matrix. simpl. by rewrite length_map, length_seq. }
    assert (match Hungarian.cost p with [] => 0 | row0 :: _ => length row0 end
            = if decide (length (Hungarian.queries p) = 0) then 0
              else length (Hungarian.targets p)) as Hm.
    { unfold p, Hungarian.build_cost_matrix. simpl.
      destruct (length (Hungarian.sorted_ids
                  (set_map (λ k : string * string, k.1) (dom merged)))) as [|n'];
        simpl; [done|]. by rewrite length_map, length_seq. }
    rewrite Hn, Hm. clear Hn Hm. cbn [andb].
    generalize (Hungarian.cost p) (length (Hungarian.queries p))
               (length (Hungarian.targets p)).
    intros g n m. destruct (decide (n = 0)) as [->|Hz].
    + rewrite !bool_decide_false by lia. by destruct (lsa g).
    + case_bool_decide; by destruct (lsa _).
  - intros ii jj rec. unfold Hungarian.chosen_of_merged. fold p. fold out.
    destruct out as [[r c] t]. simpl.
    rewrite elem_of_collect_chosen, (build_cost_matrix_cell_iff merged ii jj rec).
    fold p. split.
    + intros (_ & _ & Hex & Hin). done.
    + intros (Hin & A & B & Hi & Hj & HAB & Hpos). split_and!.
      * by eapply lookup_lt_Some.
      * by eapply lookup_lt_Some.
      * by exists A, B.
      * done.
Qed.

(** ** Collapsing a table before [to_dir_dict] *)

Lemma app_cons_eq_cases {A} (l1' l1 l2' l2 : list A) (x' x : A) :
  l1' ++ x' :: l2' = l1 ++ x :: l2 →
  (l1' = l1 ∧ x' = x ∧ l2' = l2) ∨
  (∃ l, l1 = l1' ++ x' :: l ∧ l2' = l ++ x :: l2) ∨
  (∃ l, l1' = l1 ++ x :: l ∧ l2 = l ++ x' :: l2').
Proof.
  revert l1. induction l1' as [|y l1' IH]; intros [|z l1] Heq; simpl in Heq.
  - left. by simplify_eq.
  - right. left. simplify_eq. by exists l1.
  - right. right. simplify_eq. by exists l1'.
  - injection Heq as -> Heq. apply IH in Heq as [(-> & -> & ->)|[(l & -> & ->)|(l & -> & ->)]].
    + by left.
    + right. left. by exists l.
    + right. right. by exists l.
Qed.

Section collapse.
Import Hungarian HungarianFacts HungarianTables.

Lemma dir_value_false (r : hit) : dir_value false r = r.
Proof. by destruct r. Qed.

Lemma idxmax_as_dir_dict (df : list hit) (D : gmap pair_key hit) k :
  foldl (dir_step false None None) D df !! k = foldl (idxmax_step k) (D !! k) df.
Proof.
  revert D. induction df as [|r df IH]; intros D; [done|]. simpl.
  rewrite IH. f_equal. rewrite dir_step_cases.
  change (passes None None r) with true. cbv iota.
  unfold idxmax_step. change (dir_key false r) with (hit_key r).
  rewrite dir_value_false. case_bool_decide as Hk.
  - subst k. destruct (D !! hit_key r) as [prev|] eqn:HD.
    + case_bool_decide; [by rewrite lookup_insert_eq|done].
    + by rewrite lookup_insert_eq.
  - destruct (D !! hit_key r) as [prev|] eqn:HD.
    + case_bool_decide; [by rewrite lookup_insert_ne|done].
    + by rewrite lookup_insert_ne.
Qed.

Lemma idxmax_best (df : list hit) k :
  best_entry false None None df k (idxmax df k).
Proof.
  unfold idxmax. rewrite <- (lookup_empty (M := gmap pair_key) (A := hit) k).
  rewrite <- idxmax_as_dir_dict. apply to_dir_dict_best.
Qed.

Lemma idxmax_Some (df : list hit) k r :
  idxmax df k = Some r →
  hit_key r = k ∧
  ∃ l1 l2, df = l1 ++ r :: l2 ∧
    (∀ r', r' ∈ l1 → hit_key r' = k → (bitscore r' < bitscore r)%Qc) ∧
    (∀ r', r' ∈ l2 → hit_key r' = k → (bitscore r' ≤ bitscore r)%Qc).
Proof.
  intros Hr. pose proof (idxmax_best df k) as Hb. rewrite Hr in Hb.
  unfold best_entry in Hb.
  destruct Hb as (l1 & r0 & l2 & -> & _ & Hk & Heq & H1 & H2).
  rewrite dir_value_false in Heq. subst r0. split; [done|].
  exists l1, l2. split; [done|]. split.
  - intros r' Hr' Hk'. by apply H1.
  - intros r' Hr' Hk'. by apply H2.
Qed.

Lemma idxmax_is_Some (df : list hit) k :
  is_Some (idxmax df k) ↔ ∃ r, r ∈ df ∧ hit_key r = k.
Proof.
  pose proof (idxmax_best df k) as Hb. split.
  - intros [r Hr]. apply idxmax_Some in Hr as (Hk & l1 & l2 & -> & _).
    exists r. split; [|done]. apply elem_of_app. right. by left.
  - intros (r & Hr & Hk). destruct (idxmax df k) as [r0|]; [by eexists|].
    unfold best_entry in Hb. by destruct (Hb r Hr eq_refl).
Qed.

Lemma elem_of_group_keys (df : list hit) k :
  k ∈ group_keys df ↔ ∃ r, r ∈ df ∧ hit_key r = k.
Proof.
  unfold group_keys. rewrite merge_sort_Permutation, elem_of_remove_dups.
  rewrite list_elem_of_fmap. split; intros (r & H1 & H2); by exists r.
Qed.

Lemma elem_of_collapse (df : list hit) r :
  r ∈ collapse_max_bitscore df ↔ idxmax df (hit_key r) = Some r.
Proof.
  unfold collapse_max_bitscore. destruct df as [|r0 df0] eqn:Hdf.
  { split; [by intros ?%elem_of_nil|done]. }
  rewrite <- Hdf. clear Hdf. rewrite list_elem_of_omap. split.
  - intros (k & _ & Hr). by destruct (idxmax_Some df k r Hr) as [<- _].
  - intros Hr. exists (hit_key r). split; [|done].
    apply elem_of_group_keys, idxmax_is_Some. by eexists.
Qed.

Lemma pair_leb_total : Total (λ k1 k2 : string * string, Is_true (pair_leb k1 k2)).
Proof.
  intros [a1 b1] [a2 b2]. unfold pair_leb. simpl.
  rewrite (String.compare_antisym a1 a2).
  destruct (String.compare a2 a1) eqn:Hc; simpl; [|by right|by left].
  destruct (String.leb_total b1 b2) as [H|H]; rewrite H; [by left|by right].
Qed.

Lemma collapse_keys (df : list hit) :
  hit_key <$> collapse_max_bitscore df = group_keys df.
Proof.
  unfold collapse_max_bitscore. destruct df as [|r0 df0] eqn:Hdf; [done|].
  rewrite <- Hdf. clear Hdf.
  assert (∀ ks : list (string * string), (∀ k, k ∈ ks → k ∈ group_keys df) →
                hit_key <$> omap (idxmax df) ks = ks) as Hks.
  { induction ks as [|k ks IH]; intros Hin; [done|]. simpl.
    destruct (idxmax df k) as [r|] eqn:Hr.
    - rewrite fmap_cons. destruct (idxmax_Some df k r Hr) as [-> _].
      f_equal. apply IH. intros k' Hk'. apply Hin. by right.
    - assert (is_Some (idxmax df k)) as [? ?]; [|congruence].
      apply idxmax_is_Some, elem_of_group_keys, Hin. by left. }
  by apply Hks.
Qed.

End collapse.

(** X17.  [collapse_max_bitscore] keeps exactly one row for each pair of
    identifiers of the table: the first of the rows of greatest bitscore of
    the pair.  The rows come out in the order of their pairs, and no pair
    of the table is lost. *)
Theorem collapse_max_bitscore_spec (df : list Hungarian.hit) :
  let out := HungarianTables.collapse_max_bitscore df in
  (∀ r, r ∈ out ↔
     ∃ l1 l2, df = l1 ++ r :: l2 ∧
       (∀ r', r' ∈ l1 → HungarianTables.hit_key r' = HungarianTables.hit_key r →
              (Hungarian.bitscore r' < Hungarian.bitscore r)%Qc) ∧
       (∀ r', r' ∈ l2 → HungarianTables.hit_key r' = HungarianTables.hit_key r →
              (Hungarian.bitscore r' ≤ Hungarian.bitscore r)%Qc)) ∧
  NoDup (HungarianTables.hit_key <$> out) ∧
  Sorted (λ k1 k2, Is_true (HungarianTables.pair_leb k1 k2))
         (HungarianTables.hit_key <$> out) ∧
  (∀ k, k ∈ HungarianTables.hit_key <$> out ↔
        ∃ r, r ∈ df ∧ HungarianTables.hit_key r = k).
Proof.
  intros out. unfold out. split_and!.
  - intros r. rewrite elem_of_collapse. split.
    + intros Hr. apply idxmax_Some in Hr as (_ & l1 & l2 & Hdf & H1 & H2).
      by exists l1, l2.
    + intros (l1 & l2 & Hdf & H1 & H2).
      destruct (HungarianTables.idxmax df (HungarianTables.hit_key r)) as [r0|] eqn:Hr0.
      * apply idxmax_Some in Hr0 as (Hk & l1' & l2' & Hdf' & H1' & H2').
        f_equal. subst df.
        destruct (app_cons_eq_cases l1' l1 l2' l2 r0 r (eq_sym Hdf'))
          as [(-> & -> & ->)|[(l & Hl1 & Hl2)|(l & Hl1 & Hl2)]]; [done| |].
        -- exfalso. subst l1 l2'.
           assert (Hungarian.bitscore r0 < Hungarian.bitscore r)%Qc as Hlt.
           { apply H1; [|done]. apply elem_of_app. right. by left. }
           assert (Hungarian.bitscore r ≤ Hungarian.bitscore r0)%Qc as Hle.
           { apply H2'; [|done]. apply elem_of_app. right. by left. }
           by apply Qcle_not_lt in Hle.
        -- exfalso. subst l1' l2.
           assert (Hungarian.bitscore r < Hungarian.bitscore r0)%Qc as Hlt.
           { apply H1'; [|done]. apply elem_of_app. right. by left. }
           assert (Hungarian.bitscore r0 ≤ Hungarian.bitscore r)%Qc as Hle.
           { apply H2; [|done]. apply elem_of_app. right. by left. }
           by apply Qcle_not_lt in Hle.
      * exfalso.
        assert (is_Some (HungarianTables.idxmax df (HungarianTables.hit_key r)))
          as [? ?]; [|congruence].
        apply idxmax_is_Some. exists r. split; [|done].
        subst df. apply elem_of_app. right. by left.
  - rewrite collapse_keys. unfold HungarianTables.group_keys.
    rewrite merge_sort_Permutation. apply NoDup_remove_dups.
  - rewrite collapse_keys. unfold HungarianTables.group_keys.
    apply (@Sorted_merge_sort _ _ _ pair_leb_total).
  - intros k. rewrite collapse_keys. apply elem_of_group_keys.
Qed.

Section collapsed_dir_dict.
Import Hungarian HungarianFacts HungarianTables.

Lemma dir_key_unflip (flip : bool) (r : hit) k :
  dir_key flip r = k ↔ hit_key r = unflip flip k.
Proof.
  unfold dir_key, hit_key, unflip. destruct k as [A B], flip; simpl;
    split; intros; simplify_eq; done.
Qed.

Lemma to_dir_dict_collapse_lookup (df : list hit) (flip : bool)
    (emax : option Qc) (Lmin : option Z) k :
  to_dir_dict (collapse_max_bitscore df) flip emax Lmin !! k
  = r ← idxmax df (unflip flip k);
    if passes emax Lmin r then Some (dir_value flip r) else None.
Proof.
  pose proof (to_dir_dict_best (collapse_max_bitscore df) flip emax Lmin k) as Hb.
  destruct (to_dir_dict (collapse_max_bitscore df) flip emax Lmin !! k)
    as [rec|]; unfold best_entry in Hb.
  - destruct Hb as (l1 & r & l2 & Hdf & Hp & Hk & -> & _).
    assert (r ∈ collapse_max_bitscore df) as Hr.
    { rewrite Hdf. apply elem_of_app. right. by left. }
    apply elem_of_collapse in Hr. apply dir_key_unflip in Hk.
    rewrite <- Hk, Hr. simpl. by rewrite Hp.
  - destruct (idxmax df (unflip flip k)) as [r|] eqn:Hr; [|done]. simpl.
    destruct (passes emax Lmin r) eqn:Hp; [|done]. exfalso.
    destruct (idxmax_Some _ _ _ Hr) as [Hk _].
    apply (Hb r); [|done|by apply dir_key_unflip].
    apply elem_of_collapse. by rewrite Hk.
Qed.

End collapsed_dir_dict.

(** X18.  [to_dir_dict] on a collapsed table, as [main] calls it.  A pair
    is kept exactly when the row [collapse_max_bitscore] kept for it, the
    first row of greatest bitscore of the pair, passes the thresholds; the
    record is then that row, filed under the pair (exchanged with [flip]).
    The thresholds are applied after the collapse: a pair whose best row
    fails them is dropped even when another of its rows passes, and no
    pair is kept that [to_dir_dict] would not keep on the table itself. *)
Theorem to_dir_dict_after_collapse (df : list Hungarian.hit) (flip : bool)
    (emax : option Qc) (Lmin : option Z) (k : string * string) :
  let collapsed := HungarianTables.collapse_max_bitscore df in
  Hungarian.to_dir_dict collapsed flip emax Lmin !! k
  = (r ← HungarianTables.idxmax df (HungarianTables.unflip flip k);
     if HungarianFacts.passes emax Lmin r
     then Some (HungarianFacts.dir_value flip r) else None) ∧
  (is_Some (Hungarian.to_dir_dict collapsed flip emax Lmin !! k) →
   is_Some (Hungarian.to_dir_dict df flip emax Lmin !! k)).
Proof.
  intros collapsed. split; [apply to_dir_dict_collapse_lookup|].
  unfold collapsed. rewrite to_dir_dict_collapse_lookup.
  destruct (HungarianTables.idxmax df (HungarianTables.unflip flip k))
    as [r|] eqn:Hr; simpl; [|by intros [? ?]].
  destruct (HungarianFacts.passes emax Lmin r) eqn:Hp; [|by intros [? ?]].
  intros _. destruct (idxmax_Some _ _ _ Hr) as (Hk & l1 & l2 & Hdf & _).
  pose proof (to_dir_dict_best df flip emax Lmin k) as Hb.
  destruct (Hungarian.to_dir_dict df flip emax Lmin !! k) as [rec|]; [by eexists|].
  unfold HungarianFacts.best_entry in Hb. exfalso.
  apply (Hb r); [|done|by apply dir_key_unflip].
  rewrite Hdf. apply elem_of_app. right. by left.
Qed.

(** The loss is real: in the sample table the best row of [(q1, t0)] is too
    short, the other row of the pair is long enough, and the pair is kept by
    [to_dir_dict] on the table but not after the collapse. *)
Example collapse_loses_pair :
  is_Some (Hungarian.to_dir_dict sample_table true None (Some 30%Z)
             !! ("t0"%string, "q1"%string)) ∧
  Hungarian.to_dir_dict (HungarianTables.collapse_max_bitscore sample_table)
    true None (Some 30%Z) !! ("t0"%string, "q1"%string) = None.
Proof.
  split.
  - apply (bool_decide_unpack _). vm_compute. exact I.
  - apply (bool_decide_unpack _). vm_compute. exact I.
Qed.

(** ** The range of the species similarity *)

Section similarity_range.
Import GroupAggregator.

Lemma Qc_sum_bounds (vals : list Qc) (lo hi : Qc) :
  (∀ v, v ∈ vals → (lo ≤ v)%Qc ∧ (v ≤ hi)%Qc) →
  (Qc_of_Z (Z.of_nat (length vals)) * lo ≤ Qc_sum vals)%Qc ∧
  (Qc_sum vals ≤ Qc_of_Z (Z.of_nat (length vals)) * hi)%Qc.
Proof.
  induction vals as [|v vals IH]; intros Hv.
  { unfold Qc_sum. cbn [length foldr]. change (Z.of_nat 0) with 0%Z.
    rewrite Z2Qc_inj_0, !Qcmult_0_l. split; apply Qcle_refl. }
  destruct IH as [IHlo IHhi]; [intros w Hw; apply Hv; by right|].
  destruct (Hv v) as [Hlo Hhi]; [by left|].
  cbn [length Qc_sum foldr]. fold (Qc_sum vals).
  rewrite Nat2Z.inj_succ, <- Z.add_1_l, Z2Qc_inj_add, Z2Qc_inj_1.
  rewrite !Qcmult_plus_distr_l, !Qcmult_1_l.
  split; by apply Qcplus_le_compat.
Qed.

Lemma Qc_div_between (x m lo hi : Qc) :
  (0 < m)%Qc → (m * lo ≤ x)%Qc → (x ≤ m * hi)%Qc →
  (lo ≤ x / m)%Qc ∧ (x / m ≤ hi)%Qc.
Proof.
  intros Hm Hlo Hhi.
  assert (m ≠ 0%Qc) as Hne by (by apply not_eq_sym, Qclt_not_eq).
  assert (x / m * m = x)%Qc as Hx by (rewrite Qcmult_comm; by apply Qcmult_div_r).
  split; apply (Qcmult_lt_0_le_reg_r _ _ m Hm); rewrite Hx.
  - by rewrite Qcmult_comm.
  - by rewrite (Qcmult_comm hi).
Qed.

End similarity_range.

(** X19.  The range of [speciesSimilarity].  When the file holds at least
    one and at most [minMatches] records, all with a defined identity, the
    similarity is a number between the least and the greatest of the
    identities (between any two bounds of them): the padding with the least
    identity never leaves that range. *)
Theorem speciesSimilarity_between (min_matches : Z) (vals : list Qc) (lo hi : Qc) :
  (0 < Z.of_nat (length vals) ≤ min_matches)%Z →
  (∀ v, v ∈ vals → (lo ≤ v)%Qc ∧ (v ≤ hi)%Qc) →
  ∃ s, GroupAggregator.speciesSimilarity min_matches (Fin <$> vals) = Fin s ∧
       (lo ≤ s)%Qc ∧ (s ≤ hi)%Qc.
Proof.
  intros Hobs Hv.
  destruct (Qc_sum_bounds vals lo hi Hv) as [Hslo Hshi].
  assert (0 < Qc_of_Z min_matches)%Qc as Hm.
  { rewrite <- Z2Qc_inj_0. apply (proj1 (Z2Qc_inj_lt _ _)). lia. }
  destruct (decide (Z.of_nat (length vals) = min_matches)) as [Heq|Hne].
  - rewrite speciesSimilarity_enough by lia. eexists. split; [done|].
    rewrite Heq in Hslo, Hshi. by apply Qc_div_between.
  - destruct (speciesSimilarity_padded min_matches vals) as (lo' & Hin & _ & ->);
      [lia|].
    eexists. split; [done|].
    destruct (Hv lo' Hin) as [Hlo' Hhi'].
    assert (0 ≤ Qc_of_Z (min_matches - Z.of_nat (length vals)))%Qc as Hd.
    { rewrite <- Z2Qc_inj_0. apply (proj1 (Z2Qc_inj_le _ _)). lia. }
    apply Qc_div_between; [done| |].
    + replace (Qc_of_Z min_matches * lo)%Qc
        with (Qc_of_Z (Z.of_nat (length vals)) * lo
              + Qc_of_Z (min_matches - Z.of_nat (length vals)) * lo)%Qc
        by (rewrite Z2Qc_inj_sub; ring).
      apply Qcplus_le_compat; [done|].
      rewrite !(Qcmult_comm (Qc_of_Z (min_matches - Z.of_nat (length vals)))).
      by apply Qcmult_le_compat_r.
    + replace (Qc_of_Z min_matches * hi)%Qc
        with (Qc_of_Z (Z.of_nat (length vals)) * hi
              + Qc_of_Z (min_matches - Z.of_nat (length vals)) * hi)%Qc
        by (rewrite Z2Qc_inj_sub; ring).
      apply Qcplus_le_compat; [done|].
      rewrite !(Qcmult_comm (Qc_of_Z (min_matches - Z.of_nat (length vals)))).
      by apply Qcmult_le_compat_r.
Qed.

Lemma speciesSimilarity_between_witness :
  ∃ s, GroupAggregator.speciesSimilarity 3
         (Fin <$> [Qc_of_Z 80; Qc_of_Z 90]) = Fin s ∧
       (Qc_of_Z 80 ≤ s)%Qc ∧ (s ≤ Qc_of_Z 90)%Qc.
Proof.
  assert (0 < Z.of_nat (length [Qc_of_Z 80; Qc_of_Z 90]) ≤ 3)%Z as H1
    by (simpl; lia).
  assert (∀ v, v ∈ [Qc_of_Z 80; Qc_of_Z 90] →
               (Qc_of_Z 80 ≤ v)%Qc ∧ (v ≤ Qc_of_Z 90)%Qc) as H2.
  { intros v [->|[->|Hv%elem_of_nil]%elem_of_cons]%elem_of_cons; [| |done].
    - split; [apply Qcle_refl|]. apply (proj1 (Z2Qc_inj_le _ _)). lia.
    - split; [|apply Qcle_refl]. apply (proj1 (Z2Qc_inj_le _ _)). lia. }
  exact (speciesSimilarity_between 3 [Qc_of_Z 80; Qc_of_Z 90]
           (Qc_of_Z 80) (Qc_of_Z 90) H1 H2).
Defined.

(** ** The results of the loop over the files *)

Section results.
Import GroupAggregator AggregatorFacts.







End results.


Section written_matrix.
Import GroupAggregator AggregatorFacts.


End written_matrix.



(** ** Species names *)

Section species.
Import DiamondTasks.

Lemma split_space_nonempty (s : string) : split_space s ≠ [].
Proof.
  induction s as [|c s IH]; simpl; [done|].
  destruct (Ascii.eqb c " "%char); [done|]. by destruct (split_space s).
Qed.

Lemma split_space_free (s : string) :
  Forall (λ w, space_free w = true) (split_space s).
Proof.
  induction s as [|c s IH]; simpl; [by repeat constructor|].
  destruct (Ascii.eqb c " "%char) eqn:Hc; [by constructor|].
  destruct (split_space s) as [|w ws]; [by repeat constructor; simpl; rewrite Hc|].
  apply Forall_cons in IH as [Hw Hws]. constructor; [|done]. simpl. by rewrite Hc.
Qed.

Lemma join_split_space (s : string) : join_space (split_space s) = s.
Proof.
  induction s as [|c s IH]; [done|]. simpl.
  pose proof (split_space_nonempty s) as Hne.
  destruct (Ascii.eqb c " "%char) eqn:Hc.
  - apply Ascii.eqb_eq in Hc as ->.
    destruct (split_space s) as [|w ws]; [done|]. simpl in *. by rewrite IH.
  - destruct (split_space s) as [|w ws]; [done|].
    destruct ws as [|w' ws]; simpl in *; by rewrite <- IH.
Qed.

Lemma split_space_word (w : string) :
  space_free w = true → split_space w = [w].
Proof.
  induction w as [|c w IH]; [done|]. simpl.
  destruct (Ascii.eqb c " "%char); [done|]. simpl. intros Hw. by rewrite IH.
Qed.

Lemma split_join_space (ws : list string) :
  ws ≠ [] → Forall (λ w, space_free w = true) ws →
  split_space (join_space ws) = ws.
Proof.
  induction ws as [|w ws IH]; [done|]. intros _ Hall.
  apply Forall_cons in Hall as [Hw Hws].
  destruct ws as [|w' ws]; [by apply split_space_word|].
  specialize (IH ltac:(done) Hws).
  change (join_space (w :: w' :: ws))
    with (w +:+ String " "%char (join_space (w' :: ws))).
  revert Hw. generalize dependent (join_space (w' :: ws)). intros rest IH.
  induction w as [|c w IHw]; simpl.
  - intros _. by rewrite IH.
  - destruct (Ascii.eqb c " "%char); [done|]. simpl. intros Hw.
    change (String.append w (String " "%char rest)) with (w +:+ String " "%char rest).
    by rewrite (IHw Hw).
Qed.

Lemma string_app_nil_r (s : string) : s +:+ EmptyString = s.
Proof.
  induction s as [|c s IH]; [done|].
  change (String c s +:+ EmptyString) with (String c (s +:+ EmptyString)).
  by rewrite IH.
Qed.

Lemma string_app_assoc (a b c : string) : (a +:+ b) +:+ c = a +:+ (b +:+ c).
Proof.
  induction a as [|x a IH]; [done|].
  change ((String x a +:+ b) +:+ c) with (String x ((a +:+ b) +:+ c)).
  change (String x a +:+ (b +:+ c)) with (String x (a +:+ (b +:+ c))).
  by rewrite IH.
Qed.

Lemma join_space_take_prefix (ws : list string) (n : nat) :
  ∃ rest, join_space ws = join_space (take n ws) +:+ rest.
Proof.
  revert n. induction ws as [|w ws IH]; intros n.
  { exists EmptyString. by destruct n. }
  destruct n as [|n]; [by eexists|].
  destruct ws as [|w' ws].
  { exists EmptyString. rewrite string_app_nil_r. by destruct n. }
  destruct (IH n) as (rest & Hrest).
  destruct n as [|n].
  - exists (String " "%char (join_space (w' :: ws))). done.
  - change (take (S (S n)) (w :: w' :: ws)) with (w :: w' :: take n ws).
    change (take (S n) (w' :: ws)) with (w' :: take n ws) in Hrest.
    exists rest.
    change (join_space (w :: w' :: ws))
      with (w +:+ String " "%char (join_space (w' :: ws))).
    change (join_space (w :: w' :: take n ws))
      with (w +:+ String " "%char (join_space (w' :: take n ws))).
    rewrite Hrest. by rewrite string_app_assoc.
Qed.

End species.

(** X22.  The species name [Species] computes for a cell is the start of
    the cell's text, up to its second space: it is a prefix of the text, it
    has the first two of the text's space-separated pieces (so at most one
    space), it is the whole text when the text has at most two pieces, and
    taking the species name of a species name changes nothing. *)
Theorem Species_first_two_words (col : list string) (nrows i : nat) (x : string) :
  col !! i = Some x →
  ∃ y, DiamondTasks.Species (Some col) nrows !! i = Some (Some y) ∧
    (∃ rest, x = y +:+ rest) ∧
    DiamondTasks.split_space y = take 2 (DiamondTasks.split_space x) ∧
    (length (DiamondTasks.split_space x) ≤ 2 → y = x) ∧
    DiamondTasks.first_two_words y = y.
Proof.
  intros Hx. exists (DiamondTasks.first_two_words x).
  assert (DiamondTasks.split_space (DiamondTasks.first_two_words x)
          = take 2 (DiamondTasks.split_space x)) as Hsplit.
  { unfold DiamondTasks.first_two_words. apply split_join_space.
    - pose proof (split_space_nonempty x).
      by destruct (DiamondTasks.split_space x).
    - apply Forall_take, split_space_free. }
  split_and!.
  - unfold DiamondTasks.Species. by rewrite list_lookup_fmap, Hx.
  - destruct (join_space_take_prefix (DiamondTasks.split_space x) 2) as (rest & Hrest).
    exists rest. by rewrite join_split_space in Hrest.
  - done.
  - intros Hlen. unfold DiamondTasks.first_two_words.
    rewrite take_ge by done. apply join_split_space.
  - unfold DiamondTasks.first_two_words at 1. rewrite Hsplit.
    by rewrite take_take.
Qed.

Lemma Species_first_two_words_witness :
  ∃ y, DiamondTasks.Species (Some ["Escherichia coli K-12"%string]) 1 !! 0
         = Some (Some y) ∧
       y = "Escherichia coli"%string.
Proof.
  destruct (Species_first_two_words ["Escherichia coli K-12"%string] 1 0
              "Escherichia coli K-12"%string eq_refl) as (y & Hy & _).
  exists y. split; [exact Hy|].
  vm_compute in Hy. by injection Hy as <-.
Defined.
